(** * LoRa-challengingDatasets: the training and evaluation runner

    A shallow embedding of [modules/runner.py] ([eval_model] and
    [train_model]) together with the properties its specification states.

    Conventions of the embedding:
    - tensors are nested lists of rationals; the similarity scores are
      exact, so the rounding of the half-precision forward pass and of the
      matrix product is not represented;
    - the accuracy and loss arithmetic is binary64, as Python's [float]:
      a value is the rational it denotes and every operation rounds its
      exact result to the nearest binary64 number ([round64]; the exponent
      range is not bounded);
    - Python exceptions are the constructors of [Err]; a local that is
      read before it is bound raises [UnboundLocalError];
    - model objects live in a heap of references, so that [best_model =
      model] and [copy.deepcopy(model)] can be told apart;
    - the run records an event trace (optimizer steps, log lines, calls of
      the evaluation loop, ...), which is what the statements about the
      order and number of effects are phrased on;
    - collaborators that are not part of the runner (the encoders, the
      meta-adapter module, the loss, the optimizer) are the fields of the
      [Backend] class. *)

From Stdlib Require Import ZArith QArith Qround Qpower String Lia Lqa.
From stdpp Require Import base option list gmap strings pretty.

Local Open Scope nat_scope.

(** ** Numbers *)

(** [x < y] on floats, as a boolean. *)
Definition Qltb (x y : Q) : bool := negb (Qle_bool y x).

(** A natural number as a rational. *)
Definition Qnat (n : nat) : Q := inject_Z (Z.of_nat n).

(** The integer nearest to [y], a tie going to the even one. *)
Definition nearest_even (y : Q) : Z :=
  let f := Qfloor y in
  match Qcompare (y - inject_Z f) (1 # 2) with
  | Lt => f
  | Gt => (f + 1)%Z
  | Eq => if Z.even f then f else (f + 1)%Z
  end.

(** A positive [x] rounded to [prec] significant bits: with [e] the
    exponent for which [2 ^ (prec - 1) <= x / 2 ^ e < 2 ^ prec], the
    result is the integer nearest to [x / 2 ^ e], times [2 ^ e]. *)
Definition round_pos (prec : Z) (x : Q) : Q :=
  let e0 := (Z.log2 (Qnum x) - Z.log2 (Z.pos (Qden x)) - prec)%Z in
  let e := if Qltb (x / 2 ^ e0) (2 ^ prec) then e0 else (e0 + 1)%Z in
  (inject_Z (nearest_even (x / 2 ^ e)) * 2 ^ e)%Q.

(** The binary64 number nearest to [x] (round to nearest, ties to
    even), in lowest terms. *)
Definition round64 (x : Q) : Q :=
  Qred (match Qnum x with
        | Z0 => 0
        | Zpos _ => round_pos 53 x
        | Zneg _ => - round_pos 53 (- x)
        end)%Q.

(** The unit roundoff of binary64. *)
Definition ulp : Q := (1 # 2 ^ 53)%Q.

(** Python's [float(n)], [x + y], [x * y] and [x / y] on floats. *)
Definition of_int (n : nat) : Q := round64 (Qnat n).
Definition fadd (x y : Q) : Q := round64 (x + y).
Definition fmul (x y : Q) : Q := round64 (x * y).
Definition fdiv (x y : Q) : Q := round64 (x / y).

(** [y] is [x] up to [k] roundings: neither is negative and each is at
    least the other one times [(1 - ulp) ^ k]. *)
Definition near (k : nat) (x y : Q) : Prop :=
  (0 <= x)%Q /\ (0 <= y)%Q
  /\ (x * (1 - ulp) ^ Z.of_nat k <= y)%Q
  /\ (y * (1 - ulp) ^ Z.of_nat k <= x)%Q.

(** ** Tensors *)

Module Tensor.

(** A [D]-vector, a [K x D] matrix and a [K x M x D] tensor. *)
Abbreviation Emb := (list Q).
Abbreviation Tensor2 := (list (list Q)).
Abbreviation Tensor3 := (list (list (list Q))).

Definition dot (u v : Emb) : Q :=
  foldr Qplus 0%Q (zip_with Qmult u v).

(** [s * T] for a scalar [s]. *)
Definition scale (s : Q) (T : Tensor2) : Tensor2 :=
  map (map (Qmult s)) T.

(** [A @ R.t()]: entry [(i, j)] is the product of row [i] of [A] with
    row [j] of [R].  Whether the widths agree is [conformable], which
    the runner's [scores] checks before it takes the product. *)
Definition matmul_t (A R : Tensor2) : Tensor2 :=
  map (fun a => map (dot a) R) A.

(** [logit_scale * image_features @ R.t()]; Python parses it as
    [(logit_scale * image_features) @ R.t()]. *)
Definition cosine_similarity (logit_scale : Q) (image_features R : Tensor2)
  : Tensor2 :=
  matmul_t (scale logit_scale image_features) R.

(** The product [A @ R.t()] is defined: the rows of [A] are as wide as
    the rows of [R]. *)
Definition conformable (A R : Tensor2) : bool :=
  forallb (fun a => forallb (fun r => length a =? length r) R) A.

(** First-max scan: [best] at index [bi] is replaced only by a strictly
    greater entry. *)
Fixpoint argmax_from (best : Q) (bi i : nat) (row : list Q) : nat :=
  match row with
  | [] => bi
  | x :: rest =>
      if Qltb best x then argmax_from x i (S i) rest
      else argmax_from best bi (S i) rest
  end.

(** [row.argmax()]; an empty row has no maximum. *)
Definition argmax (row : list Q) : option nat :=
  match row with
  | [] => None
  | x :: rest => Some (argmax_from x 0 1 rest)
  end.

(** [support_features.reshape(K, -1, D)] on the flattened data: the
    inferred middle dimension is [numel / (K * D)]. *)
Fixpoint chunks {A} (width count : nat) (l : list A) : list (list A) :=
  match count with
  | 0 => []
  | S c => take width l :: chunks width c (drop width l)
  end.

Definition reshape3 (K D : nat) (t : Tensor2) : option Tensor3 :=
  let flat := concat t in
  let n := length flat in
  if (K * D =? 0) || negb (n mod (K * D) =? 0) then None
  else
    let M := n / (K * D) in
    Some (map (chunks D M) (chunks (M * D) K flat)).

(** Reordering of the class axis: row [j] of the result is row [p j] of
    [R]. *)
Definition permute {A} (p : list nat) (l : list A) : list A :=
  omap (fun j => l !! j) p.

End Tensor.
Export Tensor.

(** ** Batches, loaders and the external collaborators *)

(** One element of a loader: [(images, target, target_f)]. *)
Record Batch (I : Type) := mkBatch {
  images : list I;
  target : list nat;
  target_f : Tensor2;
}.
Arguments mkBatch {I} _ _ _.
Arguments images {I} _.
Arguments target {I} _.
Arguments target_f {I} _.

(** What the runner calls but does not define.  [Params] is the
    parameter state of a model object, [OptState] the state of the
    optimizer, the gradient scaler and the scheduler taken together. *)
Class Backend := {
  Image : Type;
  Params : Type;
  OptState : Type;
  (** [model.encode_image(images)] followed by division of every row by
      its norm *)
  encode_image : Params -> list Image -> Tensor2;
  (** [model.meta_adapter(query, key, value)] *)
  meta_adapter : Params -> Tensor2 -> Tensor3 -> Tensor3 -> Tensor2;
  (** [get_text_target_features(model, dataset)] for the run's dataset *)
  get_text_target_features : Params -> Tensor2;
  (** [get_vision_target_features(model, loader)] *)
  get_vision_target_features : Params -> list (Batch Image) -> Tensor2;
  (** [F.cross_entropy(cosine_similarity, target)] *)
  cross_entropy : Tensor2 -> list nat -> Q;
  (** [AdamW(model.parameters(), lr=args.lr)] with its
      [CosineAnnealingLR(optimizer, total_iters)] and [GradScaler] *)
  make_optimizer : Params -> Q -> nat -> OptState;
  (** [zero_grad], scaled [backward], [scaler.step(optimizer)],
      [scaler.update()] and [scheduler.step()] for one batch and its loss *)
  optimizer_step : OptState -> Params -> Batch Image -> Q -> OptState * Params;
  (** [scheduler.get_last_lr()[0]] *)
  get_last_lr : OptState -> Q;
}.

(** The shape contract of the model interface: one embedding per image,
    one adapted prototype per class. *)
Record BackendShapes (B : Backend) : Prop := {
  encode_image_rows :
    forall p imgs, length (encode_image p imgs) = length imgs;
  meta_adapter_rows :
    forall p q k v, length (meta_adapter p q k v) = length q;
}.

(** ** Exceptions and results *)

Inductive Err :=
| ValueError (msg : string)
| UnboundLocalError (name : string)
| ZeroDivisionError
| IndexError
| AttributeError
| TypeError
| RuntimeError
(** Not Python exceptions: a reference that is not in the heap, and an
    exhausted loop budget.  Neither is reachable from [train_model]. *)
| DanglingReference
| OutOfFuel.

Inductive Result (A : Type) :=
| Ok (a : A)
| Raise (e : Err).
Arguments Ok {A} _.
Arguments Raise {A} _.

Definition is_ok {A} (r : Result A) : bool :=
  match r with Ok _ => true | Raise _ => false end.

(** [args]: the options the runner consults. *)
Record Args := mkArgs {
  enable_lora : bool;
  enable_BitFit : bool;
  enable_MetaAdapter : bool;
  encoder : string;
  n_iters : nat;
  shots : nat;
  lr : Q;
  save_path : option string;
  filename : string;
}.

Definition loc := nat.

Inductive Device := Cuda | Cpu.

Inductive Site := Validation | Test.

Section Runner.
Context {B : Backend}.

Definition Loader := list (Batch Image).

(** A Python value as [eval_model] can receive it in its
    [target_features], [support_img_loader], [meta_query] and [meta_key]
    parameters. *)
Inductive PyVal :=
| PyNone
| PyLoader (l : Loader)
| PyTensor2 (t : Tensor2)
| PyTensor3 (t : Tensor3).

Definition is_None (v : PyVal) : bool :=
  match v with PyNone => true | _ => false end.

(** A model object: [nn.Module] state that [deepcopy] duplicates. *)
Record ModelObj := mkModel {
  params : Params;
  device : Device;
  training : bool;
}.

(** Observable effects, in program order. *)
Inductive Event :=
| EvSetMode (m : loc) (train : bool)
| EvSupportFeatures (m : loc)
| EvRecomputeTargets (m : loc)
| EvEncodeImage (m : loc) (batch : list Image)
| EvMetaAdapter (m : loc)
| EvOptimizerStep (m : loc)
| EvLog (lr acc loss : Q)
| EvEvalCall (site : Site) (m : loc) (loader : Loader)
    (target_features support_img_loader meta_query meta_key : PyVal)
| EvPrintAccuracy (site : Site) (acc : Q)
| EvDeepCopy (src dst : loc)
| EvMoveTo (m : loc) (d : Device)
| EvSave (m : loc) (path : string).

Record World := mkWorld {
  heap : gmap loc ModelObj;
  next_loc : loc;
  trace : list Event;
}.

(** State and exceptions: effects that happened before an exception
    stay in the world. *)
Definition M (A : Type) : Type := World -> World * Result A.

Definition ret {A} (a : A) : M A := fun w => (w, Ok a).
Definition raise {A} (e : Err) : M A := fun w => (w, Raise e).
Definition bind {A C} (c : M A) (k : A -> M C) : M C :=
  fun w =>
    match c w with
    | (w', Ok a) => k a w'
    | (w', Raise e) => (w', Raise e)
    end.

Definition lift {A} (e : Err) (o : option A) : M A :=
  match o with Some a => ret a | None => raise e end.

Definition emit (ev : Event) : M unit :=
  fun w => (mkWorld (heap w) (next_loc w) (trace w ++ [ev]), Ok tt).

Definition read_model (m : loc) : M ModelObj :=
  fun w => lift DanglingReference (heap w !! m) w.

Definition write_model (m : loc) (o : ModelObj) : M unit :=
  fun w => (mkWorld (<[m := o]> (heap w)) (next_loc w) (trace w), Ok tt).

End Runner.

Declare Scope runner_scope.
Delimit Scope runner_scope with runner.
Notation "'let*' x ':=' c 'in' k" := (bind c (fun x => k))
  (at level 10, x pattern, c at level 100, k at level 200) : runner_scope.
Notation "c ';;' k" := (bind c (fun _ => k))
  (at level 100, k at level 200, right associativity) : runner_scope.

Local Open Scope runner_scope.

(** ** Accuracy *)

(** Number of positions at which the prediction is the target. *)
Definition correct_count (preds targets : list nat) : nat :=
  length (filter (fun pt => bool_decide (pt.1 = pt.2)) (zip preds targets)).

(** [mean(predictions == targets)] over whole arrays: the number of
    hits over the number of entries, as a float. *)
Definition mean_correct (preds targets : list nat) : Q :=
  round64 (Qnat (correct_count preds targets) / Qnat (length targets)).

(** Modelled from the spec: [cls_acc] ([modules/utils.py]) is not among
    the sources.  The spec calls its value the per-batch accuracy, the
    share of the batch whose highest score is at the true label; the
    runner weights it by the batch size. *)
Definition cls_acc (output : Tensor2) (target : list nat) : Q :=
  round64
    (Qnat (length (filter (fun rt => bool_decide (argmax rt.1 = Some rt.2))
                          (zip output target)))
     / Qnat (length target)).

(** [c] is the lowest index at which [row] takes its greatest value. *)
Definition first_max (row : list Q) (c : nat) : Prop :=
  exists x, row !! c = Some x
    /\ (forall j y, row !! j = Some y -> (y <= x)%Q)
    /\ (forall j y, j < c -> row !! j = Some y -> (y < x)%Q).

(** ** The evaluation loop *)

Section Evaluation.
Context {B : Backend}.

Definition set_mode (m : loc) (train : bool) : M unit :=
  let* o := read_model m in
  write_model m (mkModel (params o) (device o) train) ;;
  emit (EvSetMode m train).

Definition as_loader (v : PyVal) : M Loader :=
  match v with PyLoader l => ret l | _ => raise TypeError end.

Definition as_tensor2 (e : Err) (v : PyVal) : M Tensor2 :=
  match v with PyTensor2 t => ret t | _ => raise e end.

Definition as_tensor3 (e : Err) (v : PyVal) : M Tensor3 :=
  match v with PyTensor3 t => ret t | _ => raise e end.

(** The accumulators of [eval_model]. *)
Record EvalState := mkEvalState {
  acc : Q;
  eval_tot_samples : nat;
  all_images : list Image;
  all_targets : list nat;
  all_predictions : list nat;
  all_similarities : Tensor2;
}.

(** The weighted accumulation [acc += a * n; tot_samples += n]; [acc]
    is a float, [n] and [tot_samples] are integers. *)
Definition accumulate (a : Q) (n : nat) (st : EvalState) : EvalState :=
  mkEvalState (fadd (acc st) (fmul a (of_int n))) (eval_tot_samples st + n)
    (all_images st) (all_targets st) (all_predictions st)
    (all_similarities st).

Definition collect (imgs : list Image) (tg pr : list nat) (cs : Tensor2)
    (st : EvalState) : EvalState :=
  mkEvalState (acc st) (eval_tot_samples st)
    (all_images st ++ imgs) (all_targets st ++ tg)
    (all_predictions st ++ pr) (all_similarities st ++ cs).

(** [logit_scale * image_features @ R.t()] (lines 65 and 68, 143 and
    146); the product raises when the widths differ. *)
Definition scores (logit_scale : Q) (image_features R : Tensor2)
  : M Tensor2 :=
  if conformable image_features R
  then ret (cosine_similarity logit_scale image_features R)
  else raise RuntimeError.

(** The reference set the scores are taken against (lines 62-68). *)
Definition reference_set (args : Args) (model : loc) (p : Params)
    (target_features meta_query meta_key : PyVal) : M Tensor2 :=
  if enable_MetaAdapter args then
    let* q := as_tensor2 TypeError meta_query in
    let* k := as_tensor3 TypeError meta_key in
    emit (EvMetaAdapter model) ;;
    ret (meta_adapter p q k k)
  else
    as_tensor2 AttributeError target_features.

(** One iteration of the loop at lines 55-80. *)
Definition eval_batch (args : Args) (model : loc) (logit_scale : Q)
    (target_features meta_query meta_key : PyVal)
    (st : EvalState) (b : Batch Image) : M EvalState :=
  let* o := read_model model in
  emit (EvEncodeImage model (images b)) ;;
  let image_features := encode_image (params o) (images b) in
  let* R := reference_set args model (params o)
              target_features meta_query meta_key in
  let* cs := scores logit_scale image_features R in
  let* pred := lift IndexError (mapM argmax cs) in
  ret (collect (images b) (target b) pred cs
         (accumulate (cls_acc cs (target b)) (length cs) st)).

Fixpoint eval_batches (args : Args) (model : loc) (logit_scale : Q)
    (target_features meta_query meta_key : PyVal)
    (loader : Loader) (st : EvalState) : M EvalState :=
  match loader with
  | [] => ret st
  | b :: rest =>
      let* st' := eval_batch args model logit_scale
                    target_features meta_query meta_key st b in
      eval_batches args model logit_scale
        target_features meta_query meta_key rest st'
  end.

(** Lines 49-52: the query and key pair is derived from the support
    loader when it was not passed in. *)
Definition resolve_meta (args : Args) (model : loc)
    (target_features support_img_loader meta_query meta_key : PyVal)
  : M (PyVal * PyVal) :=
  if enable_MetaAdapter args && (is_None meta_query || is_None meta_key)
  then
    let* o := read_model model in
    let* sl := as_loader support_img_loader in
    emit (EvSupportFeatures model) ;;
    let support_features := get_vision_target_features (params o) sl in
    let* q := as_tensor2 AttributeError target_features in
    let* k := lift RuntimeError
                (reshape3 (length q) (length (hd [] q)) support_features) in
    ret (target_features, PyTensor3 k)
  else ret (meta_query, meta_key).

Definition no_source_message : string :=
  "Neither support_img_loader nor (meta_key and meta_query) provided. Please provide one of them.".

(** [acc /= tot_samples] for a float [acc] and an integer
    [tot_samples]. *)
Definition divide (x : Q) (n : nat) : M Q :=
  if n =? 0 then raise ZeroDivisionError else ret (fdiv x (of_int n)).

Definition eval_model (args : Args) (model : loc) (logit_scale : Q)
    (loader : Loader)
    (target_features support_img_loader meta_query meta_key : PyVal)
  : M (Q * list Image * list nat * list nat * Tensor2) :=
  if (is_None meta_key || is_None meta_query) && is_None support_img_loader
  then raise (ValueError no_source_message)
  else
    set_mode model false ;;
    let* qk := resolve_meta args model
                 target_features support_img_loader meta_query meta_key in
    let* st := eval_batches args model logit_scale
                 target_features qk.1 qk.2 loader
                 (mkEvalState 0 0 [] [] [] []) in
    let* a := divide (acc st) (eval_tot_samples st) in
    ret (a, all_images st, all_targets st, all_predictions st,
         all_similarities st).

End Evaluation.

(** ** The meta key memory *)

Module Memory.

(** [meta_key.shape[1]] *)
Definition shape1 (meta_key : Tensor3) : nat :=
  match meta_key with [] => 0 | row :: _ => length row end.

(** The Python slice [l[:stop]]. *)
Definition slice_to {A} (stop : Z) (l : list A) : list A :=
  if (stop <? 0)%Z then take (Z.to_nat (Z.of_nat (length l) + stop)) l
  else take (Z.to_nat stop) l.

(** [torch.cat([feat[None, :], meta_key[tar][:meta_key.shape[1] - 1]],
    dim=0)] *)
Definition shifted_row (M : nat) (feat : Emb) (row : list Emb) : list Emb :=
  feat :: slice_to (Z.of_nat M - 1) row.

(** [meta_key[tar] = value]: the value is copied into the row, a value
    of one entry being broadcast over the row. *)
Definition assign_row (row value : list Emb) : option (list Emb) :=
  if length value =? length row then Some value
  else match value with
       | [v] => Some (replicate (length row) v)
       | _ => None
       end.

(** Line 164 for one [(tar, feat)] pair. *)
Definition update_row (meta_key : Tensor3) (tar : nat) (feat : Emb)
  : Result Tensor3 :=
  match meta_key !! tar with
  | None => Raise IndexError
  | Some row =>
      match assign_row row (shifted_row (shape1 meta_key) feat row) with
      | None => Raise RuntimeError
      | Some row' => Ok (<[tar := row']> meta_key)
      end
  end.

(** Lines 163-164: [for tar, feat in zip(target, image_features)]. *)
Fixpoint update (meta_key : Tensor3) (pairs : list (nat * Emb))
  : Result Tensor3 :=
  match pairs with
  | [] => Ok meta_key
  | (tar, feat) :: rest =>
      match update_row meta_key tar feat with
      | Ok mk' => update mk' rest
      | Raise e => Raise e
      end
  end.

(** A [K x M x D] tensor: [K] rows of [M] entries each. *)
Definition well_shaped (K M : nat) (meta_key : Tensor3) : Prop :=
  length meta_key = K /\ Forall (fun row => length row = M) meta_key.


End Memory.

(** ** The training loop *)

Section Training.
Context {B : Backend}.

(** The locals of [train_model] that change while it runs.  [None] in
    an optional field is a name that has not been bound. *)
Record Locals := mkLocals {
  target_features : Tensor2;
  meta_query : option Tensor2;
  meta_key : option Tensor3;
  image_features : option Tensor2;
  optimizer : OptState;
  count_iters : nat;
  best_acc : Q;
  best_model : loc;
  acc_train : Q;
  tot_samples : nat;
  loss_epoch : Q;
}.

Definition read_local {A} (name : string) (v : option A) : M A :=
  lift (UnboundLocalError name) v.

Definition lift_result {A} (r : Result A) : M A :=
  match r with Ok a => ret a | Raise e => raise e end.

(** Everything [train_model] is called with, apart from [args]. *)
Record Inputs := mkInputs {
  model : loc;
  logit_scale : Q;
  train_loader : Loader;
  val_loader : Loader;
  test_loader : Loader;
  target_loader : Loader;
  task_type : string;
}.

Definition total_iters (args : Args) : nat := n_iters args * shots args.

(** The guard at lines 129-131. *)
Definition recompute_needed (args : Args) (task : string) : bool :=
  (enable_lora args && String.eqb task "image2text"
     && (String.eqb (encoder args) "text"
         || String.eqb (encoder args) "both"))
  || (enable_lora args && String.eqb task "image2image"
        && (String.eqb (encoder args) "vision"
            || String.eqb (encoder args) "both"))
  || enable_BitFit args.

(** The right-hand side of line 132. *)
Definition recomputed_features (inp : Inputs) (p : Params) : Tensor2 :=
  if String.eqb (task_type inp) "image2text"
  then get_text_target_features p
  else get_vision_target_features p (target_loader inp).

(** Lines 129-132. *)
Definition load_label_features (args : Args) (inp : Inputs) (p : Params)
    (tf : Tensor2) : M Tensor2 :=
  if recompute_needed args (task_type inp) then
    emit (EvRecomputeTargets (model inp)) ;;
    ret (recomputed_features inp p)
  else ret tf.

(** The guard at line 134. *)
Definition encodes_images (args : Args) : bool :=
  String.eqb (encoder args) "vision" || String.eqb (encoder args) "both".

(** Lines 134-137. *)
Definition forward_images (args : Args) (inp : Inputs) (p : Params)
    (b : Batch Image) (previous : option Tensor2) : M (option Tensor2) :=
  if encodes_images args then
    emit (EvEncodeImage (model inp) (images b)) ;;
    ret (Some (encode_image p (images b)))
  else ret previous.

(** Lines 139-146. *)
Definition train_scores (args : Args) (inp : Inputs) (p : Params)
    (tf : Tensor2) (L : Locals) (feats : option Tensor2) : M Tensor2 :=
  if enable_MetaAdapter args then
    let* q := read_local "meta_query" (meta_query L) in
    let* k := read_local "meta_key" (meta_key L) in
    emit (EvMetaAdapter (model inp)) ;;
    let meta_adaptation := meta_adapter p q k k in
    let* f := read_local "image_features" feats in
    scores (logit_scale inp) f meta_adaptation
  else
    let* f := read_local "image_features" feats in
    scores (logit_scale inp) f tf.

Definition batch_size_message (n m : nat) : string :=
  "Expected input batch_size (" ++ pretty n
    ++ ") to match target batch_size (" ++ pretty m ++ ").".

(** What [F.cross_entropy(cosine_similarity, target)] (line 148) checks
    before it computes the loss: there is one label for each row of
    scores, and each label is the index of a class. *)
Definition check_targets (cs : Tensor2) (target : list nat) : M unit :=
  if negb (length cs =? length target)
  then raise (ValueError (batch_size_message (length cs) (length target)))
  else if forallb (fun rt => rt.2 <? length rt.1) (zip cs target)
       then ret tt
       else raise IndexError.

(** Lines 161-164. *)
Definition update_cache_keys (args : Args) (b : Batch Image)
    (feats : option Tensor2) (mk : option Tensor3) : M (option Tensor3) :=
  if enable_MetaAdapter args then
    let* f := read_local "image_features" feats in
    let* k := read_local "meta_key" mk in
    let* k' := lift_result (Memory.update k (zip (target b) f)) in
    ret (Some k')
  else ret mk.

(** The body of the [for] loop, lines 127-166. *)
Definition train_step (args : Args) (inp : Inputs) (L : Locals)
    (b : Batch Image) : M Locals :=
  let* o := read_model (model inp) in
  let* tf := load_label_features args inp (params o) (target_features L) in
  let* feats := forward_images args inp (params o) b (image_features L) in
  let* cs := train_scores args inp (params o) tf L feats in
  check_targets cs (target b) ;;
  let loss := cross_entropy cs (target b) in
  let n := length (target b) in
  let stepped := optimizer_step (optimizer L) (params o) b loss in
  write_model (model inp) (mkModel stepped.2 (device o) (training o)) ;;
  emit (EvOptimizerStep (model inp)) ;;
  let* mk := update_cache_keys args b feats (meta_key L) in
  ret (mkLocals tf (meta_query L) mk feats stepped.1
         (count_iters L + 1) (best_acc L) (best_model L)
         (fadd (acc_train L) (fmul (cls_acc cs (target b)) (of_int n)))
         (tot_samples L + n)
         (fadd (loss_epoch L) (fmul loss (of_int n)))).

(** The [for] loop of one epoch with its [break] at lines 167-168. *)
Fixpoint run_batches (args : Args) (inp : Inputs) (batches : Loader)
    (L : Locals) : M Locals :=
  match batches with
  | [] => ret L
  | b :: rest =>
      let* L' := train_step args inp L b in
      if count_iters L' =? total_iters args then ret L'
      else run_batches args inp rest L'
  end.

(** Lines 170-174. *)
Definition log_epoch (args : Args) (L : Locals) : M Locals :=
  if count_iters L <? total_iters args then
    let* a := divide (acc_train L) (tot_samples L) in
    let* l := divide (loss_epoch L) (tot_samples L) in
    emit (EvLog (get_last_lr (optimizer L)) a l) ;;
    ret (mkLocals (target_features L) (meta_query L) (meta_key L)
           (image_features L) (optimizer L) (count_iters L) (best_acc L)
           (best_model L) a (tot_samples L) l)
  else ret L.

(** The call at line 177 (and 186): the positional arguments are, in
    order, [args, model, logit_scale, loader, val_loader,
    target_features]; the keywords are read after them. *)
Definition call_eval (args : Args) (inp : Inputs) (site : Site)
    (m : loc) (loader : Loader) (L : Locals)
  : M (Q * list Image * list nat * list nat * Tensor2) :=
  let a_target_features := PyLoader (val_loader inp) in
  let a_support_img_loader := PyTensor2 (target_features L) in
  let* q := read_local "meta_query" (meta_query L) in
  let* k := read_local "meta_key" (meta_key L) in
  emit (EvEvalCall site m loader a_target_features a_support_img_loader
          (PyTensor2 q) (PyTensor3 k)) ;;
  eval_model args m (logit_scale inp) loader
    a_target_features a_support_img_loader (PyTensor2 q) (PyTensor3 k).

(** [copy.deepcopy(model).to('cpu')], bound to [best_model]; the object
    [best_model] named before loses its last reference unless it is the
    live model. *)
Definition snapshot (inp : Inputs) (old_best : loc) : M loc :=
  let* o := read_model (model inp) in
  fun w =>
    let l := next_loc w in
    let h := <[l := mkModel (params o) Cpu (training o)]> (heap w) in
    let h' := if bool_decide (old_best = model inp) then h
              else delete old_best h in
    (mkWorld h' (S l)
       (trace w ++ [EvDeepCopy (model inp) l; EvMoveTo l Cpu]), Ok l).

(** Lines 181-183. *)
Definition save_best (inp : Inputs) (acc_val : Q) (L : Locals) : M Locals :=
  if Qltb (best_acc L) acc_val then
    let* l := snapshot inp (best_model L) in
    ret (mkLocals (target_features L) (meta_query L) (meta_key L)
           (image_features L) (optimizer L) (count_iters L) acc_val l
           (acc_train L) (tot_samples L) (loss_epoch L))
  else ret L.

(** Lines 176-183, what follows the batches of an epoch. *)
Definition validate (args : Args) (inp : Inputs) (L : Locals) : M Locals :=
  set_mode (model inp) false ;;
  let* r := call_eval args inp Validation (model inp) (val_loader inp) L in
  let acc_val := r.1.1.1.1 in
  emit (EvPrintAccuracy Validation acc_val) ;;
  save_best inp acc_val L.

(** One pass of the [while] body, lines 121-183. *)
Definition train_epoch (args : Args) (inp : Inputs) (L : Locals) : M Locals :=
  set_mode (model inp) true ;;
  let L0 := mkLocals (target_features L) (meta_query L) (meta_key L)
              (image_features L) (optimizer L) (count_iters L) (best_acc L)
              (best_model L) 0 0 0 in
  let* L1 := run_batches args inp (train_loader inp) L0 in
  let* L2 := log_epoch args L1 in
  validate args inp L2.

(** [while count_iters < total_iters], with a budget of epochs. *)
Fixpoint train_while (fuel : nat) (args : Args) (inp : Inputs) (L : Locals)
  : M Locals :=
  if count_iters L <? total_iters args then
    match fuel with
    | 0 => raise OutOfFuel
    | S fuel' =>
        let* L' := train_epoch args inp L in
        train_while fuel' args inp L'
    end
  else ret L.

(** Lines 102-107. *)
Definition init_meta (args : Args) (inp : Inputs) (tf : Tensor2)
  : M (option Tensor2 * option Tensor3) :=
  if enable_MetaAdapter args then
    set_mode (model inp) false ;;
    let* o := read_model (model inp) in
    emit (EvSupportFeatures (model inp)) ;;
    let support_features :=
      get_vision_target_features (params o) (val_loader inp) in
    let* k := lift RuntimeError
                (reshape3 (length tf) (length (hd [] tf)) support_features) in
    ret (Some tf, Some k)
  else ret (None, None).

(** [best_model = best_model.cuda()]: the module is moved in place. *)
Definition to_cuda (m : loc) : M unit :=
  let* o := read_model m in
  write_model m (mkModel (params o) Cuda (training o)) ;;
  emit (EvMoveTo m Cuda).

(** [os.path.join(a, b)] for two components. *)
Definition path_join (a b : string) : string :=
  if String.prefix "/" b then b
  else if String.eqb a ""
          || String.eqb (String.substring (String.length a - 1) 1 a) "/"
       then a ++ b
       else a ++ "/" ++ b.

(** Lines 194-197. *)
Definition save_checkpoint (args : Args) (m : loc) : M unit :=
  match save_path args with
  | Some dir => emit (EvSave m (path_join dir (filename args ++ ".pth")))
  | None => ret tt
  end.

(** Lines 102-118: the locals as the [while] loop finds them. *)
Definition init_locals (args : Args) (inp : Inputs)
    (target_features0 : Tensor2) : M Locals :=
  let* qk := init_meta args inp target_features0 in
  let* o := read_model (model inp) in
  ret (mkLocals target_features0 qk.1 qk.2 None
         (make_optimizer (params o) (lr args) (total_iters args))
         0 0 (model inp) 0 0 0).

(** Lines 185-197, what follows the [while] loop. *)
Definition finish (args : Args) (inp : Inputs) (L : Locals) : M unit :=
  to_cuda (best_model L) ;;
  let* r := call_eval args inp Test (best_model L) (test_loader inp) L in
  emit (EvPrintAccuracy Test r.1.1.1.1) ;;
  save_checkpoint args (best_model L).

(** Lines 102-183: up to the end of the [while] loop. *)
Definition train_loop (args : Args) (inp : Inputs)
    (target_features0 : Tensor2) : M Locals :=
  let* L := init_locals args inp target_features0 in
  train_while (total_iters args) args inp L.

Definition train_model (args : Args) (inp : Inputs)
    (target_features0 : Tensor2) : M unit :=
  let* L := train_loop args inp target_features0 in
  finish args inp L.

End Training.

(** ** Observations on traces *)

Section Observations.
Context {B : Backend}.

Definition is_optimizer_step (e : Event) : bool :=
  match e with EvOptimizerStep _ => true | _ => false end.

Definition is_log (e : Event) : bool :=
  match e with EvLog _ _ _ => true | _ => false end.

Definition is_validation_call (e : Event) : bool :=
  match e with EvEvalCall Validation _ _ _ _ _ _ => true | _ => false end.

Definition is_test_call (e : Event) : bool :=
  match e with EvEvalCall Test _ _ _ _ _ _ => true | _ => false end.

Definition is_recompute (e : Event) : bool :=
  match e with EvRecomputeTargets _ => true | _ => false end.

Definition is_deep_copy (e : Event) : bool :=
  match e with EvDeepCopy _ _ => true | _ => false end.

(** Events that only happen once an evaluation call has been entered:
    the call itself, the accuracy it reports, the selection of a best
    checkpoint and its persistence. *)
Definition after_evaluation (e : Event) : bool :=
  match e with
  | EvEvalCall _ _ _ _ _ _ _ | EvPrintAccuracy _ _
  | EvDeepCopy _ _ | EvSave _ _ => true
  | _ => false
  end.

(** What [eval_model] itself emits. *)
Definition eval_event (e : Event) : bool :=
  match e with
  | EvSetMode _ false | EvSupportFeatures _ | EvEncodeImage _ _
  | EvMetaAdapter _ => true
  | _ => false
  end.

(** What taking a snapshot emits. *)
Definition snapshot_event (e : Event) : bool :=
  match e with EvDeepCopy _ _ | EvMoveTo _ Cpu => true | _ => false end.

(** The events of an epoch up to the report of its validation accuracy. *)
Definition epoch_events (inp : Inputs) (steps logs : list Event)
    (tf q : Tensor2) (k : Tensor3) (evs_eval : list Event) (acc_val : Q)
  : list Event :=
  EvSetMode (model inp) true :: steps ++ logs
    ++ EvSetMode (model inp) false
    :: EvEvalCall Validation (model inp) (val_loader inp)
         (PyLoader (val_loader inp)) (PyTensor2 tf)
         (PyTensor2 q) (PyTensor3 k)
    :: evs_eval ++ [EvPrintAccuracy Validation acc_val].

(** How an epoch ends: the best checkpoint is kept, or replaced by a copy
    of the live model taken in world [w1]. *)
Definition selection (inp : Inputs) (acc_val : Q) (L L' : Locals)
    (w1 w' : World) : Prop :=
  (Qltb (best_acc L) acc_val = false
   /\ w' = w1 /\ best_acc L' = best_acc L /\ best_model L' = best_model L)
  \/ (Qltb (best_acc L) acc_val = true
      /\ best_acc L' = acc_val /\ best_model L' = next_loc w1
      /\ snapshot inp (best_model L) w1 = (w', Ok (next_loc w1))).

(** The events of the final evaluation. *)
Definition finish_events (args : Args) (inp : Inputs) (L : Locals)
    (q : Tensor2) (k : Tensor3) (evs_eval : list Event) (acc_test : Q)
  : list Event :=
  EvMoveTo (best_model L) Cuda
  :: EvEvalCall Test (best_model L) (test_loader inp)
       (PyLoader (val_loader inp)) (PyTensor2 (target_features L))
       (PyTensor2 q) (PyTensor3 k)
  :: evs_eval
  ++ EvPrintAccuracy Test acc_test
  :: match save_path args with
     | Some dir => [EvSave (best_model L)
                      (path_join dir (filename args ++ ".pth"))]
     | None => []
     end.

(** What the forward pass of a training step emits. *)
Definition forward_event (e : Event) : bool :=
  match e with
  | EvRecomputeTargets _ | EvEncodeImage _ _ | EvMetaAdapter _ => true
  | _ => false
  end.

(** What one training step emits. *)
Definition step_event (e : Event) : bool :=
  forward_event e || is_optimizer_step e.

Definition count (P : Event -> bool) (tr : list Event) : nat :=
  length (filter (fun e => P e = true) tr).

(** The weighted accumulation of [eval_model] on given per-batch
    accuracies and batch sizes. *)
Definition weighted_accuracy (batches : list (Q * nat)) : M Q :=
  let st := foldl (fun st an => accumulate an.1 an.2 st)
              (mkEvalState 0 0 [] [] [] []) batches in
  divide (acc st) (eval_tot_samples st).

(** Every batch pairs each image with one label. *)
Definition paired (loader : Loader) : Prop :=
  Forall (fun b => length (images b) = length (target b)) loader.

(** The effect of a computation on the world: only the object at [m] is
    written, no object is allocated or freed, and [evs] are the events
    added. *)
Definition changes (m : loc) (evs : list Event) (w w' : World) : Prop :=
  next_loc w' = next_loc w
  /\ dom (heap w') = dom (heap w)
  /\ (forall l, l <> m -> heap w' !! l = heap w !! l)
  /\ trace w' = trace w ++ evs.

(** The same, when all that matters of the events is that they satisfy
    [P]. *)
Definition within (P : Event -> bool) (m : loc) (w w' : World) : Prop :=
  exists evs, changes m evs w w' /\ Forall (fun e => P e = true) evs.

(** The accumulated accuracy of [eval_model] is, up to [k] roundings,
    the number of correct predictions collected so far, and one label is
    collected per counted sample. *)
Definition eval_inv (k : nat) (st : EvalState) : Prop :=
  near k (Qnat (correct_count (all_predictions st) (all_targets st)))
    (acc st)
  /\ eval_tot_samples st = length (all_targets st)
  /\ length (all_predictions st) = length (all_targets st).

(** Exceptions of the program, as opposed to an exhausted loop budget. *)
Definition genuine (e : Err) : Prop :=
  match e with OutOfFuel => False | _ => True end.

Definition genuine_result {A} (r : Result A) : Prop :=
  match r with Ok _ => True | Raise e => genuine e end.

(** The heap of a run holds the live model and the object [best_model]
    names, and nothing else. *)
Definition heap_ok (inp : Inputs) (L : Locals) (w : World) : Prop :=
  dom (heap w) = {[ model inp; best_model L ]}
  /\ forall l, l ∈ dom (heap w) -> l < next_loc w.

(** The embeddings of every batch are as wide as the rows of the
    reference set [R]. *)
Definition widths_agree (R : Tensor2) : Prop :=
  forall p imgs, conformable (encode_image p imgs) R = true.

(** The labels [tg] fit the scores of the embeddings [f] against the
    reference set [R]: the product is defined, there is one label for
    each embedding and every label is the index of a row of [R]. *)
Definition fits (f R : Tensor2) (tg : list nat) : bool :=
  conformable f R && (length f =? length tg)
  && forallb (fun t => t <? length R) tg.

(** Every batch of [bs] fits the label features a run without the
    meta-adapter scores it against, whatever the parameters of the model:
    the features recomputed in the step when lines 129-131 ask for it,
    [tf] otherwise. *)
Definition plain_trainable (args : Args) (inp : Inputs) (tf : Tensor2)
    (bs : Loader) : Prop :=
  Forall (fun b =>
            forall p,
              fits (encode_image p (images b))
                (if recompute_needed args (task_type inp)
                 then recomputed_features inp p else tf)
                (target b) = true) bs.

(** The reference set can be computed, has a row and is as wide as the
    embeddings. *)
Definition scorable (args : Args) (tf mq mk : PyVal) : Prop :=
  if enable_MetaAdapter args
  then exists q k, mq = PyTensor2 q /\ mk = PyTensor3 k /\ q <> []
                   /\ forall p, widths_agree (meta_adapter p q k k)
  else exists R, tf = PyTensor2 R /\ R <> [] /\ widths_agree R.

(** The meta-adapter's query and key memory are in place, with [K]
    classes and [M] entries per class, and the adapted prototypes are as
    wide as the embeddings. *)
Definition ready (K M : nat) (L : Locals) : Prop :=
  exists q k, meta_query L = Some q /\ length q = K /\ 0 < K
              /\ meta_key L = Some k /\ Memory.well_shaped K M k
              /\ forall p k', widths_agree (meta_adapter p q k' k').

(** The world differs from [w] in the state of the live model and in
    its trace only. *)
Definition same_objects (w w' : World) : Prop :=
  dom (heap w') = dom (heap w) /\ next_loc w' = next_loc w.

(** Whatever its outcome, [c] adds only events that satisfy [P] to the
    trace. *)
Definition emits {A} (P : Event -> Prop) (c : M A) : Prop :=
  forall w w' r,
    c w = (w', r) -> exists evs, trace w' = trace w ++ evs /\ Forall P evs.

End Observations.

(** ** A small concrete backend for worked runs *)

Module Demo.

Definition eye2 : Tensor2 := [[1; 0]; [0; 1]]%Q.

(** Image [i] has class [i mod 2]; the encoder is right when the
    parameter counter is even and swaps the classes when it is odd. *)
Definition embed (p i : nat) : Emb :=
  if Nat.even (i + p) then [1; 0]%Q else [0; 1]%Q.

#[export] Instance backend : Backend := {|
  Image := nat;
  Params := nat;
  OptState := nat;
  encode_image := fun p imgs => map (embed p) imgs;
  meta_adapter := fun _ q _ _ => q;
  get_text_target_features := fun _ => eye2;
  get_vision_target_features :=
    fun _ l => flat_map (fun b => map (embed 0) (images b)) l;
  cross_entropy := fun _ _ => 0%Q;
  make_optimizer := fun _ _ _ => 0;
  optimizer_step := fun o p _ _ => (S o, S p);
  get_last_lr := fun o => Qnat o;
|}.

Definition batch_of (imgs : list nat) : Batch nat :=
  mkBatch imgs (map (fun i => i mod 2) imgs) [].

(** One live model at reference 0. *)
Definition world0 : World :=
  mkWorld {[ 0 := mkModel 0 Cuda true ]} 1 [].

Definition args_of (meta : bool) (enc : string) (n s : nat) : Args :=
  mkArgs false false meta enc n s (1 # 1000) None "best".

(** A train loader of three batches of size three. *)
Definition inputs3 : Inputs :=
  mkInputs 0 1%Q
    [batch_of [0; 1; 2]; batch_of [3; 4; 5]; batch_of [6; 7; 8]]
    [batch_of [0; 1; 2; 3]] [batch_of [0; 1]] [] "image2text".

(** A train loader of a single batch. *)
Definition inputs1 : Inputs :=
  mkInputs 0 1%Q [batch_of [0; 1]]
    [batch_of [0; 1; 2; 3]] [batch_of [0; 1]] [] "image2text".

(** The locals at the head of the [while] loop when the meta-adapter is
    enabled: the key memory is the reshaped support set of the validation
    loader. *)
Definition key0 : Tensor3 :=
  [[[1; 0]; [0; 1]]; [[1; 0]; [0; 1]]]%Q.

Definition locals0 : Locals :=
  mkLocals eye2 (Some eye2) (Some key0) None 0 0 0%Q 0 0%Q 0 0%Q.

(** A key memory of five classes with four entries each. *)
Definition memory54 : Tensor3 :=
  map (fun c => map (fun j => [Qnat c; Qnat j]) (seq 0 4)) (seq 0 5).

(** Options with BitFit on, and with LoRA on the text encoder alone. *)
Definition args_bitfit : Args :=
  mkArgs false true true "vision" 2 4 (1 # 1000) None "best".

Definition args_lora_text : Args :=
  mkArgs true false true "text" 2 4 (1 # 1000) None "best".

(** Label features that differ from the ones the backend derives. *)
Definition scaled2 : Tensor2 := [[2; 0]; [0; 2]]%Q.

Definition locals_scaled : Locals :=
  mkLocals scaled2 (Some eye2) (Some key0) None 0 0 0%Q 0 0%Q 0 0%Q.

(** A loader of two batches, of 1 and of 22 images; the labels of the
    first image and of the last seven are those of the other class. *)
Definition loader_1_22 : list (Batch nat) :=
  [mkBatch [0] [1] [];
   mkBatch (seq 0 22)
     (map (fun i => if i <? 15 then i mod 2 else S i mod 2) (seq 0 22)) []].

End Demo.

(** * Properties *)

#[local] Set Warnings "-clear-no-such-hyp".

(** ** Rationals *)

Lemma Qltb_lt x y : Qltb x y = true <-> (x < y)%Q.
Proof.
  unfold Qltb. rewrite negb_true_iff, <- not_true_iff_false, Qle_bool_iff.
  split; [apply Qnot_le_lt | apply Qlt_not_le].
Qed.

Lemma Qltb_ge x y : Qltb x y = false <-> (y <= x)%Q.
Proof.
  unfold Qltb. rewrite negb_false_iff. apply Qle_bool_iff.
Qed.

Lemma Qnat_plus a b : (Qnat (a + b) == Qnat a + Qnat b)%Q.
Proof. unfold Qnat. rewrite Nat2Z.inj_add, inject_Z_plus. reflexivity. Qed.

Lemma Qnat_nonzero n : n <> 0 -> ~ (Qnat n == 0)%Q.
Proof.
  intros Hn H. unfold Qnat, Qeq in H. simpl in H. lia.
Qed.

Lemma Qnat_nonneg n : (0 <= Qnat n)%Q.
Proof.
  unfold Qnat. change 0%Q with (inject_Z 0). rewrite <- Zle_Qle. lia.
Qed.

Lemma Qnat_pos n : n <> 0 -> (0 < Qnat n)%Q.
Proof.
  intros Hn. unfold Qnat. change 0%Q with (inject_Z 0). rewrite <- Zlt_Qlt.
  lia.
Qed.

(** ** Rounding *)

Lemma nearest_even_close y :
  (inject_Z (nearest_even y) - y <= 1 # 2)%Q
  /\ (y - inject_Z (nearest_even y) <= 1 # 2)%Q.
Proof.
  unfold nearest_even.
  pose proof (Qfloor_le y) as Hlo. pose proof (Qlt_floor y) as Hhi.
  set (f := Qfloor y) in *.
  rewrite inject_Z_plus in Hhi. change (inject_Z 1) with 1%Q in Hhi.
  destruct (Qcompare (y - inject_Z f) (1 # 2)) eqn:Hc.
  - apply Qeq_alt in Hc.
    destruct (Z.even f); rewrite ?inject_Z_plus; change (inject_Z 1) with 1%Q;
      split; lra.
  - apply Qlt_alt in Hc. split; lra.
  - apply Qgt_alt in Hc. rewrite inject_Z_plus. change (inject_Z 1) with 1%Q.
    split; lra.
Qed.

Lemma two_nonzero : ~ (2 == 0)%Q.
Proof. intros H. discriminate H. Qed.

Lemma Z_log2_bounds n :
  (0 < n)%Z ->
  (2 ^ Z.log2 n <= inject_Z n)%Q /\ (inject_Z n < 2 ^ (Z.log2 n + 1))%Q.
Proof.
  intros Hn. destruct (Z.log2_spec n Hn) as [Hlo Hhi].
  pose proof (Z.log2_nonneg n) as H0.
  change 2%Q with (inject_Z 2).
  rewrite <- !Zpower_Qpower by lia. split.
  - rewrite <- Zle_Qle. done.
  - rewrite <- Zlt_Qlt. replace (Z.log2 n + 1)%Z with (Z.succ (Z.log2 n)) by lia.
    done.
Qed.

Lemma round_pos_scaled x :
  (0 < x)%Q ->
  exists e : Z,
    round_pos 53 x = (inject_Z (nearest_even (x / 2 ^ e)) * 2 ^ e)%Q
    /\ (2 ^ 52 <= x / 2 ^ e)%Q.
Proof.
  intros Hx. unfold round_pos.
  set (ln := Z.log2 (Qnum x)). set (ld := Z.log2 (Z.pos (Qden x))).
  set (e0 := (ln - ld - 53)%Z).
  assert (Hn : (0 < Qnum x)%Z).
  { destruct x as [n d]. unfold Qlt in Hx. cbn in *. lia. }
  destruct (Z_log2_bounds (Qnum x) Hn) as [Hnlo _].
  destruct (Z_log2_bounds (Z.pos (Qden x)) ltac:(lia)) as [_ Hdhi].
  fold ln in Hnlo. fold ld in Hdhi.
  assert (Hxe : (x == inject_Z (Qnum x) / inject_Z (Z.pos (Qden x)))%Q).
  { destruct x as [n d]. cbn. apply Qmake_Qdiv. }
  assert (Hdpos : (0 < inject_Z (Z.pos (Qden x)))%Q).
  { change 0%Q with (inject_Z 0). rewrite <- Zlt_Qlt. lia. }
  assert (Hp : forall z : Z, (0 < 2 ^ z)%Q).
  { intros z. apply Qpower_0_lt. reflexivity. }
  (* 2^(ln - ld - 1) < x *)
  assert (Hlow : (2 ^ (e0 + 52) < x)%Q).
  { rewrite Hxe. apply Qlt_shift_div_l; [done |].
    eapply Qlt_le_trans; [| exact Hnlo].
    assert (Hsplit : (2 ^ ln == 2 ^ (e0 + 52) * 2 ^ (ld + 1))%Q).
    { rewrite <- Qpower_plus by apply two_nonzero.
      replace (e0 + 52 + (ld + 1))%Z with ln by (unfold e0; lia). reflexivity. }
    rewrite Hsplit. apply Qmult_lt_l; [apply Hp | done]. }
  assert (Hy0 : (2 ^ 52 < x / 2 ^ e0)%Q).
  { apply Qlt_shift_div_l; [apply Hp |].
    rewrite <- Qpower_plus by apply two_nonzero.
    replace (52 + e0)%Z with (e0 + 52)%Z by lia. done. }
  destruct (Qltb (x / 2 ^ e0) (2 ^ 53)) eqn:Hc.
  - exists e0. split; [done |]. by apply Qlt_le_weak.
  - exists (e0 + 1)%Z. split; [done |]. apply Qltb_ge in Hc.
    assert (Heq : (x / 2 ^ (e0 + 1) == (x / 2 ^ e0) / 2)%Q).
    { rewrite Qpower_plus by apply two_nonzero. rewrite Qpower_1_r.
      field. apply Qpower_not_0, two_nonzero. }
    rewrite Heq. set (y0 := (x / 2 ^ e0)%Q) in *.
    apply Qle_shift_div_l; [reflexivity |].
    eapply Qle_trans; [| exact Hc]. by vm_compute.
Qed.

Lemma round_pos_bound x :
  (0 < x)%Q ->
  (x * (1 - ulp) <= round_pos 53 x)%Q /\ (round_pos 53 x <= x * (1 + ulp))%Q.
Proof.
  intros Hx. destruct (round_pos_scaled x Hx) as (e & -> & Hy).
  set (y := (x / 2 ^ e)%Q) in *.
  assert (Hp : (0 < 2 ^ e)%Q) by (apply Qpower_0_lt; reflexivity).
  assert (Hxy : (x == y * 2 ^ e)%Q).
  { unfold y. field. apply Qpower_not_0, two_nonzero. }
  destruct (nearest_even_close y) as [Hup Hdn].
  set (m := inject_Z (nearest_even y)) in *.
  assert (Hhalf : (1 # 2 <= y * ulp)%Q).
  { apply Qle_trans with (2 ^ 52 * ulp)%Q; [by vm_compute |].
    apply Qmult_le_compat_r; [done | by vm_compute]. }
  rewrite Hxy. split.
  - assert (E : (y * 2 ^ e * (1 - ulp) == (y - y * ulp) * 2 ^ e)%Q) by ring.
    rewrite E.
    apply Qmult_le_compat_r; [lra | by apply Qlt_le_weak].
  - assert (E : (y * 2 ^ e * (1 + ulp) == (y + y * ulp) * 2 ^ e)%Q) by ring.
    rewrite E.
    apply Qmult_le_compat_r; [lra | by apply Qlt_le_weak].
Qed.

Lemma round64_zero x : (x == 0)%Q -> round64 x = 0%Q.
Proof.
  intros H. unfold round64. destruct x as [[| n | n] d]; [done | |];
    unfold Qeq in H; cbn in H; lia.
Qed.

(** One rounding moves a value that is not negative by at most the
    relative error [ulp]. *)
Lemma round64_bound x :
  (0 <= x)%Q ->
  (x * (1 - ulp) <= round64 x)%Q /\ (round64 x <= x * (1 + ulp))%Q.
Proof.
  intros Hx. unfold round64. rewrite Qred_correct.
  destruct x as [[| n | n] d] eqn:Hxe; cbn [Qnum].
  - assert (H0 : (0 # d == 0)%Q) by reflexivity. rewrite H0. split; lra.
  - apply round_pos_bound. reflexivity.
  - exfalso. unfold Qle in Hx. cbn in Hx. lia.
Qed.

Lemma shrink_pos k : (0 < (1 - ulp) ^ Z.of_nat k)%Q.
Proof. apply Qpower_0_lt. reflexivity. Qed.

Lemma shrink_S k :
  ((1 - ulp) ^ Z.of_nat (S k) == (1 - ulp) * (1 - ulp) ^ Z.of_nat k)%Q.
Proof.
  rewrite Nat2Z.inj_succ. unfold Z.succ.
  rewrite Qpower_plus by (intros H; discriminate H).
  rewrite Qpower_1_r. ring.
Qed.

Lemma shrink_add j k :
  ((1 - ulp) ^ Z.of_nat (j + k)
   == (1 - ulp) ^ Z.of_nat j * (1 - ulp) ^ Z.of_nat k)%Q.
Proof.
  rewrite Nat2Z.inj_add. apply Qpower_plus. intros H. discriminate H.
Qed.

Lemma shrink_le_1 k : ((1 - ulp) ^ Z.of_nat k <= 1)%Q.
Proof.
  induction k as [| k IH]; [by vm_compute |].
  rewrite shrink_S. pose proof (shrink_pos k) as Hp.
  assert (Hu : (0 < ulp)%Q) by reflexivity.
  assert (Hu1 : (ulp < 1)%Q) by reflexivity.
  set (s := ((1 - ulp) ^ Z.of_nat k)%Q) in *.
  apply Qle_trans with (1 * s)%Q; [| lra].
  apply Qmult_le_compat_r; lra.
Qed.

Lemma shrink_mono j k :
  j <= k -> ((1 - ulp) ^ Z.of_nat k <= (1 - ulp) ^ Z.of_nat j)%Q.
Proof.
  intros Hjk. replace k with (j + (k - j)) by lia. rewrite shrink_add.
  pose proof (shrink_pos j). pose proof (shrink_le_1 (k - j)).
  pose proof (shrink_pos (k - j)).
  set (a := ((1 - ulp) ^ Z.of_nat j)%Q) in *.
  set (b := ((1 - ulp) ^ Z.of_nat (k - j))%Q) in *.
  apply Qle_trans with (a * 1)%Q; [| lra].
  apply Qmult_le_l; [done | done].
Qed.

Lemma near_zero k : near k 0 0.
Proof. unfold near. repeat split; lra. Qed.

Lemma near_exact k x : (0 <= x)%Q -> near k x x.
Proof.
  intros Hx. pose proof (shrink_le_1 k). pose proof (shrink_pos k).
  unfold near. set (s := ((1 - ulp) ^ Z.of_nat k)%Q) in *.
  repeat split; nra.
Qed.

Lemma near_mono j k x y : near j x y -> j <= k -> near k x y.
Proof.
  intros (Hx & Hy & Hlo & Hhi) Hjk. pose proof (shrink_mono j k Hjk).
  pose proof (shrink_pos k). pose proof (shrink_pos j).
  unfold near. set (s := ((1 - ulp) ^ Z.of_nat k)%Q) in *.
  set (t := ((1 - ulp) ^ Z.of_nat j)%Q) in *.
  repeat split; nra.
Qed.

Lemma near_round k x y : near k x y -> near (S k) x (round64 y).
Proof.
  intros (Hx & Hy & Hlo & Hhi). destruct (round64_bound y Hy) as [Hr1 Hr2].
  pose proof (shrink_pos k). unfold near. rewrite shrink_S.
  set (s := ((1 - ulp) ^ Z.of_nat k)%Q) in *.
  assert (Hu : (0 < ulp)%Q) by reflexivity.
  assert (Hu1 : (ulp < 1)%Q) by reflexivity.
  set (u := ulp) in *. set (r := round64 y) in *.
  assert (H0 : (0 <= y * (1 - u))%Q) by nra.
  assert (H1 : (x * s * (1 - u) <= y * (1 - u))%Q) by nra.
  assert (H2 : (r * (1 - u) <= y * (1 + u) * (1 - u))%Q) by nra.
  assert (H3 : (y * (1 + u) * (1 - u) <= y)%Q) by nra.
  assert (H4 : (r * (1 - u) * s <= y * s)%Q) by nra.
  repeat split; nra.
Qed.

Lemma near_add k x y x' y' :
  near k x y -> near k x' y' -> near k (x + x') (y + y').
Proof.
  intros (Hx & Hy & Hlo & Hhi) (Hx' & Hy' & Hlo' & Hhi').
  unfold near. set (s := ((1 - ulp) ^ Z.of_nat k)%Q) in *.
  repeat split; nra.
Qed.

Lemma near_mul j k x y x' y' :
  near j x y -> near k x' y' -> near (j + k) (x * x') (y * y').
Proof.
  intros (Hx & Hy & Hlo & Hhi) (Hx' & Hy' & Hlo' & Hhi').
  unfold near. rewrite shrink_add.
  pose proof (shrink_pos j). pose proof (shrink_pos k).
  set (s := ((1 - ulp) ^ Z.of_nat j)%Q) in *.
  set (t := ((1 - ulp) ^ Z.of_nat k)%Q) in *.
  assert (H1 : (0 <= x * s)%Q) by nra. assert (H2 : (0 <= x' * t)%Q) by nra.
  assert (H3 : (0 <= y * s)%Q) by nra. assert (H4 : (0 <= y' * t)%Q) by nra.
  repeat split; [nra | nra | |].
  - assert ((x * s) * (x' * t) <= y * y')%Q by nra. nra.
  - assert ((y * s) * (y' * t) <= x * x')%Q by nra. nra.
Qed.

Lemma near_inv k x y :
  near k x y -> (0 < x)%Q -> (0 < y)%Q -> near k (/ x) (/ y).
Proof.
  intros (Hx & Hy & Hlo & Hhi) Hxp Hyp. unfold near.
  pose proof (shrink_pos k).
  set (s := ((1 - ulp) ^ Z.of_nat k)%Q) in *.
  assert (Hix : (0 < / x)%Q) by (by apply Qinv_lt_0_compat).
  assert (Hiy : (0 < / y)%Q) by (by apply Qinv_lt_0_compat).
  assert (Ex : (x * / x == 1)%Q) by (apply Qmult_inv_r; lra).
  assert (Ey : (y * / y == 1)%Q) by (apply Qmult_inv_r; lra).
  set (a := (/ x)%Q) in *. set (b := (/ y)%Q) in *.
  split; [lra |]. split; [lra |]. split.
  - (* a * s <= b : multiply y * s <= x by a * b *)
    assert ((y * s) * (a * b) <= x * (a * b))%Q
      by (apply Qmult_le_compat_r; nra).
    nra.
  - assert ((x * s) * (a * b) <= y * (a * b))%Q
      by (apply Qmult_le_compat_r; nra).
    nra.
Qed.

Lemma near_div j k x y x' y' :
  near j x y -> near k x' y' -> (0 < x')%Q -> (0 < y')%Q ->
  near (j + k) (x / x') (y / y').
Proof.
  intros H H' Hx' Hy'. unfold Qdiv. apply near_mul; [done |].
  by apply near_inv.
Qed.

Lemma near_eq k x x' y : near k x y -> (x == x')%Q -> near k x' y.
Proof. intros (Hx & Hy & Hlo & Hhi) E. unfold near. rewrite <- E. done. Qed.

Lemma near_sym k x y : near k x y -> near k y x.
Proof. intros (Hx & Hy & Hlo & Hhi). done. Qed.

(** Two values near the same one are near each other. *)
Lemma near_join j k x y z : near j x y -> near k x z -> near (j + k) y z.
Proof.
  intros (Hx & Hy & Hlo & Hhi) (_ & Hz & Hlo' & Hhi').
  unfold near. rewrite shrink_add.
  pose proof (shrink_pos j). pose proof (shrink_pos k).
  pose proof (shrink_le_1 j). pose proof (shrink_le_1 k).
  set (s := ((1 - ulp) ^ Z.of_nat j)%Q) in *.
  set (t := ((1 - ulp) ^ Z.of_nat k)%Q) in *.
  assert (Ha : (y * s * t <= x * t)%Q) by nra.
  assert (Hb : (z * t * s <= x * s)%Q) by nra.
  repeat split; nra.
Qed.

(** ** The meta key memory *)

Section MemoryFacts.
Import Memory.

Lemma slice_to_take {A} M (row : list A) :
  length row = M -> slice_to (Z.of_nat M - 1) row = take (M - 1) row.
Proof.
  intros Hlen. unfold slice_to.
  destruct (Z.ltb_spec (Z.of_nat M - 1) 0) as [Hneg | Hpos].
  - assert (HM : M = 0) by lia. rewrite Hlen, HM. reflexivity.
  - f_equal. lia.
Qed.

Lemma assign_shifted_row M feat (row : list Emb) :
  length row = M ->
  exists r, assign_row row (shifted_row M feat row) = Some r
            /\ length r = M
            /\ (1 <= M -> r = feat :: take (M - 1) row).
Proof.
  intros Hlen. unfold shifted_row. rewrite (slice_to_take M row Hlen).
  unfold assign_row. cbn [length].
  rewrite length_take, Hlen.
  destruct M as [| M'].
  - destruct row; [| discriminate]. cbn. eexists. split; [reflexivity |].
    split; [reflexivity | lia].
  - replace (S ((S M' - 1) `min` S M')) with (S M') by lia.
    rewrite Nat.eqb_refl. eexists. split; [reflexivity |].
    split; [| reflexivity]. cbn [length]. rewrite length_take. lia.
Qed.

Lemma shape1_well_shaped K M mk tar :
  well_shaped K M mk -> tar < K -> shape1 mk = M.
Proof.
  intros [HK HM] Htar. destruct mk as [| row rest]; cbn in *; [lia |].
  by inversion HM.
Qed.

Lemma update_row_shift K M mk tar feat :
  well_shaped K M mk -> tar < K ->
  exists row r,
    mk !! tar = Some row
    /\ update_row mk tar feat = Ok (<[tar := r]> mk)
    /\ length r = M
    /\ (1 <= M -> r = feat :: take (M - 1) row).
Proof.
  intros Hws Htar.
  assert (Hs : shape1 mk = M) by (eapply shape1_well_shaped; eauto).
  destruct Hws as [HK HM].
  destruct (lookup_lt_is_Some_2 mk tar) as [row Hrow]; [lia |].
  assert (Hlen : length row = M).
  { rewrite Forall_lookup in HM. exact (HM _ _ Hrow). }
  destruct (assign_shifted_row M feat row Hlen) as (r & Hr & Hrl & Hrc).
  exists row, r. unfold update_row. rewrite Hrow, Hs, Hr. done.
Qed.

Lemma well_shaped_insert K M mk tar r :
  well_shaped K M mk -> length r = M -> well_shaped K M (<[tar := r]> mk).
Proof.
  intros [HK HM] Hr. split; [by rewrite length_insert |].
  apply Forall_insert; done.
Qed.

Lemma update_preserves K M pairs :
  forall mk,
    well_shaped K M mk ->
    Forall (fun tf => tf.1 < K) pairs ->
    exists mk',
      update mk pairs = Ok mk'
      /\ well_shaped K M mk'
      /\ forall c, c ∉ pairs.*1 -> mk' !! c = mk !! c.
Proof.
  induction pairs as [| [tar feat] rest IH]; intros mk Hws Hin.
  - exists mk. done.
  - inversion Hin as [| ? ? Htar Hrest]; subst. cbn in Htar.
    destruct (update_row_shift K M mk tar feat Hws Htar)
      as (row & r & Hrow & Hup & Hrl & _).
    destruct (IH (<[tar := r]> mk)) as (mk' & Hmk' & Hws' & Hother);
      [by apply well_shaped_insert | done |].
    exists mk'. cbn [update]. rewrite Hup. split; [done |].
    split; [done |]. intros c Hc. cbn in Hc.
    rewrite not_elem_of_cons in Hc. destruct Hc as [Hne Hc].
    rewrite (Hother c Hc). by apply list_lookup_insert_ne.
Qed.






End MemoryFacts.

(** ** The similarity scorer *)

Lemma argmax_from_first_max row :
  forall pre best bi,
    pre !! bi = Some best ->
    (forall j y, pre !! j = Some y -> (y <= best)%Q) ->
    (forall j y, j < bi -> pre !! j = Some y -> (y < best)%Q) ->
    first_max (pre ++ row) (argmax_from best bi (length pre) row).
Proof.
  induction row as [| x rest IH]; intros pre best bi Hbest Hle Hlt.
  - cbn. rewrite app_nil_r. exists best. done.
  - cbn [argmax_from].
    replace (pre ++ x :: rest) with ((pre ++ [x]) ++ rest)
      by (by rewrite <- app_assoc).
    replace (S (length pre)) with (length (pre ++ [x]))
      by (rewrite length_app; cbn; lia).
    destruct (Qltb best x) eqn:Hcmp.
    + apply Qltb_lt in Hcmp. apply IH.
      * by rewrite lookup_app_r, Nat.sub_diag.
      * intros j y Hj. apply lookup_app_Some in Hj as [Hj | [_ Hj]].
        -- apply Qlt_le_weak. eapply Qle_lt_trans; [eapply Hle |]; eauto.
        -- apply list_lookup_singleton_Some in Hj as [_ <-]. apply Qle_refl.
      * intros j y Hjlt Hj. rewrite lookup_app_l in Hj by done.
        eapply Qle_lt_trans; [eapply Hle |]; eauto.
    + apply Qltb_ge in Hcmp. apply IH.
      * rewrite lookup_app_l; [done |]. by eapply lookup_lt_Some.
      * intros j y Hj. apply lookup_app_Some in Hj as [Hj | [_ Hj]].
        -- eauto.
        -- apply list_lookup_singleton_Some in Hj as [_ <-]. done.
      * intros j y Hjlt Hj. apply lookup_app_Some in Hj as [Hj | [Hge _]].
        -- eauto.
        -- apply lookup_lt_Some in Hbest. lia.
Qed.

Lemma argmax_first_max row c : argmax row = Some c -> first_max row c.
Proof.
  destruct row as [| x rest]; [discriminate |]. cbn. intros [= <-].
  apply (argmax_from_first_max rest [x] x 0).
  - done.
  - intros [| j] y; cbn; [intros [= <-]; apply Qle_refl | done].
  - lia.
Qed.

Lemma first_max_unique row c c' : first_max row c -> first_max row c' -> c = c'.
Proof.
  intros (x & Hx & Hle & Hlt) (x' & Hx' & Hle' & Hlt').
  destruct (Nat.lt_trichotomy c c') as [H | [H | H]]; [| done |].
  - pose proof (Hlt' _ _ H Hx). pose proof (Hle _ _ Hx').
    exfalso. eapply Qlt_not_le; eauto.
  - pose proof (Hlt _ _ H Hx'). pose proof (Hle' _ _ Hx).
    exfalso. eapply Qlt_not_le; eauto.
Qed.

Lemma argmax_is_Some row : row <> [] -> is_Some (argmax row).
Proof. destruct row; [done | by eexists]. Qed.

Lemma permute_lookup {A} (p : list nat) (l : list A) j c :
  Forall (fun i => i < length l) p ->
  p !! j = Some c -> permute p l !! j = l !! c.
Proof.
  unfold permute. revert j. induction p as [| i p IH]; intros j Hp Hj.
  - done.
  - inversion Hp as [| ? ? Hi Hp']; subst.
    destruct (lookup_lt_is_Some_2 l i Hi) as [x Hx].
    cbn. rewrite Hx. cbn. destruct j as [| j]; cbn in *.
    + by inversion Hj; subst.
    + by apply IH.
Qed.

Lemma permute_length {A} (p : list nat) (l : list A) :
  Forall (fun i => i < length l) p -> length (permute p l) = length p.
Proof.
  unfold permute. induction 1 as [| i p Hi Hp IH]; [done |].
  destruct (lookup_lt_is_Some_2 l i Hi) as [x Hx].
  cbn. rewrite Hx. cbn. by rewrite IH.
Qed.

Lemma permute_map {A C} (f : A -> C) (p : list nat) (l : list A) :
  permute p (map f l) = map f (permute p l).
Proof.
  unfold permute. induction p as [| i p IH]; [done |].
  cbn. rewrite list_lookup_fmap. destruct (l !! i); cbn; by rewrite IH.
Qed.

Lemma cosine_similarity_permute ls Qs R p :
  cosine_similarity ls Qs (permute p R)
  = map (permute p) (cosine_similarity ls Qs R).
Proof.
  unfold cosine_similarity, matmul_t. rewrite map_map.
  apply map_ext. intros a. by rewrite permute_map.
Qed.

Lemma dot_scale s u v : (dot (map (Qmult s) u) v == s * dot u v)%Q.
Proof.
  unfold dot. revert v. induction u as [| a u IH]; intros [| b v]; cbn;
    try ring.
  rewrite IH. ring.
Qed.

Lemma cosine_similarity_entry ls (Qs R : Tensor2) i j q r :
  Qs !! i = Some q -> R !! j = Some r ->
  exists row x, cosine_similarity ls Qs R !! i = Some row
                /\ row !! j = Some x
                /\ (x == ls * dot q r)%Q.
Proof.
  intros Hq Hr. unfold cosine_similarity, matmul_t, scale.
  exists (map (dot (map (Qmult ls) q)) R), (dot (map (Qmult ls) q) r).
  split; [| split].
  - rewrite !list_lookup_fmap, Hq. done.
  - rewrite list_lookup_fmap, Hr. done.
  - apply dot_scale.
Qed.

Lemma argmax_permute (p : list nat) (row : list Q) c x :
  p ≡ₚ seq 0 (length row) ->
  row !! c = Some x ->
  (forall j y, j <> c -> row !! j = Some y -> (y < x)%Q) ->
  exists j, argmax (permute p row) = Some j /\ p !! j = Some c.
Proof.
  intros Hperm Hc Hstrict.
  assert (Hrange : Forall (fun i => i < length row) p).
  { rewrite Forall_forall. intros i Hi. rewrite Hperm in Hi.
    apply elem_of_seq in Hi. lia. }
  assert (Hnodup : NoDup p) by (rewrite Hperm; apply NoDup_seq).
  assert (Hin : c ∈ p).
  { rewrite Hperm. apply elem_of_seq. apply lookup_lt_Some in Hc. lia. }
  apply list_elem_of_lookup in Hin as [j Hj]. exists j. split; [| done].
  assert (Hne : permute p row <> []).
  { intros H. apply (f_equal length) in H. rewrite permute_length in H by done.
    apply lookup_lt_Some in Hj. cbn in H. lia. }
  destruct (argmax_is_Some _ Hne) as [j' Hj']. rewrite Hj'. f_equal.
  apply (first_max_unique (permute p row)); [by apply argmax_first_max |].
  exists x. split; [by rewrite (permute_lookup p row j c) |]. split.
  - intros k y Hk.
    assert (Hkp : is_Some (p !! k)).
    { apply lookup_lt_is_Some. apply lookup_lt_Some in Hk.
      by rewrite permute_length in Hk. }
    destruct Hkp as [ck Hck]. rewrite (permute_lookup p row k ck) in Hk by done.
    destruct (decide (ck = c)) as [-> | Hneq].
    + rewrite Hc in Hk. inversion Hk; subst. apply Qle_refl.
    + apply Qlt_le_weak. eauto.
  - intros k y Hlt Hk.
    assert (Hkp : is_Some (p !! k)).
    { apply lookup_lt_is_Some. apply lookup_lt_Some in Hk.
      by rewrite permute_length in Hk. }
    destruct Hkp as [ck Hck]. rewrite (permute_lookup p row k ck) in Hk by done.
    apply (Hstrict ck); [| done]. intros ->.
    pose proof (NoDup_lookup _ _ _ _ Hnodup Hck Hj). lia.
Qed.

(** ** Reasoning about runner computations *)

Section MonadFacts.
Context {B : Backend}.

Lemma bind_inv {A C} (c : M A) (k : A -> M C) w w' r :
  bind c k w = (w', r) ->
  (exists w1 a, c w = (w1, Ok a) /\ k a w1 = (w', r))
  \/ (exists e, c w = (w', Raise e) /\ r = Raise e).
Proof.
  unfold bind. destruct (c w) as [w1 [a | e]]; intros H.
  - left. eauto.
  - right. exists e. by inversion H.
Qed.

Lemma bind_emit {C} ev (k : unit -> M C) w :
  bind (emit ev) k w = k tt (mkWorld (heap w) (next_loc w) (trace w ++ [ev])).
Proof. reflexivity. Qed.

Lemma bind_ret {A C} (a : A) (k : A -> M C) w : bind (ret a) k w = k a w.
Proof. reflexivity. Qed.

Lemma bind_raise {A C} e (k : A -> M C) w :
  bind (raise e) k w = (w, Raise e).
Proof. reflexivity. Qed.

Lemma bind_ok {A C} (c : M A) (k : A -> M C) w w1 a :
  c w = (w1, Ok a) -> bind c k w = k a w1.
Proof. unfold bind. by intros ->. Qed.

Lemma read_model_inv m w w' r :
  read_model m w = (w', r) ->
  w' = w /\ match r with
            | Ok o => heap w !! m = Some o
            | Raise e => heap w !! m = None /\ e = DanglingReference
            end.
Proof.
  unfold read_model, lift. destruct (heap w !! m); cbn; intros [= <- <-]; done.
Qed.

Lemma lift_inv {A} e (o : option A) w w' r :
  lift e o w = (w', r) ->
  w' = w /\ match r with
            | Ok a => o = Some a
            | Raise e' => o = None /\ e' = e
            end.
Proof. destruct o; cbn; intros [= <- <-]; done. Qed.

Lemma changes_refl m w : changes m [] w w.
Proof. repeat split; try done. by rewrite app_nil_r. Qed.

Lemma changes_trans m evs1 evs2 w1 w2 w3 :
  changes m evs1 w1 w2 -> changes m evs2 w2 w3 ->
  changes m (evs1 ++ evs2) w1 w3.
Proof.
  intros (Hn & Hd & Hh & Ht) (Hn' & Hd' & Hh' & Ht').
  repeat split.
  - congruence.
  - congruence.
  - intros l Hl. rewrite Hh', Hh; done.
  - by rewrite Ht', Ht, app_assoc.
Qed.

Lemma changes_emit m ev w :
  changes m [ev] w (mkWorld (heap w) (next_loc w) (trace w ++ [ev])).
Proof. repeat split; done. Qed.

Lemma changes_write m o o' w :
  heap w !! m = Some o ->
  changes m [] w (mkWorld (<[m := o']> (heap w)) (next_loc w) (trace w)).
Proof.
  intros Hm. repeat split; cbn.
  - rewrite dom_insert_L. apply elem_of_dom_2 in Hm.
    apply subseteq_union_1_L. by apply singleton_subseteq_l.
  - intros l Hl. by rewrite lookup_insert_ne.
  - by rewrite app_nil_r.
Qed.

Lemma changes_unique m evs evs' w w' :
  changes m evs w w' -> changes m evs' w w' -> evs = evs'.
Proof.
  intros (_ & _ & _ & Ht) (_ & _ & _ & Ht'). rewrite Ht in Ht'.
  by apply app_inv_head in Ht'.
Qed.

Lemma within_refl P m w : within P m w w.
Proof. exists []. split; [apply changes_refl | constructor]. Qed.

Lemma within_trans P m w1 w2 w3 :
  within P m w1 w2 -> within P m w2 w3 -> within P m w1 w3.
Proof.
  intros (evs & Hc & Hp) (evs' & Hc' & Hp'). exists (evs ++ evs').
  split; [by eapply changes_trans | by apply Forall_app].
Qed.

Lemma within_weaken (P P' : Event -> bool) m w w' :
  (forall e, P e = true -> P' e = true) ->
  within P m w w' -> within P' m w w'.
Proof.
  intros HP (evs & Hc & Hp). exists evs. split; [done |].
  eapply Forall_impl; eauto.
Qed.

Lemma within_emit P m ev w :
  P ev = true ->
  within P m w (mkWorld (heap w) (next_loc w) (trace w ++ [ev])).
Proof.
  intros HP. exists [ev]. split; [apply changes_emit | by constructor].
Qed.

Lemma within_write P m o o' w :
  heap w !! m = Some o ->
  within P m w (mkWorld (<[m := o']> (heap w)) (next_loc w) (trace w)).
Proof.
  intros Hm. exists []. split; [by eapply changes_write | constructor].
Qed.

Lemma emit_inv P m ev w w' r :
  P ev = true ->
  emit ev w = (w', r) ->
  r = Ok tt /\ within P m w w' /\ heap w' = heap w.
Proof.
  intros HP [= <- <-]. split; [done |]. split; [by apply within_emit | done].
Qed.

Lemma write_model_inv P m o o' w w' r :
  heap w !! m = Some o ->
  write_model m o' w = (w', r) ->
  r = Ok tt /\ within P m w w' /\ heap w' = <[m := o']> (heap w).
Proof.
  intros Hm [= <- <-]. split; [done |].
  split; [by eapply within_write | done].
Qed.

Lemma set_mode_inv P m t w w' r :
  P (EvSetMode m t) = true ->
  set_mode m t w = (w', r) ->
  within P m w w'
  /\ match r with
     | Ok _ => exists o, heap w !! m = Some o
                         /\ heap w' !! m = Some (mkModel (params o) (device o) t)
     | Raise e => e = DanglingReference /\ w' = w
     end.
Proof.
  intros HP. unfold set_mode. intros H.
  apply bind_inv in H as [(w1 & o & Hr & H) | (e & Hr & ->)].
  - apply read_model_inv in Hr as [-> Ho].
    apply bind_inv in H as [(w2 & [] & Hw & H) | (e & Hw & ->)].
    + eapply (write_model_inv P) in Hw as (_ & Hin & Hheap); [| done].
      eapply (emit_inv P m) in H as (-> & Hin' & Hheap'); [| done].
      split; [by eapply within_trans |].
      exists o. split; [done |]. by rewrite Hheap', Hheap, lookup_insert_eq.
    + eapply (write_model_inv P) in Hw as (Hr & _); [| done]. done.
  - apply read_model_inv in Hr as [-> [Ho ->]]. split; [apply within_refl | done].
Qed.

End MonadFacts.

(** ** The evaluation loop *)

Lemma correct_count_app p1 t1 p2 t2 :
  length p1 = length t1 ->
  correct_count (p1 ++ p2) (t1 ++ t2)
  = correct_count p1 t1 + correct_count p2 t2.
Proof.
  intros Hlen. unfold correct_count.
  rewrite zip_with_app by done. by rewrite filter_app, length_app.
Qed.

Lemma argmax_hits_correct_count (cs : Tensor2) :
  forall (tg pr : list nat),
    mapM argmax cs = Some pr ->
    length (filter (fun rt => bool_decide (argmax rt.1 = Some rt.2)) (zip cs tg))
    = correct_count pr tg.
Proof.
  intros tg pr Hm. apply mapM_Some in Hm. revert tg.
  induction Hm as [| row c cs pr Hrow Hrest IH]; intros tg; [done |].
  destruct tg as [| t tg]; [done |]. unfold correct_count in *. cbn [zip_with].
  rewrite !filter_cons. cbn [fst snd]. rewrite Hrow.
  destruct (decide (c = t)) as [-> | Hne].
  - rewrite !decide_True by (by apply bool_decide_pack). cbn. by rewrite IH.
  - rewrite !decide_False.
    + apply IH.
    + intros H. apply bool_decide_unpack in H. done.
    + intros H. apply bool_decide_unpack in H. congruence.
Qed.

Lemma near_of_int n : near 1 (Qnat n) (of_int n).
Proof. apply (near_round 0), near_exact, Qnat_nonneg. Qed.

Lemma of_int_pos n : n <> 0 -> (0 < of_int n)%Q.
Proof.
  intros Hn. destruct (near_of_int n) as (_ & _ & Hlo & _).
  pose proof (Qnat_pos n Hn). pose proof (shrink_pos 1).
  set (s := ((1 - ulp) ^ Z.of_nat 1)%Q) in *. nra.
Qed.

(** The share of hits of a batch: the quotient of two integers. *)
Lemma near_share c n : near 1 (Qnat c / Qnat n) (round64 (Qnat c / Qnat n)).
Proof.
  apply (near_round 0), near_exact.
  destruct (decide (n = 0)) as [-> | Hn].
  - unfold Qdiv. change (/ Qnat 0)%Q with 0%Q. lra.
  - apply Qle_shift_div_l; [by apply Qnat_pos |].
    pose proof (Qnat_nonneg c). lra.
Qed.

(** The contribution of a batch to the accumulated accuracy is its
    number of hits, up to three roundings: of the share, of the product
    and of the batch size. *)
Lemma cls_acc_weighted (cs : Tensor2) tg pr :
  mapM argmax cs = Some pr ->
  length cs = length tg ->
  near 3 (Qnat (correct_count pr tg))
    (fmul (cls_acc cs tg) (of_int (length cs))).
Proof.
  intros Hm Hlen. unfold cls_acc, fmul.
  rewrite (argmax_hits_correct_count cs tg pr Hm), Hlen.
  apply (near_round 2).
  destruct (decide (length tg = 0)) as [H0 | Hpos].
  - destruct tg; [| done]. unfold correct_count. rewrite zip_with_nil_r.
    apply (near_zero 2).
  - apply (near_eq 2 (Qnat (correct_count pr tg) / Qnat (length tg)
                      * Qnat (length tg))%Q).
    + apply (near_mul 1 1); [apply near_share | apply near_of_int].
    + field. by apply Qnat_nonzero.
Qed.

Section EvaluationFacts.
Context {B : Backend}.

Lemma as_tensor2_inv e v w w' r :
  as_tensor2 e v w = (w', r) ->
  w' = w /\ match r with
            | Ok t => v = PyTensor2 t
            | Raise e' => e' = e
            end.
Proof. destruct v; cbn; intros H; inversion H; done. Qed.

Lemma as_tensor3_inv e v w w' r :
  as_tensor3 e v w = (w', r) ->
  w' = w /\ match r with
            | Ok t => v = PyTensor3 t
            | Raise e' => e' = e
            end.
Proof. destruct v; cbn; intros H; inversion H; done. Qed.

Lemma as_loader_inv v w w' r :
  as_loader v w = (w', r) ->
  w' = w /\ match r with
            | Ok l => v = PyLoader l
            | Raise e' => e' = TypeError
            end.
Proof. destruct v; cbn; intros H; inversion H; done. Qed.

Lemma scores_inv ls (f R : Tensor2) w w' r :
  scores ls f R w = (w', r) ->
  w' = w /\ match r with
            | Ok cs => conformable f R = true
                       /\ cs = cosine_similarity ls f R
            | Raise e => conformable f R = false /\ e = RuntimeError
            end.
Proof.
  unfold scores. destruct (conformable f R); intros H; inversion H; done.
Qed.

Lemma reference_set_inv args model p tf mq mk w w' r :
  reference_set args model p tf mq mk w = (w', r) ->
  within eval_event model w w' /\ heap w' = heap w /\ genuine_result r
  /\ forall R, r = Ok R -> BackendShapes B ->
       if enable_MetaAdapter args
       then exists q, mq = PyTensor2 q /\ length R = length q
       else tf = PyTensor2 R.
Proof.
  unfold reference_set. destruct (enable_MetaAdapter args).
  - intros H.
    apply bind_inv in H as [(w1 & q & Hq & H) | (e & Hq & ->)];
      apply as_tensor2_inv in Hq as [-> Hq]; [| subst; split; [apply within_refl | done]].
    apply bind_inv in H as [(w1 & k & Hk & H) | (e & Hk & ->)];
      apply as_tensor3_inv in Hk as [-> Hk]; [| subst; split; [apply within_refl | done]].
    rewrite bind_emit in H. inversion H; subst; clear H.
    split; [by apply within_emit |]. split; [done |]. split; [done |].
    intros R [= <-] HB. exists q. split; [done |]. apply (meta_adapter_rows B HB).
  - intros H. apply as_tensor2_inv in H as [-> H].
    split; [apply within_refl |]. split; [done |].
    destruct r; subst; split; try done. by intros R [= ->].
Qed.

Lemma eval_batch_inv args model ls tf mq mk st b w w' r :
  eval_batch args model ls tf mq mk st b w = (w', r) ->
  within eval_event model w w' /\ heap w' = heap w
  /\ genuine_result r
  /\ forall st', r = Ok st' ->
       BackendShapes B -> length (images b) = length (target b) ->
       forall k, 3 <= k -> eval_inv k st -> eval_inv (S k) st'.
Proof.
  unfold eval_batch. intros H.
  apply bind_inv in H as [(w1 & o & Ho & H) | (e & Ho & ->)];
    apply read_model_inv in Ho as [-> Ho].
  2:{ destruct Ho as [Hnone ->]. split; [apply within_refl | done]. }
  rewrite bind_emit in H.
  apply bind_inv in H as [(w1 & R & HR & H) | (e & HR & ->)];
    apply reference_set_inv in HR as (Hin & Hheap & Hgen & HRok).
  2:{ split; [eapply within_trans; [| exact Hin]; by apply within_emit |].
      split; [done |]. split; [done |]. done. }
  apply bind_inv in H as [(w2 & cs & Hcs & H) | (e & Hcs & ->)];
    apply scores_inv in Hcs as [-> Hcs].
  2:{ destruct Hcs as [_ ->].
      split; [eapply within_trans; [| exact Hin]; by apply within_emit |].
      split; [done |]. split; [done |]. done. }
  destruct Hcs as [_ Hcs].
  apply bind_inv in H as [(w2 & pred & Hp & H) | (e & Hp & ->)];
    apply lift_inv in Hp as [-> Hp].
  2:{ destruct Hp as [_ ->].
      split; [eapply within_trans; [| exact Hin]; by apply within_emit |].
      split; [done |]. split; [done |]. done. }
  inversion H; subst; clear H.
  split; [eapply within_trans; [| exact Hin]; by apply within_emit |].
  split; [done |]. split; [done |].
  intros st' [= <-] HB Hpair k Hk (Hacc & Htot & Hlen).
  set (cs := cosine_similarity ls (encode_image (params o) (images b)) R) in *.
  assert (Hcs : length cs = length (target b)).
  { unfold cs, cosine_similarity, matmul_t, scale.
    rewrite !length_map. rewrite (encode_image_rows B HB). done. }
  assert (Hpl : length pred = length cs).
  { symmetry. by eapply length_mapM. }
  unfold eval_inv, collect, accumulate.
  cbn [acc all_predictions all_targets eval_tot_samples]. split; [| split].
  - rewrite correct_count_app by done. unfold fadd. apply near_round.
    eapply near_eq; [| symmetry; apply Qnat_plus].
    apply near_add; [done |].
    eapply near_mono; [by apply (cls_acc_weighted cs (target b) pred) | done].
  - rewrite length_app. lia.
  - rewrite !length_app. lia.
Qed.

Lemma eval_batches_inv args model ls tf mq mk loader :
  forall st w w' r,
    eval_batches args model ls tf mq mk loader st w = (w', r) ->
    within eval_event model w w' /\ heap w' = heap w
    /\ genuine_result r
    /\ forall st', r = Ok st' ->
         BackendShapes B -> paired loader ->
         forall k, 3 <= k ->
           eval_inv k st -> eval_inv (length loader + k) st'.
Proof.
  induction loader as [| b rest IH]; intros st w w' r H.
  - inversion H; subst. split; [apply within_refl |].
    split; [done |]. split; [done |]. by intros st' [= <-].
  - cbn [eval_batches] in H.
    apply bind_inv in H as [(w1 & st1 & Hb & H) | (e & Hb & ->)];
      apply eval_batch_inv in Hb as (Hin & Hheap & Hgen & Hinv).
    + apply IH in H as (Hin' & Hheap' & Hgen' & Hinv').
      split; [by eapply within_trans |]. split; [congruence |].
      split; [done |]. intros st' -> HB Hp k Hk Hst.
      inversion Hp; subst. cbn [length].
      replace (S (length rest) + k) with (length rest + S k) by lia.
      apply (Hinv' st' eq_refl HB); [done | lia |].
      by apply (Hinv st1 eq_refl HB).
    + done.
Qed.

Lemma resolve_meta_inv args model tf sil mq mk w w' r :
  resolve_meta args model tf sil mq mk w = (w', r) ->
  within eval_event model w w' /\ heap w' = heap w /\ genuine_result r.
Proof.
  unfold resolve_meta.
  destruct (enable_MetaAdapter args && (is_None mq || is_None mk)).
  2:{ intros H. inversion H; subst. split; [apply within_refl | done]. }
  intros H.
  apply bind_inv in H as [(w1 & o & Ho & H) | (e & Ho & ->)];
    apply read_model_inv in Ho as [-> Ho].
  2:{ destruct Ho as [_ ->]. split; [apply within_refl | done]. }
  apply bind_inv in H as [(w1 & sl & Hs & H) | (e & Hs & ->)];
    apply as_loader_inv in Hs as [-> Hs].
  2:{ subst. split; [apply within_refl | done]. }
  rewrite bind_emit in H.
  apply bind_inv in H as [(w1 & q & Hq & H) | (e & Hq & ->)];
    apply as_tensor2_inv in Hq as [-> Hq].
  2:{ subst. split; [by apply within_emit | done]. }
  apply bind_inv in H as [(w1 & k & Hk & H) | (e & Hk & ->)];
    apply lift_inv in Hk as [-> Hk].
  2:{ destruct Hk as [_ ->]. split; [by apply within_emit | done]. }
  inversion H; subst. split; [by apply within_emit | done].
Qed.

Lemma divide_inv x n w w' r :
  divide x n w = (w', r) ->
  w' = w /\ match r with
            | Ok q => n <> 0 /\ q = fdiv x (of_int n)
            | Raise e => n = 0 /\ e = ZeroDivisionError
            end.
Proof.
  unfold divide. destruct (Nat.eqb_spec n 0); intros H; inversion H; done.
Qed.

(** What a call of [eval_model] does to the world and what it returns. *)
Lemma eval_model_inv args model ls loader tf sil mq mk w w' r :
  eval_model args model ls loader tf sil mq mk w = (w', r) ->
  within eval_event model w w'
  /\ genuine_result r
  /\ (forall o, heap w !! model = Some o ->
        exists t, heap w' !! model = Some (mkModel (params o) (device o) t))
  /\ forall a imgs tg pr sims,
       r = Ok (a, imgs, tg, pr, sims) ->
       BackendShapes B -> paired loader ->
       near (length loader + 5)
         (Qnat (correct_count pr tg) / Qnat (length tg)) a
       /\ tg <> [].
Proof.
  unfold eval_model.
  destruct ((is_None mk || is_None mq) && is_None sil).
  { intros H. inversion H; subst. split; [apply within_refl |].
    split; [done |]. split; [| done]. intros o Ho. exists (training o).
    by destruct o. }
  intros H.
  apply bind_inv in H as [(w1 & [] & Hs & H) | (e & Hs & ->)];
    apply (set_mode_inv eval_event) in Hs as [Hin Hs]; try done.
  2:{ destruct Hs as [-> ->]. split; [done |]. split; [done |].
      split; [| done]. intros o Ho. exists (training o). by destruct o. }
  destruct Hs as (o & Ho & Ho1).
  assert (Hkeep : forall w2, heap w2 = heap w1 ->
            forall o0, heap w !! model = Some o0 ->
            exists t, heap w2 !! model = Some (mkModel (params o0) (device o0) t)).
  { intros w2 Hw2 o0 Ho0. rewrite Hw2, Ho1. exists false. congruence. }
  apply bind_inv in H as [(w2 & qk & Hr & H) | (e & Hr & ->)];
    apply resolve_meta_inv in Hr as (Hin2 & Hheap2 & Hgen2).
  2:{ split; [by eapply within_trans |]. split; [done |]. split; [eauto | done]. }
  apply bind_inv in H as [(w3 & st & Hb & H) | (e & Hb & ->)];
    apply eval_batches_inv in Hb as (Hin3 & Hheap3 & Hgen3 & Hinv).
  2:{ split; [eapply within_trans; [| done]; by eapply within_trans |].
      split; [done |]. split; [| done]. apply Hkeep. congruence. }
  apply bind_inv in H as [(w4 & a & Hd & H) | (e & Hd & ->)];
    apply divide_inv in Hd as [-> Hd].
  2:{ destruct Hd as [_ ->].
      split; [eapply within_trans; [| done]; by eapply within_trans |].
      split; [done |]. split; [| done]. apply Hkeep. congruence. }
  inversion H; subst; clear H.
  split; [eapply within_trans; [| done]; by eapply within_trans |].
  split; [done |]. split; [apply Hkeep; congruence |].
  intros a' imgs tg pr sims [= <- <- <- <- <-] HB Hp.
  destruct Hd as [Hn ->].
  destruct (Hinv st eq_refl HB Hp 3) as (Hacc & Htot & Hlen); [lia | |].
  { unfold eval_inv. cbn. split; [apply (near_zero 3) | done]. }
  split.
  - rewrite <- Htot. unfold fdiv.
    replace (length loader + 5) with (S (length loader + 3 + 1)) by lia.
    apply near_round. apply near_div; [done | apply near_of_int | |].
    + by apply Qnat_pos.
    + by apply of_int_pos.
  - intros Hnil. rewrite Hnil in Htot. cbn in Htot. done.
Qed.

End EvaluationFacts.

(** ** The training loop *)

Section TrainingFacts.
Context {B : Backend}.

Lemma count_app P (a b : list Event) :
  count P (a ++ b) = count P a + count P b.
Proof. unfold count. by rewrite filter_app, length_app. Qed.

Lemma count_none (P Q : Event -> bool) (evs : list Event) :
  (forall e, Q e = true -> P e = false) ->
  Forall (fun e => Q e = true) evs -> count P evs = 0.
Proof.
  intros HQ Hall. unfold count. induction Hall as [| e evs He _ IH]; [done |].
  rewrite filter_cons, decide_False; [done |].
  rewrite (HQ e He). done.
Qed.

Ltac kinds :=
  let e := fresh "e" in
  intros e; destruct e; cbn; try done;
  repeat match goal with b : bool |- _ => destruct b end;
  repeat match goal with s : Site |- _ => destruct s end;
  cbn; try done.

Lemma forward_is_step e : forward_event e = true -> step_event e = true.
Proof. unfold step_event. intros ->. done. Qed.

Lemma forward_not_optimizer e :
  forward_event e = true -> is_optimizer_step e = false.
Proof. by destruct e. Qed.

Lemma load_label_features_inv args inp p tf w w' r :
  load_label_features args inp p tf w = (w', r) ->
  within forward_event (model inp) w w' /\ heap w' = heap w
  /\ r = Ok (if recompute_needed args (task_type inp)
             then recomputed_features inp p else tf).
Proof.
  unfold load_label_features.
  destruct (recompute_needed args (task_type inp)); intros H.
  - rewrite bind_emit in H. inversion H; subst.
    split; [by apply within_emit | done].
  - inversion H; subst. split; [apply within_refl | done].
Qed.

Lemma forward_images_inv args inp p b prev w w' r :
  forward_images args inp p b prev w = (w', r) ->
  within forward_event (model inp) w w' /\ heap w' = heap w
  /\ r = Ok (if encodes_images args
             then Some (encode_image p (images b)) else prev).
Proof.
  unfold forward_images. destruct (encodes_images args); intros H.
  - rewrite bind_emit in H. inversion H; subst.
    split; [by apply within_emit | done].
  - inversion H; subst. split; [apply within_refl | done].
Qed.

Lemma read_local_inv {A} name (v : option A) w w' r :
  read_local name v w = (w', r) ->
  w' = w /\ match r with
            | Ok a => v = Some a
            | Raise e => v = None /\ e = UnboundLocalError name
            end.
Proof. apply lift_inv. Qed.

Lemma cosine_similarity_length ls (f R : Tensor2) :
  length (cosine_similarity ls f R) = length f.
Proof. unfold cosine_similarity, matmul_t, scale. by rewrite !length_map. Qed.

Lemma cosine_similarity_width ls (f R : Tensor2) row :
  row ∈ cosine_similarity ls f R -> length row = length R.
Proof.
  unfold cosine_similarity, matmul_t. intros Hrow.
  apply list_elem_of_fmap in Hrow as (a & -> & _). apply length_map.
Qed.

Lemma check_targets_inv cs tg w w' r :
  check_targets cs tg w = (w', r) ->
  w' = w /\ genuine_result r
  /\ (r = Ok tt -> length cs = length tg
                   /\ Forall (fun rt => rt.2 < length rt.1) (zip cs tg)).
Proof.
  unfold check_targets.
  destruct (Nat.eqb_spec (length cs) (length tg)) as [Hlen | Hlen]; cbn.
  - destruct (forallb _ _) eqn:Hall; intros H; inversion H; subst;
      (split; [done |]); (split; [done |]); [| done].
    intros _. split; [done |]. apply Forall_forall. intros rt Hrt.
    rewrite forallb_forall in Hall. apply Nat.ltb_lt, Hall.
    by apply list_elem_of_In.
  - intros H. inversion H; subst. done.
Qed.

(** Scores of a batch that [fits] pass the checks of the loss. *)
Lemma check_targets_ok ls (f R : Tensor2) tg w :
  fits f R tg = true ->
  check_targets (cosine_similarity ls f R) tg w = (w, Ok tt).
Proof.
  unfold fits, check_targets. rewrite !andb_true_iff.
  intros [[_ Hlen] Hlab]. rewrite cosine_similarity_length, Hlen. cbn.
  replace (forallb _ _) with true; [done |]. symmetry.
  apply forallb_forall. intros [row t] Hin. apply list_elem_of_In in Hin.
  cbn. rewrite forallb_forall in Hlab.
  rewrite (cosine_similarity_width ls f R row).
  - apply Hlab, list_elem_of_In. by eapply elem_of_zip_r.
  - by eapply elem_of_zip_l.
Qed.

Lemma fits_conformable f R tg : fits f R tg = true -> conformable f R = true.
Proof. unfold fits. rewrite !andb_true_iff. tauto. Qed.

Lemma train_scores_inv args inp p tf L feats w w' r :
  train_scores args inp p tf L feats w = (w', r) ->
  within forward_event (model inp) w w' /\ heap w' = heap w
  /\ genuine_result r
  /\ (enable_MetaAdapter args = false ->
      match feats with
      | Some f => r = (if conformable f tf
                       then Ok (cosine_similarity (logit_scale inp) f tf)
                       else Raise RuntimeError)
      | None => r = Raise (UnboundLocalError "image_features") /\ w' = w
      end).
Proof.
  unfold train_scores. destruct (enable_MetaAdapter args); intros H.
  - apply bind_inv in H as [(w1 & q & Hq & H) | (e & Hq & ->)];
      apply read_local_inv in Hq as [-> Hq].
    2:{ destruct Hq as [_ ->]. split; [apply within_refl | done]. }
    apply bind_inv in H as [(w1 & k & Hk & H) | (e & Hk & ->)];
      apply read_local_inv in Hk as [-> Hk].
    2:{ destruct Hk as [_ ->]. split; [apply within_refl | done]. }
    rewrite bind_emit in H.
    apply bind_inv in H as [(w1 & f & Hf & H) | (e & Hf & ->)];
      apply read_local_inv in Hf as [-> Hf].
    2:{ destruct Hf as [_ ->]. split; [by apply within_emit | done]. }
    apply scores_inv in H as [-> H].
    split; [by apply within_emit |]. split; [done |]. split; [| done].
    destruct r; [done |]. by destruct H as [_ ->].
  - apply bind_inv in H as [(w1 & f & Hf & H) | (e & Hf & ->)];
      apply read_local_inv in Hf as [-> Hf].
    + apply scores_inv in H as [-> H]. split; [apply within_refl |].
      split; [done |]. split.
      * destruct r; [done |]. by destruct H as [_ ->].
      * intros _. rewrite Hf. destruct r as [cs | e].
        -- destruct H as [-> ->]. done.
        -- destruct H as [-> ->]. done.
    + destruct Hf as [-> ->]. split; [apply within_refl | done].
Qed.

Lemma lift_result_inv {A} (x : Result A) w w' r :
  lift_result x w = (w', r) -> w' = w /\ r = x.
Proof. destruct x; cbn; intros H; inversion H; done. Qed.

Lemma update_genuine pairs :
  forall mk, genuine_result (Memory.update mk pairs).
Proof.
  induction pairs as [| [tar feat] rest IH]; intros mk; [done |].
  cbn [Memory.update]. unfold Memory.update_row.
  destruct (mk !! tar); [| done].
  destruct (Memory.assign_row _ _); [apply IH | done].
Qed.

Lemma update_cache_keys_inv args b feats mk w w' r :
  update_cache_keys args b feats mk w = (w', r) ->
  w' = w /\ genuine_result r
  /\ (enable_MetaAdapter args = false -> r = Ok mk).
Proof.
  unfold update_cache_keys. destruct (enable_MetaAdapter args); intros H.
  - apply bind_inv in H as [(w1 & f & Hf & H) | (e & Hf & ->)];
      apply read_local_inv in Hf as [-> Hf].
    2:{ destruct Hf as [_ ->]. done. }
    apply bind_inv in H as [(w1 & k & Hk & H) | (e & Hk & ->)];
      apply read_local_inv in Hk as [-> Hk].
    2:{ destruct Hk as [_ ->]. done. }
    apply bind_inv in H as [(w1 & k' & Hu & H) | (e & Hu & ->)];
      apply lift_result_inv in Hu as [-> Hu].
    + inversion H; subst. done.
    + split; [done |]. split; [| done].
      pose proof (update_genuine (zip (target b) f) k) as Hg.
      rewrite <- Hu in Hg. done.
  - inversion H; subst. done.
Qed.

Lemma bind_write {C} m o (k : unit -> M C) w :
  bind (write_model m o) k w
  = k tt (mkWorld (<[m := o]> (heap w)) (next_loc w) (trace w)).
Proof. reflexivity. Qed.

Lemma changes_step m o o' ev w :
  heap w !! m = Some o ->
  changes m [ev] w
    (mkWorld (<[m := o']> (heap w)) (next_loc w) (trace w ++ [ev])).
Proof.
  intros Hm.
  apply (changes_trans m [] [ev] w
           (mkWorld (<[m := o']> (heap w)) (next_loc w) (trace w)));
    [by eapply changes_write |].
  exact (changes_emit m ev
           (mkWorld (<[m := o']> (heap w)) (next_loc w) (trace w))).
Qed.

(** What one training step does. *)
Lemma train_step_inv args inp L b w w' r :
  train_step args inp L b w = (w', r) ->
  exists evs,
    changes (model inp) evs w w'
    /\ Forall (fun e => step_event e = true) evs
    /\ count is_optimizer_step evs <= 1
    /\ genuine_result r
    /\ (forall L', r = Ok L' ->
          count is_optimizer_step evs = 1
          /\ count_iters L' = count_iters L + 1
          /\ best_acc L' = best_acc L
          /\ best_model L' = best_model L
          /\ meta_query L' = meta_query L
          /\ tot_samples L' = tot_samples L + length (target b)
          /\ exists o, heap w !! model inp = Some o
               /\ target_features L'
                  = if recompute_needed args (task_type inp)
                    then recomputed_features inp (params o)
                    else target_features L)
    /\ (enable_MetaAdapter args = false ->
        forall o, heap w !! model inp = Some o ->
          if encodes_images args
          then fits (encode_image (params o) (images b))
                 (if recompute_needed args (task_type inp)
                  then recomputed_features inp (params o)
                  else target_features L)
                 (target b) = true ->
               is_ok r = true
          else image_features L = None ->
               r = Raise (UnboundLocalError "image_features")
               /\ count is_optimizer_step evs = 0).
Proof.
  unfold train_step. intros H.
  apply bind_inv in H as [(w1 & o & Ho & H) | (e & Ho & ->)];
    apply read_model_inv in Ho as [-> Ho].
  2:{ destruct Ho as [Hnone ->]. exists []. split; [apply changes_refl |].
      split; [constructor |]. split; [cbn; lia |]. split; [done |].
      split; [done |]. intros _ o Ho. congruence. }
  apply bind_inv in H as [(w1 & tf & Ht & H) | (e & Ht & ->)];
    apply load_label_features_inv in Ht as ((evs1 & Hc1 & Hf1) & Hh1 & Ht);
    [| done].
  inversion Ht; subst tf; clear Ht.
  apply bind_inv in H as [(w2 & feats & Hi & H) | (e & Hi & ->)];
    apply forward_images_inv in Hi as ((evs2 & Hc2 & Hf2) & Hh2 & Hi);
    [| done].
  inversion Hi; subst feats; clear Hi.
  apply bind_inv in H as [(w3 & cs & Hs & H) | (e & Hs & ->)];
    apply train_scores_inv in Hs as ((evs3 & Hc3 & Hf3) & Hh3 & Hg3 & Hplain).
  all: assert (Hfwd : Forall (fun e => forward_event e = true)
                        (evs1 ++ evs2 ++ evs3))
         by (rewrite !Forall_app; done).
  all: assert (Hcount : count is_optimizer_step (evs1 ++ evs2 ++ evs3) = 0)
         by (eapply count_none; [apply forward_not_optimizer | done]).
  all: pose proof (changes_trans _ _ _ _ _ _ Hc1
                     (changes_trans _ _ _ _ _ _ Hc2 Hc3)) as Hc123.
  2:{ exists (evs1 ++ evs2 ++ evs3). split; [done |].
      split; [eapply Forall_impl; [done | apply forward_is_step] |].
      split; [lia |]. split; [done |]. split; [done |].
      intros Hm o' Ho'. assert (o' = o) by congruence. subst o'.
      specialize (Hplain Hm).
      destruct (encodes_images args).
      - intros Hfit. apply fits_conformable in Hfit. rewrite Hfit in Hplain.
        done.
      - intros Hnone. rewrite Hnone in Hplain. destruct Hplain as [[= ->] _].
        done. }
  apply bind_inv in H as [(w4 & [] & Hch & H) | (e & Hch & ->)];
    pose proof Hch as Hch';
    apply check_targets_inv in Hch as (-> & Hgch & _).
  2:{ exists (evs1 ++ evs2 ++ evs3). split; [done |].
      split; [eapply Forall_impl; [done | apply forward_is_step] |].
      split; [lia |]. split; [done |]. split; [done |].
      intros Hm o' Ho'. assert (o' = o) by congruence. subst o'.
      specialize (Hplain Hm).
      destruct (encodes_images args).
      - intros Hfit. exfalso.
        rewrite (fits_conformable _ _ _ Hfit) in Hplain.
        inversion Hplain; subst cs.
        rewrite (check_targets_ok _ _ _ _ _ Hfit) in Hch'. discriminate Hch'.
      - intros Hnone. rewrite Hnone in Hplain. by destruct Hplain. }
  assert (Ho3 : heap w3 !! model inp = Some o) by congruence.
  rewrite bind_write, bind_emit in H.
  set (o' := mkModel
               (optimizer_step (optimizer L) (params o) b
                  (cross_entropy cs (target b))).2 (device o) (training o))
    in *.
  pose proof (changes_step (model inp) o o' (EvOptimizerStep (model inp))
                w3 Ho3) as Hc4.
  set (w4 := mkWorld (<[model inp := o']> (heap w3)) (next_loc w3)
               (trace w3 ++ [EvOptimizerStep (model inp)])) in *.
  pose proof (changes_trans _ _ _ _ _ _ Hc123 Hc4) as Hc.
  exists ((evs1 ++ evs2 ++ evs3) ++ [EvOptimizerStep (model inp)]).
  assert (Hone : count is_optimizer_step
                   ((evs1 ++ evs2 ++ evs3) ++ [EvOptimizerStep (model inp)])
                 = 1) by (rewrite count_app, Hcount; done).
  assert (Hall : Forall (fun e => step_event e = true)
                   ((evs1 ++ evs2 ++ evs3) ++ [EvOptimizerStep (model inp)])).
  { apply Forall_app. split.
    - eapply Forall_impl; [done | apply forward_is_step].
    - by constructor. }
  apply bind_inv in H as [(w5 & mk & Hu & H) | (e & Hu & ->)];
    apply update_cache_keys_inv in Hu as (-> & Hgu & Hplainu).
  - inversion H; subst w' r; clear H.
    split; [done |]. split; [done |]. split; [lia |]. split; [done |].
    split.
    + intros L' [= <-]. cbn. repeat (split; [done |]). eauto.
    + intros Hm o0 Ho0. destruct (encodes_images args); [done |].
      intros Hnone. specialize (Hplain Hm). rewrite Hnone in Hplain.
      by destruct Hplain.
  - split; [done |]. split; [done |]. split; [lia |]. split; [done |].
    split; [done |].
    intros Hm o0 Ho0. specialize (Hplainu Hm). done.
Qed.

(** What the batches of one epoch do. *)
Lemma run_batches_inv args inp bs :
  forall L w w' r,
    run_batches args inp bs L w = (w', r) ->
    exists evs,
      changes (model inp) evs w w'
      /\ Forall (fun e => step_event e = true) evs
      /\ genuine_result r
      /\ (forall L', r = Ok L' ->
            best_acc L' = best_acc L
            /\ best_model L' = best_model L
            /\ meta_query L' = meta_query L
            /\ count is_optimizer_step evs + count_iters L = count_iters L'
            /\ (count_iters L < total_iters args ->
                count_iters L'
                = (count_iters L + length bs) `min` total_iters args)
            /\ (bs = [] -> L' = L)
            /\ tot_samples L <= tot_samples L'
            /\ (forall b rest, bs = b :: rest ->
                  tot_samples L + length (target b) <= tot_samples L')
            /\ (recompute_needed args (task_type inp) = false ->
                target_features L' = target_features L))
      /\ (enable_MetaAdapter args = false ->
          encodes_images args = true ->
          model inp ∈ dom (heap w) ->
          plain_trainable args inp (target_features L) bs ->
          is_ok r = true).
Proof.
  induction bs as [| b rest IH]; intros L w w' r H.
  - inversion H; subst. exists []. split; [apply changes_refl |].
    split; [constructor |]. split; [done |]. split; [| done].
    intros L' [= <-]. repeat (split; [done |]).
    split; [intros; cbn [length]; lia |]. repeat (split; [done |]). done.
  - cbn [run_batches] in H.
    apply bind_inv in H as [(w1 & L1 & Hs & H) | (e & Hs & ->)];
      apply train_step_inv in Hs
        as (evs1 & Hc1 & Hf1 & Hle1 & Hg1 & Hok1 & Hplain1).
    2:{ exists evs1. split; [done |]. split; [done |]. split; [done |].
        split; [done |]. intros Hm He Hd Hpt.
        apply elem_of_dom in Hd as [o Ho]. specialize (Hplain1 Hm o Ho).
        rewrite He in Hplain1. apply Hplain1.
        inversion Hpt as [| ? ? Hb _]; subst. apply Hb. }
    destruct (Hok1 L1 eq_refl)
      as (Hone & Hcnt & Hba & Hbm & Hmq & Htot & o & Ho & Htf).
    destruct (Nat.eqb_spec (count_iters L1) (total_iters args)) as [Heq | Hne].
    + inversion H; subst w' r; clear H. exists evs1.
      split; [done |]. split; [done |]. split; [done |]. split; [| done].
      intros L' [= <-]. repeat (split; [done |]).
      split; [lia |]. split; [cbn [length]; lia |]. split; [done |].
      split; [lia |]. split.
      * intros b' rest' [= <- <-]. lia.
      * intros Hrec. by rewrite Hrec in Htf.
    + apply IH in H as (evs2 & Hc2 & Hf2 & Hg2 & Hok2 & Hplain2).
      exists (evs1 ++ evs2). split; [by eapply changes_trans |].
      split; [by apply Forall_app |]. split; [done |]. split.
      * intros L' ->.
        destruct (Hok2 L' eq_refl)
          as (Hba' & Hbm' & Hmq' & Hcnt' & Hmin' & _ & Htot' & _ & Htf').
        split; [congruence |]. split; [congruence |]. split; [congruence |].
        split; [rewrite count_app; lia |].
        split; [intros Hlt; cbn [length]; rewrite Hmin' by lia; lia |].
        split; [done |]. split; [lia |]. split.
        -- intros b' rest' [= <- <-]. lia.
        -- intros Hrec. rewrite (Htf' Hrec). by rewrite Hrec in Htf.
      * intros Hm He Hd Hpt. apply Hplain2; try done.
        -- destruct Hc1 as (_ & Hdom & _). by rewrite Hdom.
        -- inversion Hpt as [| ? ? _ Hrest]; subst. unfold plain_trainable.
           eapply Forall_impl; [exact Hrest |]. cbn. intros b' Hb' p.
           specialize (Hb' p).
           destruct (recompute_needed args (task_type inp)); [done |].
           by rewrite Htf.
Qed.

(** Lines 170-174. *)
Lemma log_epoch_inv args L w w' r :
  log_epoch args L w = (w', r) ->
  heap w' = heap w /\ next_loc w' = next_loc w
  /\ genuine_result r
  /\ (r = Raise ZeroDivisionError /\ w' = w
      /\ tot_samples L = 0 /\ count_iters L < total_iters args
      \/ exists L' evs,
           r = Ok L' /\ trace w' = trace w ++ evs
           /\ Forall (fun e => is_log e = true) evs
           /\ length evs = (if count_iters L <? total_iters args then 1 else 0)
           /\ (count_iters L < total_iters args -> tot_samples L <> 0)
           /\ count_iters L' = count_iters L
           /\ best_acc L' = best_acc L
           /\ best_model L' = best_model L
           /\ meta_query L' = meta_query L
           /\ meta_key L' = meta_key L
           /\ target_features L' = target_features L).
Proof.
  unfold log_epoch.
  destruct (Nat.ltb_spec (count_iters L) (total_iters args)) as [Hlt | Hge].
  - intros H.
    apply bind_inv in H as [(w1 & a & Ha & H) | (e & Ha & ->)];
      apply divide_inv in Ha as [-> Ha].
    2:{ destruct Ha as [H0 ->]. split; [done |]. split; [done |].
        split; [done |]. left. done. }
    destruct Ha as [Hn ->].
    apply bind_inv in H as [(w1 & l & Hl & H) | (e & Hl & ->)];
      apply divide_inv in Hl as [-> Hl].
    2:{ destruct Hl as [H0 _]. done. }
    rewrite bind_emit in H. inversion H; subst w' r; clear H.
    split; [done |]. split; [done |]. split; [done |]. right.
    eexists _, [_]. split; [reflexivity |]. split; [reflexivity |].
    split; [by repeat constructor |]. done.
  - intros H. inversion H; subst w' r; clear H.
    split; [done |]. split; [done |]. split; [done |]. right.
    exists L, []. split; [done |]. split; [by rewrite app_nil_r |].
    split; [constructor |]. split; [done |]. split; [lia |]. done.
Qed.

(** The call of the evaluation loop from the training loop. *)
Lemma call_eval_inv args inp site m loader L w w' r :
  call_eval args inp site m loader L w = (w', r) ->
  genuine_result r
  /\ (meta_query L = None ->
      w' = w /\ r = Raise (UnboundLocalError "meta_query"))
  /\ (w' = w /\ is_ok r = false
      \/ exists q k rest,
           meta_query L = Some q /\ meta_key L = Some k
           /\ changes m
                (EvEvalCall site m loader (PyLoader (val_loader inp))
                   (PyTensor2 (target_features L))
                   (PyTensor2 q) (PyTensor3 k) :: rest) w w'
           /\ Forall (fun e => eval_event e = true) rest
           /\ (forall o, heap w !! m = Some o ->
                 exists t,
                   heap w' !! m = Some (mkModel (params o) (device o) t))).
Proof.
  unfold call_eval. intros H.
  apply bind_inv in H as [(w1 & q & Hq & H) | (e & Hq & ->)];
    apply read_local_inv in Hq as [-> Hq].
  2:{ destruct Hq as [Hnone ->]. split; [done |]. split; [done |].
      left. done. }
  apply bind_inv in H as [(w1 & k & Hk & H) | (e & Hk & ->)];
    apply read_local_inv in Hk as [-> Hk].
  2:{ destruct Hk as [Hnone ->]. split; [done |].
      split; [intros Hn; congruence |]. left. done. }
  rewrite bind_emit in H.
  apply eval_model_inv in H as ((rest & Hc & Hrest) & Hg & Hkeep & Hacc).
  split; [done |]. split; [intros Hn; congruence |]. right.
  exists q, k, rest. split; [done |]. split; [done |]. split.
  - eapply (changes_trans m [_] rest); [| exact Hc]. apply changes_emit.
  - split; [done |]. done.
Qed.

(** [copy.deepcopy(model).to('cpu')] bound to [best_model]. *)
Lemma snapshot_inv inp old w w' r :
  snapshot inp old w = (w', r) ->
  (heap w !! model inp = None /\ r = Raise DanglingReference /\ w' = w)
  \/ exists o,
       heap w !! model inp = Some o
       /\ r = Ok (next_loc w)
       /\ next_loc w' = S (next_loc w)
       /\ trace w' = trace w ++ [EvDeepCopy (model inp) (next_loc w);
                                 EvMoveTo (next_loc w) Cpu]
       /\ heap w'
          = (if bool_decide (old = model inp)
             then <[next_loc w := mkModel (params o) Cpu (training o)]>
                    (heap w)
             else delete old
                    (<[next_loc w := mkModel (params o) Cpu (training o)]>
                       (heap w))).
Proof.
  unfold snapshot. intros H.
  apply bind_inv in H as [(w1 & o & Ho & H) | (e & Ho & ->)];
    apply read_model_inv in Ho as [-> Ho].
  - right. exists o. inversion H; subst w' r; clear H. done.
  - left. destruct Ho as [Hn ->]. done.
Qed.

(** Lines 181-183. *)
Lemma save_best_inv inp acc_val L w w' r :
  save_best inp acc_val L w = (w', r) ->
  genuine_result r
  /\ (Qltb (best_acc L) acc_val = false -> w' = w /\ r = Ok L)
  /\ (Qltb (best_acc L) acc_val = true ->
      forall L', r = Ok L' ->
        best_acc L' = acc_val
        /\ best_model L' = next_loc w
        /\ count_iters L' = count_iters L
        /\ meta_query L' = meta_query L
        /\ target_features L' = target_features L
        /\ snapshot inp (best_model L) w = (w', Ok (next_loc w))).
Proof.
  unfold save_best. destruct (Qltb (best_acc L) acc_val); intros H.
  - apply bind_inv in H as [(w1 & l & Hs & H) | (e & Hs & ->)].
    + pose proof Hs as Hs'.
      apply snapshot_inv in Hs' as [(_ & Hr & _) | (o & _ & Hr & _)];
        [done |].
      inversion Hr; subst l. inversion H; subst w' r; clear H.
      split; [done |]. split; [done |]. intros _ L' [= <-]. done.
    + apply snapshot_inv in Hs as [(_ & Hr & _) | (o & _ & Hr & _)];
        [| done].
      inversion Hr; subst e. done.
  - inversion H; subst. done.
Qed.

Lemma set_mode_changes m t w w' r :
  set_mode m t w = (w', r) ->
  (heap w !! m = None /\ r = Raise DanglingReference /\ w' = w)
  \/ exists o,
       heap w !! m = Some o /\ r = Ok tt
       /\ changes m [EvSetMode m t] w w'
       /\ heap w' !! m = Some (mkModel (params o) (device o) t).
Proof.
  unfold set_mode. intros H.
  apply bind_inv in H as [(w1 & o & Hr & H) | (e & Hr & ->)];
    apply read_model_inv in Hr as [-> Ho].
  - right. exists o. rewrite bind_write in H. inversion H; subst w' r.
    split; [done |]. split; [done |].
    split; [by eapply changes_step |]. cbn. by rewrite lookup_insert_eq.
  - left. destruct Ho as [Hn ->]. done.
Qed.

(** Lines 176-183. *)
Lemma validate_inv args inp L w w' r :
  validate args inp L w = (w', r) ->
  genuine_result r
  /\ (meta_query L = None ->
      is_ok r = false
      /\ exists evs, changes (model inp) evs w w'
           /\ Forall (fun e => after_evaluation e = false) evs
           /\ (model inp ∈ dom (heap w) ->
               r = Raise (UnboundLocalError "meta_query")
               /\ evs = [EvSetMode (model inp) false]))
  /\ forall L', r = Ok L' ->
       exists q k evs_eval acc_val w1,
         meta_query L = Some q /\ meta_key L = Some k
         /\ changes (model inp)
              (EvSetMode (model inp) false
               :: EvEvalCall Validation (model inp) (val_loader inp)
                    (PyLoader (val_loader inp))
                    (PyTensor2 (target_features L))
                    (PyTensor2 q) (PyTensor3 k)
               :: evs_eval ++ [EvPrintAccuracy Validation acc_val]) w w1
         /\ Forall (fun e => eval_event e = true) evs_eval
         /\ count_iters L' = count_iters L
         /\ meta_query L' = meta_query L
         /\ target_features L' = target_features L
         /\ (forall o, heap w !! model inp = Some o ->
               exists t, heap w1 !! model inp
                         = Some (mkModel (params o) (device o) t))
         /\ selection inp acc_val L L' w1 w'.
Proof.
  unfold validate. intros H.
  apply bind_inv in H as [(w1 & [] & Hs & H) | (e & Hs & ->)];
    apply set_mode_changes in Hs
      as [(Hn & Hr & ->) | (o & Ho & Hr & Hc1 & Ho1)]; try done.
  2:{ inversion Hr; subst e. split; [done |]. split; [| done].
      intros _. split; [done |]. exists []. split; [apply changes_refl |].
      split; [constructor |]. intros Hd. apply not_elem_of_dom in Hn. done. }
  apply bind_inv in H as [(w2 & res & He & H) | (e & He & ->)];
    apply call_eval_inv in He as (Hg & Hunb & He).
  2:{ split; [done |]. split; [| done]. intros Hq.
      destruct (Hunb Hq) as [-> [= ->]]. split; [done |].
      exists [EvSetMode (model inp) false]. split; [done |].
      split; [by repeat constructor |]. done. }
  destruct He as [[_ Hbad] | (q & k & rest & Hq & Hk & Hc2 & Hrest & Hkeep)];
    [done |].
  rewrite bind_emit in H.
  set (acc_val := res.1.1.1.1) in *.
  set (w3 := mkWorld (heap w2) (next_loc w2)
               (trace w2 ++ [EvPrintAccuracy Validation acc_val])) in *.
  assert (Hc : changes (model inp)
                 (EvSetMode (model inp) false
                  :: EvEvalCall Validation (model inp) (val_loader inp)
                       (PyLoader (val_loader inp))
                       (PyTensor2 (target_features L))
                       (PyTensor2 q) (PyTensor3 k)
                  :: rest ++ [EvPrintAccuracy Validation acc_val]) w w3).
  { apply (changes_trans _ [_] (_ :: rest ++ [_]) w w1 w3); [done |].
    apply (changes_trans _ (_ :: rest) [_] w1 w2 w3); [done |].
    apply changes_emit. }
  apply save_best_inv in H as (Hgs & Hkeepbest & Hnew).
  split; [done |]. split; [intros Hn; congruence |].
  intros L' ->. exists q, k, rest, acc_val, w3.
  split; [done |]. split; [done |]. split; [done |]. split; [done |].
  assert (Hkeep3 : forall o0, heap w !! model inp = Some o0 ->
            exists t, heap w3 !! model inp
                      = Some (mkModel (params o0) (device o0) t)).
  { intros o0 Ho0. assert (o0 = o) by congruence. subst o0.
    destruct (Hkeep _ Ho1) as [t Ht]. exists t. done. }
  destruct (Qltb (best_acc L) acc_val) eqn:Hcmp.
  - destruct (Hnew eq_refl L' eq_refl) as (Hba & Hbm & Hcnt & Hmq & Htf & Hsn).
    repeat (split; [done |]). right. done.
  - destruct (Hkeepbest eq_refl) as [-> [= <-]].
    repeat (split; [done |]). left. done.
Qed.

Lemma step_not_after e : step_event e = true -> after_evaluation e = false.
Proof. by destruct e. Qed.

Lemma log_not_after e : is_log e = true -> after_evaluation e = false.
Proof. by destruct e. Qed.

Lemma selection_fields inp acc_val L0 L L' w1 w' :
  best_acc L0 = best_acc L -> best_model L0 = best_model L ->
  selection inp acc_val L0 L' w1 w' -> selection inp acc_val L L' w1 w'.
Proof. unfold selection. intros -> ->. done. Qed.

(** One pass of the [while] body. *)
Lemma train_epoch_inv args inp L w w' r :
  train_epoch args inp L w = (w', r) ->
  genuine_result r
  /\ (meta_query L = None ->
      is_ok r = false
      /\ exists evs,
           changes (model inp) evs w w'
           /\ Forall (fun e => after_evaluation e = false) evs
           /\ (enable_MetaAdapter args = false ->
               encodes_images args = true ->
               model inp ∈ dom (heap w) ->
               count_iters L < total_iters args ->
               (exists b rest, train_loader inp = b :: rest
                               /\ target b <> []) ->
               plain_trainable args inp (target_features L)
                 (train_loader inp) ->
               r = Raise (UnboundLocalError "meta_query")
               /\ exists steps logs,
                    evs = EvSetMode (model inp) true :: steps ++ logs
                            ++ [EvSetMode (model inp) false]
                    /\ Forall (fun e => step_event e = true) steps
                    /\ count is_optimizer_step steps
                       = length (train_loader inp)
                           `min` (total_iters args - count_iters L)
                    /\ Forall (fun e => is_log e = true) logs
                    /\ length logs
                       = if count_iters L + length (train_loader inp)
                            <? total_iters args then 1 else 0))
  /\ forall L', r = Ok L' ->
       exists steps logs q k evs_eval acc_val w1,
         changes (model inp)
           (epoch_events inp steps logs (target_features L') q k
              evs_eval acc_val) w w1
         /\ Forall (fun e => step_event e = true) steps
         /\ count is_optimizer_step steps + count_iters L = count_iters L'
         /\ Forall (fun e => is_log e = true) logs
         /\ length logs
            = (if count_iters L' <? total_iters args then 1 else 0)
         /\ Forall (fun e => eval_event e = true) evs_eval
         /\ meta_query L = Some q /\ meta_query L' = Some q
         /\ (count_iters L < total_iters args ->
             count_iters L'
             = (count_iters L + length (train_loader inp))
                 `min` total_iters args
             /\ count_iters L < count_iters L')
         /\ (recompute_needed args (task_type inp) = false ->
             target_features L' = target_features L)
         /\ selection inp acc_val L L' w1 w'.
Proof.
  unfold train_epoch. intros H.
  apply bind_inv in H as [(w1 & [] & Hs & H) | (e & Hs & ->)];
    apply set_mode_changes in Hs
      as [(Hn & Hr & ->) | (o & Ho & Hr & Hc1 & Ho1)]; try done.
  2:{ inversion Hr; subst e. split; [done |]. split; [| done].
      intros _. split; [done |]. exists []. split; [apply changes_refl |].
      split; [constructor |]. intros _ _ Hd. apply not_elem_of_dom in Hn.
      done. }
  set (L0 := mkLocals (target_features L) (meta_query L) (meta_key L)
               (image_features L) (optimizer L) (count_iters L)
               (best_acc L) (best_model L) 0 0 0) in *.
  assert (Hdom1 : dom (heap w1) = dom (heap w))
    by (by destruct Hc1 as (_ & ? & _)).
  apply bind_inv in H as [(w2 & L1 & Hb & H) | (e & Hb & ->)];
    apply run_batches_inv in Hb as (steps & Hc2 & Hst & Hg2 & Hok2 & Hplain2).
  2:{ split; [done |]. split; [| done]. intros _. split; [done |].
      exists ([EvSetMode (model inp) true] ++ steps).
      split; [by eapply changes_trans |].
      split.
      { apply Forall_app. split; [by repeat constructor |].
        eapply Forall_impl; [done | apply step_not_after]. }
      intros Hm He Hd _ _ Hpt. rewrite <- Hdom1 in Hd.
      specialize (Hplain2 Hm He Hd Hpt). done. }
  destruct (Hok2 L1 eq_refl)
    as (Hba1 & Hbm1 & Hmq1 & Hcnt1 & Hmin1 & Hnil1 & _ & Htot1 & Htf1).
  cbn [best_acc best_model meta_query count_iters tot_samples
         target_features L0] in *.
  assert (Hdom2 : dom (heap w2) = dom (heap w1))
    by (by destruct Hc2 as (_ & ? & _)).
  apply bind_inv in H as [(w3 & L2 & Hl & H) | (e & Hl & ->)];
    apply log_epoch_inv in Hl as (Hh3 & Hn3 & Hg3 & Hl).
  2:{ destruct Hl as [(Hr3 & -> & Ht0 & Hlt) | (L2 & logs & Hr3 & _)];
        [| done].
      split; [done |]. split; [| done]. intros _. split; [done |].
      exists ([EvSetMode (model inp) true] ++ steps).
      split; [by eapply changes_trans |].
      split.
      { apply Forall_app. split; [by repeat constructor |].
        eapply Forall_impl; [done | apply step_not_after]. }
      intros _ _ _ _ (b & rest & Hloader & Hb) _.
      specialize (Htot1 b rest Hloader). destruct (target b); [done |].
      cbn in Htot1. lia. }
  destruct Hl as [(Hr3 & _) | (L2' & logs & Hr3 & Htr3 & Hlogs & Hlen3
                               & Htotne & Hcnt2 & Hba2 & Hbm2 & Hmq2
                               & Hmk2 & Htf2)]; [done |].
  inversion Hr3; subst L2'; clear Hr3.
  assert (Hc3 : changes (model inp) logs w2 w3).
  { repeat split; [done | by rewrite Hh3 | by intros; rewrite Hh3 | done]. }
  assert (Hc123 : changes (model inp)
                    (([EvSetMode (model inp) true] ++ steps) ++ logs) w w3).
  { eapply changes_trans; [| done]. by eapply changes_trans. }
  assert (Hdom3 : dom (heap w3) = dom (heap w)).
  { destruct Hc123 as (_ & ? & _). done. }
  apply validate_inv in H as (Hg4 & Hunb4 & Hok4).
  split; [done |]. split.
  - intros Hq. assert (Hq2 : meta_query L2 = None) by congruence.
    destruct (Hunb4 Hq2) as (Hbad & evs4 & Hc4 & Haft4 & Hexact).
    split; [done |].
    exists ((([EvSetMode (model inp) true] ++ steps) ++ logs) ++ evs4).
    split; [by eapply changes_trans |]. split.
    { rewrite !Forall_app. split; [split; [split |] |]; try done.
      - by repeat constructor.
      - eapply Forall_impl; [done | apply step_not_after].
      - eapply Forall_impl; [done | apply log_not_after]. }
    intros Hm He Hd Hlt Hfirst _. rewrite <- Hdom3 in Hd.
    destruct (Hexact Hd) as [-> ->]. split; [done |].
    exists steps, logs. split; [by rewrite <- !app_assoc |].
    split; [done |]. specialize (Hmin1 Hlt).
    split; [lia |]. split; [done |].
    rewrite Hlen3, Hmin1.
    destruct (Nat.ltb_spec (count_iters L + length (train_loader inp))
                (total_iters args));
      destruct (Nat.ltb_spec ((count_iters L + length (train_loader inp))
                                `min` total_iters args) (total_iters args));
      lia.
  - intros L' ->.
    destruct (Hok4 L' eq_refl)
      as (q & k & evs_eval & acc_val & w4 & Hq & Hk & Hc4 & Hev & Hcnt4
          & Hmq4 & Htf4 & _ & Hsel).
    exists steps, logs, q, k, evs_eval, acc_val, w4.
    split.
    { unfold epoch_events. rewrite Htf4.
      pose proof (changes_trans _ _ _ _ _ _ Hc123 Hc4) as Hc.
      by rewrite <- !app_assoc in Hc. }
    split; [done |]. split; [lia |]. split; [done |].
    split; [by rewrite Hcnt4, Hcnt2 |]. split; [done |].
    split; [congruence |]. split; [congruence |]. split.
    { intros Hlt. specialize (Hmin1 Hlt). split; [lia |].
      destruct (train_loader inp) as [| b rest] eqn:Hloader.
      - rewrite (Hnil1 eq_refl) in *. cbn in Htotne. lia.
      - cbn [length] in *. lia. }
    split; [intros Hrec; rewrite Htf4, Htf2; auto |].
    eapply selection_fields; [| | exact Hsel]; congruence.
Qed.

Lemma count_cons P e (evs : list Event) :
  count P (e :: evs) = (if P e then 1 else 0) + count P evs.
Proof.
  unfold count. rewrite filter_cons.
  destruct (P e); [rewrite decide_True by done | rewrite decide_False by done];
    done.
Qed.

Lemma count_all P (evs : list Event) :
  Forall (fun e => P e = true) evs -> count P evs = length evs.
Proof.
  induction 1 as [| e evs He _ IH]; [done |].
  rewrite count_cons, He, IH. done.
Qed.

Lemma selection_trace inp acc_val L L' w1 w' :
  selection inp acc_val L L' w1 w' ->
  exists snap,
    trace w' = trace w1 ++ snap
    /\ Forall (fun e => snapshot_event e = true) snap.
Proof.
  intros [(_ & -> & _) | (_ & _ & _ & Hs)].
  - exists []. by rewrite app_nil_r.
  - apply snapshot_inv in Hs as [(_ & Hr & _) | (o & _ & _ & _ & Ht & _)];
      [done |].
    eexists. split; [exact Ht |]. by repeat constructor.
Qed.

(** The events of a completed epoch, counted. *)
Lemma train_epoch_counts args inp L w w' L' :
  train_epoch args inp L w = (w', Ok L') ->
  exists evs,
    trace w' = trace w ++ evs
    /\ count is_optimizer_step evs + count_iters L = count_iters L'
    /\ count is_log evs
       = (if count_iters L' <? total_iters args then 1 else 0)
    /\ count is_validation_call evs = 1
    /\ count is_test_call evs = 0.
Proof.
  intros H. apply train_epoch_inv in H as (_ & _ & Hok).
  destruct (Hok L' eq_refl)
    as (steps & logs & q & k & evs_eval & acc_val & w1 & Hc & Hst & Hcnt
        & Hlogs & Hlen & Hev & _ & _ & _ & _ & Hsel).
  apply selection_trace in Hsel as (snap & Ht & Hsnap).
  destruct Hc as (_ & _ & _ & Ht1).
  exists (epoch_events inp steps logs (target_features L') q k evs_eval
            acc_val ++ snap).
  split; [by rewrite Ht, Ht1, app_assoc |].
  unfold epoch_events.
  repeat (rewrite ?count_app, ?count_cons). cbn [is_optimizer_step is_log
    is_validation_call is_test_call].
  rewrite (count_all is_log logs Hlogs).
  rewrite (count_none is_log step_event steps ltac:(kinds) Hst).
  rewrite (count_none is_validation_call step_event steps ltac:(kinds) Hst).
  rewrite (count_none is_test_call step_event steps ltac:(kinds) Hst).
  rewrite (count_none is_optimizer_step is_log logs ltac:(kinds) Hlogs).
  rewrite (count_none is_validation_call is_log logs ltac:(kinds) Hlogs).
  rewrite (count_none is_test_call is_log logs ltac:(kinds) Hlogs).
  rewrite (count_none is_optimizer_step eval_event evs_eval
             ltac:(kinds) Hev).
  rewrite (count_none is_log eval_event evs_eval ltac:(kinds) Hev).
  rewrite (count_none is_validation_call eval_event evs_eval
             ltac:(kinds) Hev).
  rewrite (count_none is_test_call eval_event evs_eval ltac:(kinds) Hev).
  rewrite (count_none is_optimizer_step snapshot_event snap ltac:(kinds) Hsnap).
  rewrite (count_none is_log snapshot_event snap ltac:(kinds) Hsnap).
  rewrite (count_none is_validation_call snapshot_event snap ltac:(kinds) Hsnap).
  rewrite (count_none is_test_call snapshot_event snap ltac:(kinds) Hsnap).
  change (count is_optimizer_step []) with 0.
  change (count is_log []) with 0.
  change (count is_validation_call []) with 0.
  change (count is_test_call []) with 0.
  repeat split; lia.
Qed.

(** Induction over the epochs of a loop that runs to its end. *)
Lemma train_while_ind args inp
    (R : Locals -> World -> Locals -> World -> Prop) :
  (forall L w, total_iters args <= count_iters L -> R L w L w) ->
  (forall L w L1 w1 L2 w2,
     count_iters L < total_iters args ->
     train_epoch args inp L w = (w1, Ok L1) ->
     R L1 w1 L2 w2 -> R L w L2 w2) ->
  forall fuel L w w' L',
    train_while fuel args inp L w = (w', Ok L') -> R L w L' w'.
Proof.
  intros Hexit Hstep. induction fuel as [| fuel IH]; intros L w w' L' H.
  - cbn [train_while] in H.
    destruct (Nat.ltb_spec (count_iters L) (total_iters args));
      [discriminate H |].
    inversion H; subst. by apply Hexit.
  - cbn [train_while] in H.
    destruct (Nat.ltb_spec (count_iters L) (total_iters args)) as [Hlt | Hge].
    + apply bind_inv in H as [(w1 & L1 & He & H) | (e & _ & Hbad)];
        [| discriminate Hbad].
      eapply Hstep; eauto.
    + inversion H; subst. by apply Hexit.
Qed.

(** A budget of [total_iters] epochs is never exhausted: an epoch
    that returns has advanced the iteration count. *)
Lemma train_while_genuine args inp fuel :
  forall L w,
    total_iters args - count_iters L <= fuel ->
    genuine_result (train_while fuel args inp L w).2.
Proof.
  induction fuel as [| fuel IH]; intros L w Hfuel; cbn [train_while].
  - destruct (Nat.ltb_spec (count_iters L) (total_iters args)); [lia | done].
  - destruct (Nat.ltb_spec (count_iters L) (total_iters args)) as [Hlt | Hge];
      [| done].
    unfold bind. destruct (train_epoch args inp L w) as [w1 [L1 | e]] eqn:He.
    + apply train_epoch_inv in He as (_ & _ & Hok).
      destruct (Hok L1 eq_refl)
        as (? & ? & ? & ? & ? & ? & ? & _ & _ & _ & _ & _ & _ & _ & _ & Hadv & _).
      destruct (Hadv Hlt) as [_ Hgt]. apply IH. lia.
    + apply train_epoch_inv in He as (Hg & _). done.
Qed.

(** The events of a loop that runs to its end, counted. *)
Lemma train_while_counts args inp fuel L w w' L' :
  train_while fuel args inp L w = (w', Ok L') ->
  count_iters L <= total_iters args ->
  count_iters L' = total_iters args
  /\ exists evs,
       trace w' = trace w ++ evs
       /\ count is_optimizer_step evs + count_iters L = total_iters args
       /\ count is_validation_call evs
          = count is_log evs
            + (if count_iters L <? total_iters args then 1 else 0)
       /\ count is_test_call evs = 0.
Proof.
  revert fuel L w w' L'.
  apply (train_while_ind args inp
           (fun L w L' w' =>
              count_iters L <= total_iters args ->
              count_iters L' = total_iters args
              /\ exists evs,
                   trace w' = trace w ++ evs
                   /\ count is_optimizer_step evs + count_iters L
                      = total_iters args
                   /\ count is_validation_call evs
                      = count is_log evs
                        + (if count_iters L <? total_iters args
                           then 1 else 0)
                   /\ count is_test_call evs = 0)).
  - intros L w Hge Hle. split; [lia |]. exists [].
    split; [by rewrite app_nil_r |].
    destruct (Nat.ltb_spec (count_iters L) (total_iters args)); [lia |].
    cbn. repeat split; lia.
  - intros L w L1 w1 L2 w2 Hlt He IH _.
    pose proof He as He'.
    apply train_epoch_counts in He' as (evs1 & Ht1 & Hs1 & Hl1 & Hv1 & Hx1).
    apply train_epoch_inv in He as (_ & _ & Hok).
    destruct (Hok L1 eq_refl)
      as (? & ? & ? & ? & ? & ? & ? & _ & _ & _ & _ & _ & _ & _ & _ & Hadv & _).
    destruct (Hadv Hlt) as [Hmin _].
    destruct IH as (Hfin & evs2 & Ht2 & Hs2 & Hv2 & Hx2); [lia |].
    split; [done |]. exists (evs1 ++ evs2).
    split; [by rewrite Ht2, Ht1, app_assoc |].
    rewrite !count_app.
    destruct (Nat.ltb_spec (count_iters L) (total_iters args)); [| lia].
    repeat split; lia.
Qed.

Lemma selection_best_acc inp acc_val L L' w1 w' :
  selection inp acc_val L L' w1 w' -> (best_acc L <= best_acc L')%Q.
Proof.
  intros [(_ & _ & -> & _) | (Hlt & -> & _)].
  - apply Qle_refl.
  - apply Qltb_lt in Hlt. by apply Qlt_le_weak.
Qed.

Lemma train_while_best_acc args inp fuel L w w' L' :
  train_while fuel args inp L w = (w', Ok L') ->
  (best_acc L <= best_acc L')%Q.
Proof.
  revert fuel L w w' L'.
  apply (train_while_ind args inp
           (fun L w L' w' => (best_acc L <= best_acc L')%Q)).
  - intros. apply Qle_refl.
  - intros L w L1 w1 L2 w2 _ He IH.
    apply train_epoch_inv in He as (_ & _ & Hok).
    destruct (Hok L1 eq_refl)
      as (? & ? & ? & ? & ? & acc_val & ? & _ & _ & _ & _ & _ & _ & _ & _
          & _ & _ & Hsel).
    eapply Qle_trans; [by eapply selection_best_acc | done].
Qed.

Lemma train_while_target_features args inp fuel L w w' L' :
  train_while fuel args inp L w = (w', Ok L') ->
  recompute_needed args (task_type inp) = false ->
  target_features L' = target_features L.
Proof.
  revert fuel L w w' L'.
  apply (train_while_ind args inp
           (fun L w L' w' =>
              recompute_needed args (task_type inp) = false ->
              target_features L' = target_features L)).
  - done.
  - intros L w L1 w1 L2 w2 _ He IH Hrec.
    apply train_epoch_inv in He as (_ & _ & Hok).
    destruct (Hok L1 eq_refl)
      as (? & ? & ? & ? & ? & ? & ? & _ & _ & _ & _ & _ & _ & _ & _
          & _ & Htf & _).
    rewrite (IH Hrec). auto.
Qed.

(** How an epoch treats the best checkpoint. *)
Lemma train_epoch_selection_events args inp L w w' L' :
  heap_ok inp L w ->
  train_epoch args inp L w = (w', Ok L') ->
  heap_ok inp L' w'
  /\ exists steps logs q k evs_eval acc_val snap,
       trace w' = trace w
                  ++ epoch_events inp steps logs (target_features L') q k
                       evs_eval acc_val
                  ++ snap
       /\ (Forall (fun e => step_event e = true) steps
           /\ Forall (fun e => is_log e = true) logs
           /\ Forall (fun e => eval_event e = true) evs_eval)
       /\ (forall l, l <> model inp -> l <> best_model L' ->
             heap w' !! l = None)
       /\ ((Qltb (best_acc L) acc_val = true
            /\ snap = [EvDeepCopy (model inp) (best_model L');
                       EvMoveTo (best_model L') Cpu]
            /\ best_acc L' = acc_val
            /\ best_model L' = next_loc w
            /\ best_model L' <> model inp
            /\ best_model L' <> best_model L
            /\ heap w !! best_model L' = None
            /\ exists o,
                 heap w' !! model inp = Some o
                 /\ heap w' !! best_model L'
                    = Some (mkModel (params o) Cpu (training o)))
           \/ (Qltb (best_acc L) acc_val = false
               /\ snap = []
               /\ best_acc L' = best_acc L
               /\ best_model L' = best_model L
               /\ (best_model L <> model inp ->
                   heap w' !! best_model L = heap w !! best_model L))).
Proof.
  intros [Hdom Hbound] H. apply train_epoch_inv in H as (_ & _ & Hok).
  destruct (Hok L' eq_refl)
    as (steps & logs & q & k & evs_eval & acc_val & w1 & Hc & Hst & _ & Hlogs
        & _ & Hev & _ & _ & _ & _ & Hsel).
  destruct Hc as (Hn1 & Hd1 & Hh1 & Ht1).
  assert (Hnone : forall h : gmap loc ModelObj,
            dom h = {[model inp; best_model L']} ->
            forall l, l <> model inp -> l <> best_model L' -> h !! l = None).
  { intros h Hh l H1 H2. apply not_elem_of_dom. rewrite Hh. set_solver. }
  destruct Hsel as [(Hcmp & -> & Hba & Hbm) | (Hcmp & Hba & Hbm & Hsnap)].
  - assert (Hok' : heap_ok inp L' w1).
    { split; [by rewrite Hd1, Hbm |]. intros l Hl. rewrite Hn1.
      apply Hbound. by rewrite <- Hd1. }
    split; [done |].
    exists steps, logs, q, k, evs_eval, acc_val, [].
    split; [by rewrite app_nil_r |]. split; [done |].
    split; [apply Hnone; apply Hok' |]. right.
    repeat (split; [done |]). intros Hne. rewrite Hbm in *. by apply Hh1.
  - apply snapshot_inv in Hsnap
      as [(_ & Hr & _) | (o & Ho & _ & Hn' & Ht' & Hh')]; [done |].
    set (l := next_loc w1) in *.
    assert (Hfresh : l ∉ dom (heap w1)).
    { intros Hin. rewrite Hd1 in Hin. apply Hbound in Hin. lia. }
    assert (Hlm : l <> model inp).
    { intros Heq. apply Hfresh. rewrite Hd1, Hdom, Heq. set_solver. }
    assert (Hlo : l <> best_model L).
    { intros Heq. apply Hfresh. rewrite Hd1, Hdom, Heq. set_solver. }
    assert (Hdom' : dom (heap w') = {[model inp; best_model L']}).
    { rewrite Hh', Hbm. fold l. case_bool_decide as Hold.
      - rewrite dom_insert_L, Hd1, Hdom, Hold. set_solver.
      - rewrite dom_delete_L, dom_insert_L, Hd1, Hdom. set_solver. }
    assert (Hm' : heap w' !! model inp = Some o).
    { rewrite Hh'. case_bool_decide as Hold.
      - rewrite lookup_insert_ne by done. done.
      - rewrite lookup_delete_ne by done. rewrite lookup_insert_ne by done.
        done. }
    assert (Hl' : heap w' !! l
                  = Some (mkModel (params o) Cpu (training o))).
    { rewrite Hh'. case_bool_decide as Hold.
      - by rewrite lookup_insert_eq.
      - rewrite lookup_delete_ne by done. by rewrite lookup_insert_eq. }
    split.
    { split; [done |]. intros x Hx. rewrite Hn'. fold l.
      rewrite Hdom', Hbm in Hx. fold l in Hx.
      assert (model inp < l).
      { rewrite Hn1. apply Hbound. rewrite Hdom. set_solver. }
      set_unfold in Hx. destruct Hx as [-> | ->]; lia. }
    exists steps, logs, q, k, evs_eval, acc_val,
      [EvDeepCopy (model inp) l; EvMoveTo l Cpu].
    split; [by rewrite Ht', Ht1, <- app_assoc |]. split; [done |].
    split; [by apply Hnone |]. left.
    rewrite Hbm. fold l. split; [done |]. split; [done |]. split; [done |].
    split; [done |]. split; [done |]. split; [done |]. split.
    + apply not_elem_of_dom. by rewrite <- Hd1.
    + exists o. done.
Qed.

Lemma train_epoch_selection args inp L w w' L' :
  heap_ok inp L w ->
  train_epoch args inp L w = (w', Ok L') ->
  heap_ok inp L' w'
  /\ exists steps logs q k evs_eval acc_val snap,
       trace w' = trace w
                  ++ epoch_events inp steps logs (target_features L') q k
                       evs_eval acc_val
                  ++ snap
       /\ (forall l, l <> model inp -> l <> best_model L' ->
             heap w' !! l = None)
       /\ ((Qltb (best_acc L) acc_val = true
            /\ snap = [EvDeepCopy (model inp) (best_model L');
                       EvMoveTo (best_model L') Cpu]
            /\ best_acc L' = acc_val
            /\ best_model L' = next_loc w
            /\ best_model L' <> model inp
            /\ best_model L' <> best_model L
            /\ heap w !! best_model L' = None
            /\ exists o,
                 heap w' !! model inp = Some o
                 /\ heap w' !! best_model L'
                    = Some (mkModel (params o) Cpu (training o)))
           \/ (Qltb (best_acc L) acc_val = false
               /\ snap = []
               /\ best_acc L' = best_acc L
               /\ best_model L' = best_model L
               /\ (best_model L <> model inp ->
                   heap w' !! best_model L = heap w !! best_model L))).
Proof.
  intros Hok H.
  destruct (train_epoch_selection_events args inp L w w' L' Hok H)
    as (Hok' & steps & logs & q & k & evs_eval & acc_val & snap & Ht & _
        & Hnone & Hsel).
  split; [done |]. exists steps, logs, q, k, evs_eval, acc_val, snap. done.
Qed.

Lemma train_while_heap_ok args inp fuel L w w' L' :
  train_while fuel args inp L w = (w', Ok L') ->
  heap_ok inp L w -> heap_ok inp L' w'.
Proof.
  revert fuel L w w' L'.
  apply (train_while_ind args inp
           (fun L w L' w' => heap_ok inp L w -> heap_ok inp L' w')).
  - done.
  - intros L w L1 w1 L2 w2 _ He IH Hok. apply IH.
    by destruct (train_epoch_selection args inp L w w1 L1 Hok He).
Qed.

Lemma to_cuda_inv m w w' r :
  to_cuda m w = (w', r) ->
  (heap w !! m = None /\ r = Raise DanglingReference /\ w' = w)
  \/ exists o,
       heap w !! m = Some o /\ r = Ok tt
       /\ changes m [EvMoveTo m Cuda] w w'
       /\ heap w' !! m = Some (mkModel (params o) Cuda (training o)).
Proof.
  unfold to_cuda. intros H.
  apply bind_inv in H as [(w1 & o & Hr & H) | (e & Hr & ->)];
    apply read_model_inv in Hr as [-> Ho].
  - right. exists o. rewrite bind_write in H. inversion H; subst w' r.
    split; [done |]. split; [done |].
    split; [by eapply changes_step |]. cbn. by rewrite lookup_insert_eq.
  - left. destruct Ho as [Hn ->]. done.
Qed.

(** Lines 185-197. *)
Lemma finish_inv args inp L w w' r :
  finish args inp L w = (w', r) ->
  genuine_result r
  /\ (meta_query L = None ->
      is_ok r = false
      /\ exists evs, changes (best_model L) evs w w'
           /\ Forall (fun e => after_evaluation e = false) evs
           /\ (best_model L ∈ dom (heap w) ->
               r = Raise (UnboundLocalError "meta_query")
               /\ evs = [EvMoveTo (best_model L) Cuda]))
  /\ (is_ok r = true ->
      exists q k evs_eval acc_test o t,
        meta_query L = Some q /\ meta_key L = Some k
        /\ changes (best_model L)
             (finish_events args inp L q k evs_eval acc_test) w w'
        /\ Forall (fun e => eval_event e = true) evs_eval
        /\ heap w !! best_model L = Some o
        /\ heap w' !! best_model L = Some (mkModel (params o) Cuda t)).
Proof.
  unfold finish. intros H.
  apply bind_inv in H as [(w1 & [] & Hs & H) | (e & Hs & ->)];
    apply to_cuda_inv in Hs
      as [(Hn & Hr & ->) | (o & Ho & Hr & Hc1 & Ho1)]; try done.
  2:{ inversion Hr; subst e. split; [done |]. split; [| done].
      intros _. split; [done |]. exists []. split; [apply changes_refl |].
      split; [constructor |]. intros Hd. apply not_elem_of_dom in Hn. done. }
  apply bind_inv in H as [(w2 & res & He & H) | (e & He & ->)];
    apply call_eval_inv in He as (Hg & Hunb & He).
  2:{ split; [done |]. split; [| done]. intros Hq.
      destruct (Hunb Hq) as [-> [= ->]]. split; [done |].
      exists [EvMoveTo (best_model L) Cuda]. split; [done |].
      split; [by repeat constructor |]. done. }
  destruct He as [[_ Hbad] | (q & k & rest & Hq & Hk & Hc2 & Hrest & Hkeep)];
    [done |].
  rewrite bind_emit in H.
  set (acc_test := res.1.1.1.1) in *.
  set (w3 := mkWorld (heap w2) (next_loc w2)
               (trace w2 ++ [EvPrintAccuracy Test acc_test])) in *.
  assert (Hc3 : changes (best_model L) [EvPrintAccuracy Test acc_test] w2 w3)
    by apply changes_emit.
  destruct (Hkeep _ Ho1) as [t Ht]. cbn [params device] in Ht.
  unfold save_checkpoint in H.
  split; [by destruct (save_path args); inversion H |].
  split; [intros Hn; congruence |]. intros _.
  exists q, k, rest, acc_test, o, t.
  split; [done |]. split; [done |].
  unfold finish_events.
  pose proof (changes_trans _ _ _ _ _ _ Hc1
                (changes_trans _ _ _ _ _ _ Hc2 Hc3)) as Hc.
  destruct (save_path args) as [dir |].
  - inversion H; subst w' r; clear H.
    split.
    + pose proof (changes_trans _ _ _ _ _ _ Hc
                    (changes_emit (best_model L)
                       (EvSave (best_model L)
                          (path_join dir (filename args ++ ".pth"))) w3))
        as Hc'.
      cbn in Hc'. rewrite <- app_assoc in Hc'. exact Hc'.
    + done.
  - inversion H; subst w' r; clear H. split; [| done].
    cbn in Hc. exact Hc.
Qed.

(** Lines 102-118. *)
Lemma init_locals_inv args inp tf0 w w' r :
  init_locals args inp tf0 w = (w', r) ->
  genuine_result r
  /\ (exists evs, changes (model inp) evs w w'
        /\ Forall (fun e => eval_event e = true) evs)
  /\ (forall L, r = Ok L ->
        count_iters L = 0 /\ best_acc L = 0%Q
        /\ best_model L = model inp
        /\ target_features L = tf0
        /\ image_features L = None
        /\ meta_query L
           = (if enable_MetaAdapter args then Some tf0 else None))
  /\ (enable_MetaAdapter args = false ->
      w' = w /\ (model inp ∈ dom (heap w) -> is_ok r = true)).
Proof.
  unfold init_locals, init_meta. destruct (enable_MetaAdapter args); intros H.
  - apply bind_inv in H as [(w1 & qk & Hi & H) | (e & Hi & ->)].
    + apply bind_inv in Hi as [(w2 & [] & Hs & Hi) | (e & _ & Hbad)];
        [| discriminate Hbad].
      apply set_mode_changes in Hs
        as [(_ & Hr & _) | (o & Ho & _ & Hc1 & Ho1)]; [done |].
      apply bind_inv in Hi as [(w3 & o' & Hr & Hi) | (e & _ & Hbad)];
        [| discriminate Hbad].
      apply read_model_inv in Hr as [-> Hr].
      rewrite bind_emit in Hi.
      apply bind_inv in Hi as [(w4 & k & Hk & Hi) | (e & _ & Hbad)];
        [| discriminate Hbad].
      apply lift_inv in Hk as [-> Hk]. inversion Hi; subst w1 qk; clear Hi.
      apply bind_inv in H as [(w5 & o2 & Hr2 & H) | (e & Hr2 & ->)];
        apply read_model_inv in Hr2 as [-> Hr2].
      2:{ cbn in Hr2. destruct Hr2 as [Hn _]. congruence. }
      inversion H; subst w' r; clear H.
      split; [done |]. split.
      { exists ([EvSetMode (model inp) false] ++ [EvSupportFeatures (model inp)]).
        split; [eapply changes_trans; [done |]; apply changes_emit |].
        by repeat constructor. }
      split; [| done]. intros L [= <-]. done.
    + split.
      { apply bind_inv in Hi as [(w2 & [] & Hs & Hi) | (e' & Hs & [= ->])].
        2:{ apply set_mode_changes in Hs as [(_ & [= ->] & _) | (o & _ & Hr & _)];
              done. }
        apply bind_inv in Hi as [(w3 & o' & Hr & Hi) | (e' & Hr & [= ->])].
        2:{ apply read_model_inv in Hr as [_ [_ ->]]. done. }
        rewrite bind_emit in Hi.
        apply bind_inv in Hi as [(w4 & k & Hk & Hi) | (e' & Hk & [= ->])];
          [done |].
        apply lift_inv in Hk as [_ [_ ->]]. done. }
      split; [| done].
      apply bind_inv in Hi as [(w2 & [] & Hs & Hi) | (e' & Hs & _)].
      2:{ apply set_mode_changes in Hs as [(_ & _ & ->) | (o & _ & Hr & _)];
            [| done].
          exists []. split; [apply changes_refl | constructor]. }
      apply set_mode_changes in Hs
        as [(_ & Hr & _) | (o & Ho & _ & Hc1 & Ho1)]; [done |].
      apply bind_inv in Hi as [(w3 & o' & Hr & Hi) | (e' & Hr & _)];
        apply read_model_inv in Hr as [-> Hr].
      2:{ exists [EvSetMode (model inp) false]. split; [done |].
          by repeat constructor. }
      rewrite bind_emit in Hi.
      apply bind_inv in Hi as [(w4 & k & Hk & Hi) | (e' & Hk & _)];
        [done |].
      apply lift_inv in Hk as [-> _].
      exists ([EvSetMode (model inp) false] ++ [EvSupportFeatures (model inp)]).
      split; [eapply changes_trans; [done |]; apply changes_emit |].
      by repeat constructor.
  - rewrite bind_ret in H.
    apply bind_inv in H as [(w1 & o & Hr & H) | (e & Hr & ->)];
      apply read_model_inv in Hr as [-> Hr].
    + inversion H; subst w' r; clear H. split; [done |].
      split; [exists []; split; [apply changes_refl | constructor] |].
      split; [| done]. intros L [= <-]. done.
    + destruct Hr as [Hn ->]. split; [done |].
      split; [exists []; split; [apply changes_refl | constructor] |].
      split; [done |]. intros _. split; [done |].
      intros Hd. apply not_elem_of_dom in Hn. done.
Qed.

(** A loop entered with [meta_query] unbound stops in its first
    epoch. *)
Lemma train_while_unbound args inp fuel L w w' r :
  meta_query L = None ->
  count_iters L < total_iters args ->
  train_while fuel args inp L w = (w', r) ->
  is_ok r = false
  /\ (fuel <> 0 ->
      exists w1 r1, train_epoch args inp L w = (w1, r1)
                    /\ w' = w1 /\ is_ok r1 = false
                    /\ forall e, r1 = Raise e -> r = Raise e).
Proof.
  intros Hq Hlt H. destruct fuel as [| fuel]; cbn [train_while] in H;
    destruct (Nat.ltb_spec (count_iters L) (total_iters args)); try lia.
  - inversion H; subst. done.
  - unfold bind in H.
    destruct (train_epoch args inp L w) as [w1 [L1 | e]] eqn:He.
    + apply train_epoch_inv in He as (_ & Hunb & _).
      destruct (Hunb Hq) as [Hbad _]. done.
    + inversion H; subst w' r; clear H. split; [done |]. intros _.
      exists w1, (Raise e). split; [done |]. split; [done |].
      split; [done |]. by intros e' [= <-].
Qed.

Lemma train_model_genuine args inp tf0 w :
  genuine_result (train_model args inp tf0 w).2.
Proof.
  destruct (train_model args inp tf0 w) as [w' r] eqn:H. cbn.
  unfold train_model in H.
  apply bind_inv in H as [(w1 & L & Hl & H) | (e & Hl & ->)].
  - by apply finish_inv in H as (Hg & _).
  - unfold train_loop in Hl.
    apply bind_inv in Hl as [(w1 & L & Hi & Hl) | (e' & Hi & [= ->])].
    + apply init_locals_inv in Hi as (_ & _ & Hok & _).
      destruct (Hok L eq_refl) as (Hc & _).
      pose proof (train_while_genuine args inp (total_iters args) L w1) as Hg.
      rewrite Hl in Hg. apply Hg. lia.
    + by apply init_locals_inv in Hi as (Hg & _).
Qed.

(** A run that returns has taken exactly [total_iters] optimizer
    steps. *)
Lemma train_model_steps args inp tf0 w w' :
  train_model args inp tf0 w = (w', Ok tt) ->
  exists evs,
    trace w' = trace w ++ evs
    /\ count is_optimizer_step evs = total_iters args
    /\ count is_test_call evs = 1.
Proof.
  unfold train_model, train_loop. intros H.
  apply bind_inv in H as [(w2 & L' & Hl & H) | (e & _ & Hbad)];
    [| discriminate Hbad].
  apply bind_inv in Hl as [(w1 & L & Hi & Hl) | (e & _ & Hbad)];
    [| discriminate Hbad].
  apply init_locals_inv in Hi as (_ & (evs0 & Hc0 & Hf0) & Hok & _).
  destruct (Hok L eq_refl) as (Hcnt & _).
  apply train_while_counts in Hl as (_ & evs1 & Ht1 & Hs1 & _ & Hx1); [| lia].
  apply finish_inv in H as (_ & _ & Hfin).
  destruct (Hfin eq_refl)
    as (q & k & evs_eval & a & o & t & _ & _ & Hc2 & Hev & _).
  exists (evs0 ++ evs1 ++ finish_events args inp L' q k evs_eval a).
  destruct Hc0 as (_ & _ & _ & Ht0). destruct Hc2 as (_ & _ & _ & Ht2).
  split; [by rewrite Ht2, Ht1, Ht0, <- !app_assoc |].
  unfold finish_events. repeat (rewrite ?count_app, ?count_cons).
  cbn [is_optimizer_step is_test_call].
  rewrite (count_none is_optimizer_step eval_event evs0 ltac:(kinds) Hf0).
  rewrite (count_none is_test_call eval_event evs0 ltac:(kinds) Hf0).
  rewrite (count_none is_optimizer_step eval_event evs_eval
             ltac:(kinds) Hev).
  rewrite (count_none is_test_call eval_event evs_eval ltac:(kinds) Hev).
  destruct (save_path args); rewrite ?count_cons;
    cbn [is_optimizer_step is_test_call];
    change (count is_optimizer_step []) with 0;
    change (count is_test_call []) with 0; split; lia.
Qed.

Lemma eval_not_after e : eval_event e = true -> after_evaluation e = false.
Proof. by destruct e. Qed.

End TrainingFacts.

(** ** The accumulation of the evaluation loop *)

Section EvaluationAccumulation.
Context {B : Backend}.

Lemma cls_acc_mean (cs : Tensor2) tg pr :
  mapM argmax cs = Some pr -> cls_acc cs tg = mean_correct pr tg.
Proof.
  intros Hm. unfold cls_acc, mean_correct.
  by rewrite (argmax_hits_correct_count cs tg pr Hm).
Qed.

Lemma eval_batch_ok args model ls tf mq mk st b w w' st' :
  eval_batch args model ls tf mq mk st b w = (w', Ok st') ->
  exists cs pred,
    st' = collect (images b) (target b) pred cs
            (accumulate (cls_acc cs (target b)) (length cs) st)
    /\ mapM argmax cs = Some pred
    /\ (BackendShapes B -> length cs = length (images b)).
Proof.
  unfold eval_batch. intros H.
  apply bind_inv in H as [(w1 & o & Ho & H) | (e & _ & Hbad)];
    [| discriminate Hbad].
  rewrite bind_emit in H.
  apply bind_inv in H as [(w2 & R & HR & H) | (e & _ & Hbad)];
    [| discriminate Hbad].
  apply bind_inv in H as [(w3 & cs & Hcs & H) | (e & _ & Hbad)];
    [| discriminate Hbad].
  apply scores_inv in Hcs as [-> [_ ->]].
  apply bind_inv in H as [(w3 & pred & Hp & H) | (e & _ & Hbad)];
    [| discriminate Hbad].
  apply lift_inv in Hp as [-> Hp].
  inversion H; subst w' st'; clear H. eexists _, pred.
  split; [reflexivity |]. split; [done |].
  intros HB. rewrite cosine_similarity_length. apply (encode_image_rows B HB).
Qed.

Lemma accumulate_fold_irrelevant (pairs : list (Q * nat)) :
  forall st1 st2 : EvalState,
    acc st1 = acc st2 -> eval_tot_samples st1 = eval_tot_samples st2 ->
    acc (foldl (fun st an => accumulate an.1 an.2 st) st1 pairs)
    = acc (foldl (fun st an => accumulate an.1 an.2 st) st2 pairs)
    /\ eval_tot_samples (foldl (fun st an => accumulate an.1 an.2 st) st1 pairs)
       = eval_tot_samples
           (foldl (fun st an => accumulate an.1 an.2 st) st2 pairs).
Proof.
  induction pairs as [| an pairs IH]; intros st1 st2 Ha Ht; [done |].
  cbn [foldl]. apply IH; unfold accumulate; cbn; congruence.
Qed.

(** The loop of [eval_model] is the weighted accumulation of the share
    of hits and the size of each batch, and it collects the predictions
    and the labels in loader order. *)
Lemma eval_batches_accumulate args model ls tf mq mk loader :
  BackendShapes B ->
  forall st w w' st',
    paired loader ->
    eval_batches args model ls tf mq mk loader st w = (w', Ok st') ->
    exists per_batch : list (list nat * list nat),
      Forall2 (fun b pt => pt.2 = target b /\ length pt.1 = length pt.2)
        loader per_batch
      /\ acc st'
         = acc (foldl (fun st an => accumulate an.1 an.2 st) st
                  (map (fun pt => (mean_correct pt.1 pt.2, length pt.2))
                     per_batch))
      /\ eval_tot_samples st'
         = eval_tot_samples
             (foldl (fun st an => accumulate an.1 an.2 st) st
                (map (fun pt => (mean_correct pt.1 pt.2, length pt.2))
                   per_batch))
      /\ all_predictions st' = all_predictions st ++ concat per_batch.*1
      /\ all_targets st' = all_targets st ++ concat per_batch.*2.
Proof.
  intros HB. induction loader as [| b rest IH]; intros st w w' st' Hp H.
  - inversion H; subst. exists []. split; [constructor |].
    cbn. by rewrite !app_nil_r.
  - cbn [eval_batches] in H.
    apply bind_inv in H as [(w1 & st1 & Hb & H) | (e & _ & Hbad)];
      [| discriminate Hbad].
    inversion Hp as [| ? ? Hpb Hprest]; subst.
    apply eval_batch_ok in Hb as (cs & pred & -> & Hm & Hlen).
    apply IH in H as (per_batch & Hall & Hacc & Htot & Hpr & Htg); [| done].
    assert (Hcs : length cs = length (target b)) by (rewrite Hlen; done).
    exists ((pred, target b) :: per_batch).
    split.
    { constructor; [| done]. split; [done |]. cbn.
      rewrite <- Hcs. symmetry. by eapply length_mapM. }
    cbn [map foldl fst snd].
    rewrite <- (cls_acc_mean cs (target b) pred Hm), <- Hcs.
    destruct (accumulate_fold_irrelevant
                (map (fun pt => (mean_correct pt.1 pt.2, length pt.2))
                   per_batch)
                (collect (images b) (target b) pred cs
                   (accumulate (cls_acc cs (target b)) (length cs) st))
                (accumulate (cls_acc cs (target b)) (length cs) st)
                eq_refl eq_refl) as [Ha Ht].
    split; [by rewrite Hacc, Ha |]. split; [by rewrite Htot, Ht |].
    rewrite Hpr, Htg. cbn. by rewrite <- !app_assoc.
Qed.

Lemma per_batch_targets (loader : Loader) (per_batch : list (list nat * list nat)) :
  Forall2 (fun b pt => pt.2 = target b /\ length pt.1 = length pt.2)
    loader per_batch ->
  concat per_batch.*2 = flat_map target loader.
Proof.
  induction 1 as [| b pt loader per_batch [Ht _] _ IH]; [done |].
  cbn. by rewrite Ht, IH.
Qed.

Lemma eval_model_accumulate args model ls loader tf sil mq mk w w'
    a imgs tg pr sims :
  BackendShapes B -> paired loader ->
  eval_model args model ls loader tf sil mq mk w
  = (w', Ok (a, imgs, tg, pr, sims)) ->
  exists per_batch : list (list nat * list nat),
    Forall2 (fun b pt => pt.2 = target b /\ length pt.1 = length pt.2)
      loader per_batch
    /\ pr = concat per_batch.*1
    /\ tg = concat per_batch.*2
    /\ (weighted_accuracy
          (map (fun pt => (mean_correct pt.1 pt.2, length pt.2)) per_batch)
          w').2 = Ok a.
Proof.
  intros HB Hp. unfold eval_model.
  destruct ((is_None mk || is_None mq) && is_None sil); [done |]. intros H.
  apply bind_inv in H as [(w1 & [] & _ & H) | (e & _ & Hbad)];
    [| discriminate Hbad].
  apply bind_inv in H as [(w2 & qk & _ & H) | (e & _ & Hbad)];
    [| discriminate Hbad].
  apply bind_inv in H as [(w3 & st & Hb & H) | (e & _ & Hbad)];
    [| discriminate Hbad].
  apply bind_inv in H as [(w4 & a' & Hd & H) | (e & _ & Hbad)];
    [| discriminate Hbad].
  inversion H; subst; clear H.
  apply eval_batches_accumulate in Hb
    as (per_batch & Hall & Hacc & Htot & Hpr & Htg); [| done | done].
  exists per_batch. split; [done |]. split; [done |]. split; [done |].
  unfold weighted_accuracy. rewrite <- Hacc, <- Htot.
  unfold divide in *. destruct (eval_tot_samples st =? 0); [done |].
  by inversion Hd.
Qed.

End EvaluationAccumulation.

(** ** Runs that return *)

Section Completion.
Context {B : Backend}.

Lemma update_cache_keys_meta args b f (mk : Tensor3) w K M :
  enable_MetaAdapter args = true ->
  Memory.well_shaped K M mk ->
  Forall (fun t => t < K) (target b) ->
  exists mk',
    update_cache_keys args b (Some f) (Some mk) w = (w, Ok (Some mk'))
    /\ Memory.update mk (zip (target b) f) = Ok mk'
    /\ Memory.well_shaped K M mk'
    /\ forall c, c ∉ target b -> mk' !! c = mk !! c.
Proof.
  intros Hm Hws Hlab.
  destruct (update_preserves K M (zip (target b) f) mk Hws)
    as (mk' & Hup & Hws' & Hother).
  { apply Forall_forall. intros [t e] Hin. cbn.
    apply elem_of_zip_l in Hin. rewrite Forall_forall in Hlab. auto. }
  exists mk'. split; [| split; [done | split; [done |]]].
  - unfold update_cache_keys. rewrite Hm. cbn. unfold bind. cbn.
    rewrite Hup. reflexivity.
  - intros c Hc. apply Hother. intros Hin.
    apply list_elem_of_fmap in Hin as ([t e] & -> & Hin).
    apply elem_of_zip_l in Hin. done.
Qed.


Lemma is_ok_bind {A C} (c : M A) (k : A -> M C) w :
  (forall w1 r, c w = (w1, r) ->
     exists a, r = Ok a /\ is_ok (k a w1).2 = true) ->
  is_ok (bind c k w).2 = true.
Proof.
  intros H. unfold bind. destruct (c w) as [w1 r] eqn:Hc.
  destruct (H w1 r eq_refl) as (a & -> & Hk). done.
Qed.

Lemma reference_set_is_ok args model p tf mq mk w :
  BackendShapes B -> scorable args tf mq mk ->
  exists w' R, reference_set args model p tf mq mk w = (w', Ok R)
               /\ R <> [] /\ widths_agree R.
Proof.
  intros HB Hs. unfold reference_set, scorable in *.
  destruct (enable_MetaAdapter args).
  - destruct Hs as (q & k & -> & -> & Hq & Hw). cbn. eexists _, _.
    split; [reflexivity |]. split; [| done].
    intros Hnil. apply (f_equal length) in Hnil.
    rewrite (meta_adapter_rows B HB) in Hnil. by destruct q.
  - destruct Hs as (R & -> & HR & Hw). cbn. eauto.
Qed.

Lemma argmax_scores_is_Some ls (feats R : Tensor2) :
  R <> [] -> is_Some (mapM argmax (cosine_similarity ls feats R)).
Proof.
  intros HR. apply mapM_is_Some. unfold cosine_similarity, matmul_t.
  apply Forall_forall. intros row Hrow.
  apply list_elem_of_fmap in Hrow as (a & -> & _). cbn.
  apply argmax_is_Some. by destruct R.
Qed.

Lemma eval_batch_is_ok args model ls tf mq mk st b w o :
  BackendShapes B -> scorable args tf mq mk ->
  heap w !! model = Some o ->
  exists w' st',
    eval_batch args model ls tf mq mk st b w = (w', Ok st')
    /\ eval_tot_samples st' = eval_tot_samples st + length (images b).
Proof.
  intros HB Hs Ho.
  destruct (eval_batch args model ls tf mq mk st b w) as [w' r] eqn:H.
  assert (Hok : is_ok r = true).
  { change r with (w', r).2. rewrite <- H. unfold eval_batch.
    apply is_ok_bind. intros w1 r1 Hr.
    apply read_model_inv in Hr as [-> Hr]. destruct r1 as [o1 | e].
    2:{ destruct Hr as [Hn _]. congruence. }
    exists o1. split; [done |]. rewrite bind_emit.
    apply is_ok_bind. intros w2 r2 HR.
    destruct (reference_set_is_ok args model (params o1) tf mq mk
                (mkWorld (heap w) (next_loc w)
                   (trace w ++ [EvEncodeImage model (images b)])) HB Hs)
      as (w2' & R & HR' & HRne & HRw).
    rewrite HR' in HR. inversion HR; subst w2 r2; clear HR.
    exists R. split; [done |].
    apply is_ok_bind. intros w3 r3 Hsc. unfold scores in Hsc.
    rewrite HRw in Hsc. inversion Hsc; subst w3 r3; clear Hsc.
    eexists. split; [reflexivity |].
    destruct (argmax_scores_is_Some ls (encode_image (params o1) (images b))
                R HRne) as [pred Hp].
    apply is_ok_bind. intros w3 r3 Hl. rewrite Hp in Hl. cbn in Hl.
    inversion Hl; subst. eauto. }
  destruct r as [st' | e]; [| done]. exists w', st'. split; [done |].
  apply eval_batch_ok in H as (cs & pred & -> & _ & Hlen).
  cbn. by rewrite (Hlen HB).
Qed.

Lemma eval_batches_is_ok args model ls tf mq mk loader :
  BackendShapes B -> scorable args tf mq mk ->
  forall st w o,
    heap w !! model = Some o ->
    exists w' st',
      eval_batches args model ls tf mq mk loader st w = (w', Ok st')
      /\ eval_tot_samples st'
         = eval_tot_samples st + length (flat_map images loader).
Proof.
  intros HB Hs. induction loader as [| b rest IH]; intros st w o Ho.
  - exists w, st. cbn. split; [done | lia].
  - destruct (eval_batch_is_ok args model ls tf mq mk st b w o HB Hs Ho)
      as (w1 & st1 & Hb & Ht1).
    pose proof Hb as Hb'. apply eval_batch_inv in Hb' as (_ & Hh & _).
    destruct (IH st1 w1 o) as (w' & st' & Hr & Ht); [by rewrite Hh |].
    exists w', st'. cbn [eval_batches]. unfold bind at 1. rewrite Hb.
    split; [done |]. cbn [flat_map]. rewrite length_app. lia.
Qed.

(** [eval_model] returns when the model exists, the reference set can be
    computed and the loader yields a sample. *)
Lemma eval_model_is_ok args model ls loader tf sil mq mk w o :
  BackendShapes B -> scorable args tf mq mk ->
  (is_None mk || is_None mq) && is_None sil = false ->
  (enable_MetaAdapter args = true -> is_None mq || is_None mk = false) ->
  heap w !! model = Some o ->
  flat_map images loader <> [] ->
  is_ok (eval_model args model ls loader tf sil mq mk w).2 = true.
Proof.
  intros HB Hs Hsrc Hgiven Ho Hne. unfold eval_model. rewrite Hsrc.
  apply is_ok_bind. intros w1 r1 Hm.
  apply set_mode_changes in Hm as [(Hn & _) | (o' & Ho' & -> & Hc & Ho1)];
    [congruence |].
  exists tt. split; [done |].
  assert (Hres : resolve_meta args model tf sil mq mk w1 = (w1, Ok (mq, mk))).
  { unfold resolve_meta. destruct (enable_MetaAdapter args); [| done].
    rewrite (Hgiven eq_refl). done. }
  apply is_ok_bind. intros w2 r2 Hr. rewrite Hres in Hr.
  inversion Hr; subst w2 r2; clear Hr. eexists. split; [reflexivity |].
  cbn [fst snd].
  destruct (eval_batches_is_ok args model ls tf mq mk loader HB Hs
              (mkEvalState 0 0 [] [] [] []) w1 _ Ho1)
    as (w3 & st & Hb & Ht).
  apply is_ok_bind. intros w4 r4 Hb'. rewrite Hb in Hb'.
  inversion Hb'; subst w4 r4; clear Hb'. exists st. split; [done |].
  apply is_ok_bind. intros w5 r5 Hd. unfold divide in Hd.
  destruct (Nat.eqb_spec (eval_tot_samples st) 0) as [H0 | _].
  { rewrite Ht in H0. cbn in H0. destruct (flat_map images loader); done. }
  inversion Hd; subst. eauto.
Qed.

Lemma changes_same_objects m evs w w' :
  changes m evs w w' -> same_objects w w'.
Proof. intros (Hn & Hd & _). done. Qed.

Lemma train_scores_meta args inp p tf L f q k w :
  enable_MetaAdapter args = true ->
  meta_query L = Some q -> meta_key L = Some k ->
  conformable f (meta_adapter p q k k) = true ->
  train_scores args inp p tf L (Some f) w
  = (mkWorld (heap w) (next_loc w) (trace w ++ [EvMetaAdapter (model inp)]),
     Ok (cosine_similarity (logit_scale inp) f (meta_adapter p q k k))).
Proof.
  intros Hm Hq Hk Hc. unfold train_scores. rewrite Hm, Hq, Hk. cbn.
  unfold bind. cbn. unfold scores. by rewrite Hc.
Qed.

Lemma fits_intro (f R : Tensor2) tg :
  conformable f R = true -> length f = length tg ->
  Forall (fun t => t < length R) tg -> fits f R tg = true.
Proof.
  intros Hc Hl Hlab. unfold fits. rewrite Hc, Hl, Nat.eqb_refl. cbn.
  apply forallb_forall. intros t Ht. apply Nat.ltb_lt.
  rewrite Forall_forall in Hlab. by apply Hlab, list_elem_of_In.
Qed.

(** A step of a well-formed run with the meta-adapter returns, and
    leaves in [meta_key] the memory updated with the labels and the
    embeddings of its batch. *)
Lemma train_step_runs args inp K M L b w o q k :
  BackendShapes B ->
  enable_MetaAdapter args = true -> encodes_images args = true ->
  meta_query L = Some q -> length q = K ->
  meta_key L = Some k -> Memory.well_shaped K M k ->
  (forall p k', widths_agree (meta_adapter p q k' k')) ->
  heap w !! model inp = Some o ->
  length (images b) = length (target b) ->
  Forall (fun t => t < K) (target b) ->
  exists w' L' k',
    train_step args inp L b w = (w', Ok L')
    /\ meta_query L' = Some q /\ meta_key L' = Some k'
    /\ Memory.update k (zip (target b) (encode_image (params o) (images b)))
       = Ok k'
    /\ Memory.well_shaped K M k'
    /\ same_objects w w'.
Proof.
  intros HB Hm He Hq HK Hk Hws Hwd Ho Hpair Hlab.
  set (f := encode_image (params o) (images b)).
  destruct (update_cache_keys_meta args b f k w K M Hm Hws Hlab)
    as (k' & _ & Hup & Hws' & _).
  assert (Hupd : forall w0,
            update_cache_keys args b (Some f) (Some k) w0
            = (w0, Ok (Some k'))).
  { intros w0.
    destruct (update_cache_keys_meta args b f k w0 K M Hm Hws Hlab)
      as (k'' & Heq & Hup' & _).
    rewrite Hup in Hup'. by inversion Hup'; subst. }
  assert (Hfit : fits f (meta_adapter (params o) q k k) (target b) = true).
  { apply fits_intro; [apply Hwd | |].
    - unfold f. by rewrite (encode_image_rows B HB).
    - by rewrite (meta_adapter_rows B HB), HK. }
  assert (Hrun : exists w' L',
            train_step args inp L b w = (w', Ok L')
            /\ meta_query L' = Some q /\ meta_key L' = Some k').
  { unfold train_step.
    rewrite (bind_ok _ _ w w o) by (unfold read_model; by rewrite Ho).
    destruct (load_label_features args inp (params o) (target_features L) w)
      as [w1 r1] eqn:Hl.
    pose proof Hl as Hl'. apply load_label_features_inv in Hl' as (_ & _ & ->).
    rewrite (bind_ok _ _ _ _ _ Hl).
    destruct (forward_images args inp (params o) b (image_features L) w1)
      as [w2 r2] eqn:Hf.
    pose proof Hf as Hf'. apply forward_images_inv in Hf' as (_ & _ & ->).
    rewrite He in Hf. rewrite (bind_ok _ _ _ _ _ Hf). fold f.
    rewrite (bind_ok _ _ _ _ _
               (train_scores_meta args inp (params o) _ L f q k w2 Hm Hq Hk
                  (fits_conformable _ _ _ Hfit))).
    rewrite (bind_ok _ _ _ _ _ (check_targets_ok _ _ _ _ _ Hfit)).
    rewrite bind_write, bind_emit. rewrite Hk.
    rewrite (bind_ok _ _ _ _ _ (Hupd _)).
    eexists _, _. split; [reflexivity |]. done. }
  destruct Hrun as (w' & L' & Hs & Hq' & Hk').
  exists w', L', k'. repeat (split; [done |]).
  apply train_step_inv in Hs as (evs & Hc & _). by eapply changes_same_objects.
Qed.

Lemma train_step_returns args inp K M L b w :
  BackendShapes B ->
  enable_MetaAdapter args = true -> encodes_images args = true ->
  ready K M L -> model inp ∈ dom (heap w) ->
  length (images b) = length (target b) ->
  Forall (fun t => t < K) (target b) ->
  exists w' L',
    train_step args inp L b w = (w', Ok L')
    /\ ready K M L' /\ same_objects w w'.
Proof.
  intros HB Hm He (q & k & Hq & HK & HK0 & Hk & Hws & Hwd) Hd Hpair Hlab.
  apply elem_of_dom in Hd as [o Ho].
  destruct (train_step_runs args inp K M L b w o q k HB Hm He Hq HK Hk Hws
              Hwd Ho Hpair Hlab)
    as (w' & L' & k' & Hs & Hq' & Hk' & _ & Hws' & Hso).
  exists w', L'. split; [done |]. split; [by exists q, k' | done].
Qed.

Lemma same_objects_trans w1 w2 w3 :
  same_objects w1 w2 -> same_objects w2 w3 -> same_objects w1 w3.
Proof. intros [? ?] [? ?]. split; congruence. Qed.

Lemma run_batches_returns args inp K M bs :
  BackendShapes B ->
  enable_MetaAdapter args = true -> encodes_images args = true ->
  paired bs ->
  Forall (fun b => Forall (fun t => t < K) (target b)) bs ->
  forall L w,
    ready K M L -> model inp ∈ dom (heap w) ->
    exists w' L',
      run_batches args inp bs L w = (w', Ok L')
      /\ ready K M L' /\ same_objects w w'.
Proof.
  intros HB Hm He Hpair Hlab. revert Hpair.
  induction Hlab as [| b rest Hb Hrest IH]; intros Hpair L w Hr Hd.
  - exists w, L. done.
  - inversion Hpair as [| ? ? Hpb Hprest]; subst.
    specialize (IH Hprest).
    destruct (train_step_returns args inp K M L b w HB Hm He Hr Hd Hpb Hb)
      as (w1 & L1 & Hs & Hr1 & Hso1).
    cbn [run_batches]. unfold bind. rewrite Hs.
    destruct (count_iters L1 =? total_iters args).
    + exists w1, L1. done.
    + destruct (IH L1 w1 Hr1) as (w' & L' & Hrun & Hr' & Hso').
      { destruct Hso1 as [-> _]. done. }
      exists w', L'. split; [done |]. split; [done |].
      by eapply same_objects_trans.
Qed.

Lemma save_best_meta inp acc_val L w w' L' :
  save_best inp acc_val L w = (w', Ok L') ->
  meta_query L' = meta_query L /\ meta_key L' = meta_key L.
Proof.
  unfold save_best. destruct (Qltb (best_acc L) acc_val); intros H.
  - apply bind_inv in H as [(w1 & l & _ & H) | (e & _ & Hbad)];
      [| discriminate Hbad].
    by inversion H.
  - by inversion H.
Qed.

Lemma validate_meta args inp L w w' L' :
  validate args inp L w = (w', Ok L') ->
  meta_query L' = meta_query L /\ meta_key L' = meta_key L.
Proof.
  unfold validate. intros H.
  apply bind_inv in H as [(w1 & [] & _ & H) | (e & _ & Hbad)];
    [| discriminate Hbad].
  apply bind_inv in H as [(w2 & res & _ & H) | (e & _ & Hbad)];
    [| discriminate Hbad].
  rewrite bind_emit in H. by eapply save_best_meta.
Qed.

Lemma validate_returns args inp K M L w o :
  BackendShapes B ->
  enable_MetaAdapter args = true ->
  ready K M L -> heap w !! model inp = Some o ->
  flat_map images (val_loader inp) <> [] ->
  exists w' L', validate args inp L w = (w', Ok L') /\ ready K M L'.
Proof.
  intros HB Hm (q & k & Hq & HK & HK0 & Hk & Hws & Hwd) Ho Hval.
  assert (Hok : is_ok (validate args inp L w).2 = true).
  { unfold validate. apply is_ok_bind. intros w1 r1 Hs.
    apply set_mode_changes in Hs as [(Hn & _) | (o1 & _ & -> & Hc1 & Ho1)];
      [congruence |].
    exists tt. split; [done |]. apply is_ok_bind. intros w2 r2 He.
    unfold call_eval, read_local in He. rewrite Hq, Hk in He.
    cbn [lift] in He. rewrite !bind_ret, bind_emit in He.
    match type of He with
    | eval_model ?a ?m ?ls ?ld ?tf ?sil ?mq ?mk ?w0 = _ =>
        pose proof (eval_model_is_ok a m ls ld tf sil mq mk w0
                      (mkModel (params o1) (device o1) false) HB) as Hev;
        pose proof (eval_model_inv a m ls ld tf sil mq mk w0 w2 r2 He)
          as ((evs & Hc2 & _) & _)
    end.
    rewrite He in Hev. cbn in Hev.
    destruct r2 as [res | e].
    2:{ exfalso. enough (false = true) by done. apply Hev; try done.
        unfold scorable. rewrite Hm. exists q, k. split; [done |].
        split; [done |]. split; [| by intros p'].
        destruct q; [cbn in HK; lia | done]. }
    exists res. split; [done |]. rewrite bind_emit.
    unfold save_best. destruct (Qltb (best_acc L) res.1.1.1.1); [| done].
    apply is_ok_bind. intros w3 r3 Hsn.
    apply snapshot_inv in Hsn as [(Hn & _) | (o3 & _ & -> & _)];
      [| eauto].
    exfalso. cbn in Hn. apply not_elem_of_dom in Hn. apply Hn.
    destruct Hc2 as (_ & -> & _). cbn. destruct Hc1 as (_ & -> & _).
    by apply elem_of_dom. }
  destruct (validate args inp L w) as [w' [L' | e]] eqn:Hv; [| done].
  exists w', L'. split; [done |].
  apply validate_meta in Hv as [Hmq Hmk].
  exists q, k. rewrite Hmq, Hmk. done.
Qed.

Lemma heap_ok_model inp L w : heap_ok inp L w -> model inp ∈ dom (heap w).
Proof. intros [-> _]. set_solver. Qed.

Lemma heap_ok_best inp L w : heap_ok inp L w -> best_model L ∈ dom (heap w).
Proof. intros [-> _]. set_solver. Qed.

(** An epoch of a well-formed run with the meta-adapter returns. *)
Lemma train_epoch_returns args inp K M L w :
  BackendShapes B ->
  enable_MetaAdapter args = true -> encodes_images args = true ->
  ready K M L -> heap_ok inp L w ->
  paired (train_loader inp) ->
  Forall (fun b => Forall (fun t => t < K) (target b)) (train_loader inp) ->
  (exists b rest, train_loader inp = b :: rest /\ target b <> []) ->
  flat_map images (val_loader inp) <> [] ->
  exists w' L',
    train_epoch args inp L w = (w', Ok L') /\ ready K M L' /\ heap_ok inp L' w'.
Proof.
  intros HB Hm He Hr Hok Hpair Hlab (b & rest & Hloader & Hb) Hval.
  pose proof (heap_ok_model inp L w Hok) as Hd.
  enough (Hrun : exists w' L',
            train_epoch args inp L w = (w', Ok L') /\ ready K M L').
  { destruct Hrun as (w' & L' & Hep & Hr'). exists w', L'.
    split; [done |]. split; [done |].
    by destruct (train_epoch_selection args inp L w w' L' Hok Hep). }
  unfold train_epoch.
  destruct (set_mode (model inp) true w) as [w1 r1] eqn:Hs.
  pose proof Hs as Hs'.
  apply set_mode_changes in Hs' as [(Hn & _) | (o & Ho & -> & Hc1 & Ho1)].
  { apply not_elem_of_dom in Hn. done. }
  unfold bind at 1. rewrite Hs.
  set (L0 := mkLocals (target_features L) (meta_query L) (meta_key L)
               (image_features L) (optimizer L) (count_iters L)
               (best_acc L) (best_model L) 0 0 0) in *.
  assert (Hr0 : ready K M L0) by exact Hr.
  assert (Hd1 : model inp ∈ dom (heap w1)).
  { destruct Hc1 as (_ & -> & _). done. }
  destruct (run_batches_returns args inp K M (train_loader inp) HB Hm He
              Hpair Hlab L0 w1 Hr0 Hd1) as (w2 & L1 & Hrun & Hr1 & Hso2).
  unfold bind at 1. rewrite Hrun.
  pose proof Hrun as Hrun'.
  apply run_batches_inv in Hrun' as (evs1 & ? & ? & ? & Hok1 & ?).
  destruct (Hok1 L1 eq_refl) as (? & ? & ? & ? & ? & ? & ? & Htot & ?).
  specialize (Htot b rest Hloader).
  destruct (log_epoch args L1 w2) as [w3 r3] eqn:Hl.
  pose proof Hl as Hl'.
  apply log_epoch_inv in Hl' as (Hh3 & Hn3 & _ & Hcase).
  destruct Hcase as [(_ & _ & Ht0 & _) | (L2 & logs & -> & _ & _ & _ & _ & _
                                          & _ & _ & Hmq2 & Hmk2 & _)].
  { destruct (target b); [done |]. cbn in Htot. lia. }
  unfold bind at 1. rewrite Hl.
  assert (Hr2 : ready K M L2).
  { destruct Hr1 as (q & k & ? & ? & ? & ? & ? & ?). exists q, k.
    rewrite Hmq2, Hmk2. done. }
  assert (Hd3 : model inp ∈ dom (heap w3)).
  { rewrite Hh3. destruct Hso2 as [-> _]. done. }
  apply elem_of_dom in Hd3 as [o3 Ho3].
  destruct (validate_returns args inp K M L2 w3 o3 HB Hm Hr2 Ho3 Hval)
    as (w' & L' & Hv & Hr').
  exists w', L'. done.
Qed.

Lemma train_while_returns args inp K M fuel :
  BackendShapes B ->
  enable_MetaAdapter args = true -> encodes_images args = true ->
  paired (train_loader inp) ->
  Forall (fun b => Forall (fun t => t < K) (target b)) (train_loader inp) ->
  (exists b rest, train_loader inp = b :: rest /\ target b <> []) ->
  flat_map images (val_loader inp) <> [] ->
  forall L w,
    total_iters args - count_iters L <= fuel ->
    ready K M L -> heap_ok inp L w ->
    exists w' L',
      train_while fuel args inp L w = (w', Ok L')
      /\ ready K M L' /\ heap_ok inp L' w'.
Proof.
  intros HB Hm He Hpair Hlab Hfirst Hval.
  induction fuel as [| fuel IH]; intros L w Hfuel Hr Hok; cbn [train_while];
    destruct (Nat.ltb_spec (count_iters L) (total_iters args)) as [Hlt | Hge];
    try lia; try (exists w, L; done).
  destruct (train_epoch_returns args inp K M L w HB Hm He Hr Hok Hpair Hlab
              Hfirst Hval)
    as (w1 & L1 & Hep & Hr1 & Hok1).
  unfold bind. rewrite Hep.
  apply train_epoch_inv in Hep as (_ & _ & Hokep).
  destruct (Hokep L1 eq_refl)
    as (? & ? & ? & ? & ? & ? & ? & _ & _ & _ & _ & _ & _ & _ & _ & Hadv & _).
  destruct (Hadv Hlt) as [_ Hgt]. apply IH; [lia | done | done].
Qed.

Lemma finish_returns args inp K M L w :
  BackendShapes B -> enable_MetaAdapter args = true ->
  ready K M L -> heap_ok inp L w ->
  flat_map images (test_loader inp) <> [] ->
  exists w', finish args inp L w = (w', Ok tt).
Proof.
  intros HB Hm (q & k & Hq & HK & HK0 & Hk & Hws & Hwd) Hok Htest.
  pose proof (heap_ok_best inp L w Hok) as Hd.
  apply elem_of_dom in Hd as [o Ho].
  enough (Hr : is_ok (finish args inp L w).2 = true).
  { destruct (finish args inp L w) as [w' [[] | e]]; [eauto | done]. }
  unfold finish. apply is_ok_bind. intros w1 r1 Hs.
  apply to_cuda_inv in Hs as [(Hn & _) | (o1 & _ & -> & Hc1 & Ho1)];
    [congruence |].
  exists tt. split; [done |]. apply is_ok_bind. intros w2 r2 He.
  unfold call_eval, read_local in He. rewrite Hq, Hk in He.
  cbn [lift] in He. rewrite !bind_ret, bind_emit in He.
  match type of He with
  | eval_model ?a ?m ?ls ?ld ?tf ?sil ?mq ?mk ?w0 = _ =>
      pose proof (eval_model_is_ok a m ls ld tf sil mq mk w0
                    (mkModel (params o1) Cuda (training o1)) HB) as Hev
  end.
  rewrite He in Hev. cbn in Hev.
  destruct r2 as [res | e].
  2:{ exfalso. enough (false = true) by done. apply Hev; try done.
      unfold scorable. rewrite Hm. exists q, k. split; [done |].
      split; [done |]. split; [| by intros p'].
        destruct q; [cbn in HK; lia | done]. }
  exists res. split; [done |]. rewrite bind_emit.
  unfold save_checkpoint. by destruct (save_path args).
Qed.

Lemma length_chunks {A} width count (l : list A) :
  length (chunks width count l) = count.
Proof.
  revert l. induction count as [| c IH]; intros l; [done |].
  cbn. by rewrite IH.
Qed.

Lemma reshape3_well_shaped K D (t : Tensor2) k :
  reshape3 K D t = Some k ->
  0 < K /\ exists M, Memory.well_shaped K M k.
Proof.
  unfold reshape3. destruct (Nat.eqb_spec (K * D) 0) as [H0 | Hne]; [done |].
  cbn. destruct (negb _); [done |]. intros [= <-].
  split; [lia |]. exists (length (concat t) / (K * D)). split.
  - by rewrite length_map, length_chunks.
  - apply Forall_forall. intros row Hrow.
    apply list_elem_of_fmap in Hrow as (x & -> & _). apply length_chunks.
Qed.

Lemma init_locals_returns args inp tf0 w o k0 :
  enable_MetaAdapter args = true ->
  heap w !! model inp = Some o ->
  dom (heap w) = {[ model inp ]} ->
  model inp < next_loc w ->
  reshape3 (length tf0) (length (hd [] tf0))
    (get_vision_target_features (params o) (val_loader inp)) = Some k0 ->
  (forall p k, widths_agree (meta_adapter p tf0 k k)) ->
  exists w' L M,
    init_locals args inp tf0 w = (w', Ok L)
    /\ ready (length tf0) M L /\ heap_ok inp L w' /\ count_iters L = 0.
Proof.
  intros Hm Ho Hdom Hlt Hre Hwd.
  destruct (reshape3_well_shaped _ _ _ _ Hre) as (HK & M & Hws).
  set (o1 := mkModel (params o) (device o) false).
  set (w1 := mkWorld (<[model inp := o1]> (heap w)) (next_loc w)
               (trace w ++ [EvSetMode (model inp) false])).
  assert (Hs : set_mode (model inp) false w = (w1, Ok tt)).
  { unfold set_mode, read_model, bind. rewrite Ho. reflexivity. }
  assert (Hr1 : forall w2, heap w2 = heap w1 ->
                  read_model (model inp) w2 = (w2, Ok o1)).
  { intros w2 Hw2. unfold read_model. rewrite Hw2. cbn [heap w1].
    rewrite lookup_insert_eq. reflexivity. }
  set (w2 := mkWorld (heap w1) (next_loc w1)
               (trace w1 ++ [EvSupportFeatures (model inp)])).
  exists w2,
    (mkLocals tf0 (Some tf0) (Some k0) None
       (make_optimizer (params o1) (lr args) (total_iters args))
       0 0 (model inp) 0 0 0), M.
  split.
  - unfold init_locals, init_meta. rewrite Hm.
    unfold bind at 1. unfold bind at 1. rewrite Hs.
    unfold bind at 1. rewrite (Hr1 w1 eq_refl).
    rewrite bind_emit. fold w2. unfold bind at 1.
    cbn [params o1]. rewrite Hre. cbn [lift ret].
    unfold bind. rewrite (Hr1 w2 eq_refl). reflexivity.
  - split; [| split; [| done]].
    + exists tf0, k0. done.
    + split; cbn.
      * rewrite dom_insert_L, Hdom. set_solver.
      * intros l Hl. rewrite dom_insert_L, Hdom in Hl.
        assert (l = model inp) by set_solver. by subst l.
Qed.

(** A run with the meta-adapter on well-formed data returns, after
    exactly [total_iters] optimizer steps: the support set fills the key
    memory, the adapted prototypes are as wide as the embeddings, and
    every batch of the train loader has one label per image, each the
    index of a class. *)
Theorem train_model_completes args inp tf0 w o k0 :
  BackendShapes B ->
  enable_MetaAdapter args = true -> encodes_images args = true ->
  heap w !! model inp = Some o ->
  dom (heap w) = {[ model inp ]} ->
  model inp < next_loc w ->
  reshape3 (length tf0) (length (hd [] tf0))
    (get_vision_target_features (params o) (val_loader inp)) = Some k0 ->
  (forall p k, widths_agree (meta_adapter p tf0 k k)) ->
  paired (train_loader inp) ->
  Forall (fun b => Forall (fun t => t < length tf0) (target b))
    (train_loader inp) ->
  (exists b rest, train_loader inp = b :: rest /\ target b <> []) ->
  flat_map images (val_loader inp) <> [] ->
  flat_map images (test_loader inp) <> [] ->
  exists w' evs,
    train_model args inp tf0 w = (w', Ok tt)
    /\ trace w' = trace w ++ evs
    /\ count is_optimizer_step evs = total_iters args.
Proof.
  intros HB Hm He Ho Hdom Hlt Hre Hwd Hpair Hlab Hfirst Hval Htest.
  destruct (init_locals_returns args inp tf0 w o k0 Hm Ho Hdom Hlt Hre Hwd)
    as (w1 & L & M & Hi & Hr & Hok & Hc).
  destruct (train_while_returns args inp (length tf0) M (total_iters args)
              HB Hm He Hpair Hlab Hfirst Hval L w1 ltac:(lia) Hr Hok)
    as (w2 & L' & Hw & Hr' & Hok').
  destruct (finish_returns args inp (length tf0) M L' w2 HB Hm Hr' Hok' Htest)
    as (w' & Hf).
  assert (Hrun : train_model args inp tf0 w = (w', Ok tt)).
  { unfold train_model, train_loop, bind. rewrite Hi, Hw. exact Hf. }
  destruct (train_model_steps args inp tf0 w w' Hrun) as (evs & Ht & Hs & _).
  eauto.
Qed.

End Completion.

(** ** What a computation can add to the trace *)

Section EmitsFacts.
Context {B : Backend}.

Lemma emits_ret {A} P (a : A) : emits P (ret a).
Proof. intros w w' r [= <- <-]. exists []. by rewrite app_nil_r. Qed.

Lemma emits_raise {A} P e : emits P (raise (A := A) e).
Proof. intros w w' r [= <- <-]. exists []. by rewrite app_nil_r. Qed.

Lemma emits_lift {A} P e (o : option A) : emits P (lift e o).
Proof. destruct o; [apply emits_ret | apply emits_raise]. Qed.

Lemma emits_emit (P : Event -> Prop) ev : P ev -> emits P (emit ev).
Proof. intros HP w w' r [= <- <-]. exists [ev]. by repeat constructor. Qed.

Lemma emits_read_model P m : emits P (read_model m).
Proof.
  intros w w' r H. apply read_model_inv in H as [-> _].
  exists []. by rewrite app_nil_r.
Qed.

Lemma emits_write_model P m o : emits P (write_model m o).
Proof. intros w w' r [= <- <-]. exists []. by rewrite app_nil_r. Qed.

Lemma emits_bind {A C} P (c : M A) (k : A -> M C) :
  emits P c -> (forall a, emits P (k a)) -> emits P (bind c k).
Proof.
  intros Hc Hk w w' r H.
  apply bind_inv in H as [(w1 & a & Ha & H) | (e & Ha & ->)].
  - destruct (Hc _ _ _ Ha) as (evs1 & Ht1 & Hf1).
    destruct (Hk a _ _ _ H) as (evs2 & Ht2 & Hf2).
    exists (evs1 ++ evs2). split; [by rewrite Ht2, Ht1, app_assoc |].
    by apply Forall_app.
  - exact (Hc _ _ _ Ha).
Qed.

Lemma emits_within {A} (P : Event -> Prop) (K : Event -> bool) m (c : M A) :
  (forall e, K e = true -> P e) ->
  (forall w w' r, c w = (w', r) -> within K m w w') ->
  emits P c.
Proof.
  intros HK Hc w w' r H.
  destruct (Hc _ _ _ H) as (evs & (_ & _ & _ & Ht) & Hf).
  exists evs. split; [done |]. eapply Forall_impl; [exact Hf | done].
Qed.

Lemma emits_set_mode (P : Event -> Prop) m t :
  P (EvSetMode m t) -> emits P (set_mode m t).
Proof.
  intros HP. unfold set_mode.
  apply emits_bind; [apply emits_read_model |]. intros o.
  apply emits_bind; [apply emits_write_model |]. intros _.
  by apply emits_emit.
Qed.

Lemma emits_eval_model (P : Event -> Prop) args m ls loader tf sil mq mk :
  (forall e, eval_event e = true -> P e) ->
  emits P (eval_model args m ls loader tf sil mq mk).
Proof.
  intros HP. apply (emits_within P eval_event m); [done |].
  intros w w' r H. by apply eval_model_inv in H as (Hin & _).
Qed.

Lemma emits_call_eval (P : Event -> Prop) args inp site m loader L :
  (forall e, eval_event e = true -> P e) ->
  (forall l tf sil q k, P (EvEvalCall site m l tf sil q k)) ->
  emits P (call_eval args inp site m loader L).
Proof.
  intros HP Hcall. unfold call_eval, read_local.
  apply emits_bind; [apply emits_lift |]. intros q.
  apply emits_bind; [apply emits_lift |]. intros k.
  apply emits_bind; [by apply emits_emit |]. intros _.
  by apply emits_eval_model.
Qed.

Lemma emits_snapshot (P : Event -> Prop) inp old :
  (forall e, snapshot_event e = true -> P e) ->
  emits P (snapshot inp old).
Proof.
  intros HP w w' r H.
  apply snapshot_inv in H as [(_ & _ & ->) | (o & _ & _ & _ & Ht & _)].
  - exists []. by rewrite app_nil_r.
  - eexists. split; [exact Ht |]. repeat constructor; by apply HP.
Qed.

Lemma emits_divide P x n : emits P (divide x n).
Proof.
  unfold divide. destruct (n =? 0); [apply emits_raise | apply emits_ret].
Qed.

Lemma bind_emit_ret {A C} ev (a : A) (k : A -> M C) w :
  bind (emit ev ;; ret a) k w
  = k a (mkWorld (heap w) (next_loc w) (trace w ++ [ev])).
Proof. reflexivity. Qed.

(** What follows lines 129-132 in a training step. *)
Lemma emits_step_rest (P : Event -> Prop) args inp L b o tf :
  (forall e, step_event e = true -> is_recompute e = false -> P e) ->
  emits P
    (let* feats := forward_images args inp (params o) b (image_features L) in
     let* cs := train_scores args inp (params o) tf L feats in
     check_targets cs (target b) ;;
     let loss := cross_entropy cs (target b) in
     let n := length (target b) in
     let stepped := optimizer_step (optimizer L) (params o) b loss in
     write_model (model inp) (mkModel stepped.2 (device o) (training o)) ;;
     emit (EvOptimizerStep (model inp)) ;;
     let* mk := update_cache_keys args b feats (meta_key L) in
     ret (mkLocals tf (meta_query L) mk feats stepped.1
            (count_iters L + 1) (best_acc L) (best_model L)
            (fadd (acc_train L) (fmul (cls_acc cs (target b)) (of_int n)))
            (tot_samples L + n)
            (fadd (loss_epoch L) (fmul loss (of_int n))))).
Proof.
  intros HP.
  apply emits_bind.
  { unfold forward_images. destruct (encodes_images args); [| apply emits_ret].
    apply emits_bind; [by apply emits_emit, HP | intros; apply emits_ret]. }
  intros feats. apply emits_bind.
  { unfold train_scores, read_local, scores.
    destruct (enable_MetaAdapter args).
    - apply emits_bind; [apply emits_lift |]. intros q.
      apply emits_bind; [apply emits_lift |]. intros k.
      apply emits_bind; [by apply emits_emit, HP |]. intros _.
      apply emits_bind; [apply emits_lift |]. intros f.
      destruct (conformable _ _); [apply emits_ret | apply emits_raise].
    - apply emits_bind; [apply emits_lift |]. intros f.
      destruct (conformable _ _); [apply emits_ret | apply emits_raise]. }
  intros cs. apply emits_bind.
  { unfold check_targets. destruct (negb _); [apply emits_raise |].
    destruct (forallb _ _); [apply emits_ret | apply emits_raise]. }
  intros _. cbn zeta.
  apply emits_bind; [apply emits_write_model |]. intros _.
  apply emits_bind; [by apply emits_emit, HP |]. intros _.
  apply emits_bind; [| intros; apply emits_ret].
  intros w w' r H. apply update_cache_keys_inv in H as (-> & _).
  exists []. by rewrite app_nil_r.
Qed.

(** A training step recomputes the label features once, first of all,
    when lines 129-131 ask for it and never otherwise, whatever its
    outcome. *)
Lemma train_step_recompute args inp L b w w' r o :
  heap w !! model inp = Some o ->
  train_step args inp L b w = (w', r) ->
  exists rest,
    trace w' = trace w
               ++ (if recompute_needed args (task_type inp)
                   then [EvRecomputeTargets (model inp)] else [])
               ++ rest
    /\ Forall (fun e => is_recompute e = false) rest.
Proof.
  intros Ho H. unfold train_step in H.
  rewrite (bind_ok _ _ w w o) in H by (unfold read_model; by rewrite Ho).
  unfold load_label_features in H.
  destruct (recompute_needed args (task_type inp)).
  - rewrite bind_emit_ret in H.
    apply (emits_step_rest (fun e => is_recompute e = false)) in H
      as (rest & Ht & Hrest); [| done].
    exists rest. cbn [trace] in Ht. by rewrite Ht, <- app_assoc.
  - rewrite bind_ret in H.
    apply (emits_step_rest (fun e => is_recompute e = false)) in H
      as (rest & Ht & Hrest); [| done].
    exists rest. done.
Qed.

Lemma emits_train_step (P : Event -> Prop) args inp L b :
  recompute_needed args (task_type inp) = false ->
  (forall e, step_event e = true -> is_recompute e = false -> P e) ->
  emits P (train_step args inp L b).
Proof.
  intros Hrec HP. unfold train_step.
  apply emits_bind; [apply emits_read_model |]. intros o.
  unfold load_label_features. rewrite Hrec.
  intros w w' r H. rewrite bind_ret in H.
  by apply (emits_step_rest P) in H.
Qed.

Lemma emits_run_batches (P : Event -> Prop) args inp bs :
  recompute_needed args (task_type inp) = false ->
  (forall e, step_event e = true -> is_recompute e = false -> P e) ->
  forall L, emits P (run_batches args inp bs L).
Proof.
  intros Hrec HP. induction bs as [| b rest IH]; intros L; cbn [run_batches].
  - apply emits_ret.
  - apply emits_bind; [by apply emits_train_step |]. intros L'.
    destruct (_ =? _); [apply emits_ret | apply IH].
Qed.

Lemma emits_train_epoch (P : Event -> Prop) args inp L :
  recompute_needed args (task_type inp) = false ->
  (forall e, is_recompute e = false -> P e) ->
  emits P (train_epoch args inp L).
Proof.
  intros Hrec HP. unfold train_epoch.
  apply emits_bind; [by apply emits_set_mode, HP |]. intros _.
  apply emits_bind; [apply emits_run_batches; auto |]. intros L1.
  apply emits_bind.
  { unfold log_epoch. destruct (_ <? _); [| apply emits_ret].
    apply emits_bind; [apply emits_divide |]. intros a.
    apply emits_bind; [apply emits_divide |]. intros l.
    apply emits_bind; [by apply emits_emit, HP | intros; apply emits_ret]. }
  intros L2. unfold validate.
  apply emits_bind; [by apply emits_set_mode, HP |]. intros _.
  apply emits_bind.
  { apply emits_call_eval; [| intros; by apply HP].
    intros e He. apply HP. by destruct e. }
  intros res. apply emits_bind; [by apply emits_emit, HP |]. intros _.
  unfold save_best. destruct (Qltb _ _); [| apply emits_ret].
  apply emits_bind; [| intros; apply emits_ret].
  apply emits_snapshot. intros e He. apply HP. by destruct e.
Qed.

Lemma emits_train_while (P : Event -> Prop) args inp fuel :
  recompute_needed args (task_type inp) = false ->
  (forall e, is_recompute e = false -> P e) ->
  forall L, emits P (train_while fuel args inp L).
Proof.
  intros Hrec HP. induction fuel as [| fuel IH]; intros L; cbn [train_while];
    destruct (_ <? _); try apply emits_ret; [apply emits_raise |].
  apply emits_bind; [by apply emits_train_epoch | apply IH].
Qed.

End EmitsFacts.

(** ** Counting the validation calls of a run *)

Section RunCounts.
Context {B : Backend}.


End RunCounts.

(** ** The best checkpoint *)

Section SnapshotFacts.
Context {B : Backend}.

Lemma train_epoch_next_loc args inp L w w' L' :
  train_epoch args inp L w = (w', Ok L') -> next_loc w <= next_loc w'.
Proof.
  intros H. apply train_epoch_inv in H as (_ & _ & Hok).
  destruct (Hok L' eq_refl)
    as (? & ? & ? & ? & ? & acc_val & w1 & Hc & _ & _ & _ & _ & _ & _ & _ & _
        & _ & Hsel).
  destruct Hc as (Hn & _).
  destruct Hsel as [(_ & -> & _) | (_ & _ & _ & Hs)]; [lia |].
  apply snapshot_inv in Hs as [(_ & Hr & _) | (o & _ & _ & Hn' & _)];
    [done | lia].
Qed.

Lemma count_epoch_deep_copy inp steps logs tf q k evs_eval acc_val :
  Forall (fun e => step_event e = true) steps ->
  Forall (fun e => is_log e = true) logs ->
  Forall (fun e => eval_event e = true) evs_eval ->
  count is_deep_copy (epoch_events inp steps logs tf q k evs_eval acc_val) = 0.
Proof.
  intros Hst Hlogs Hev. unfold epoch_events.
  repeat (rewrite ?count_app, ?count_cons). cbn [is_deep_copy].
  rewrite (count_none is_deep_copy step_event steps) by (by intros [] || done).
  rewrite (count_none is_deep_copy is_log logs) by (by intros [] || done).
  rewrite (count_none is_deep_copy eval_event evs_eval)
    by (by intros [] || done).
  done.
Qed.

(** The deep copies of an epoch that runs to its end: one when the
    validation accuracy is a strict improvement, none otherwise. *)
Lemma train_epoch_copies args inp L w w' L' :
  heap_ok inp L w ->
  train_epoch args inp L w = (w', Ok L') ->
  heap_ok inp L' w'
  /\ exists acc_val evs,
       trace w' = trace w ++ evs
       /\ EvPrintAccuracy Validation acc_val ∈ evs
       /\ ((best_acc L < acc_val)%Q ->
           best_acc L' = acc_val
           /\ best_model L' = next_loc w
           /\ best_model L' <> model inp
           /\ best_model L' <> best_model L
           /\ heap w !! best_model L' = None
           /\ count is_deep_copy evs = 1
           /\ exists o,
                heap w' !! model inp = Some o
                /\ heap w' !! best_model L'
                   = Some (mkModel (params o) Cpu (training o)))
       /\ ((acc_val <= best_acc L)%Q ->
           best_acc L' = best_acc L
           /\ best_model L' = best_model L
           /\ count is_deep_copy evs = 0
           /\ (best_model L <> model inp ->
               heap w' !! best_model L = heap w !! best_model L)).
Proof.
  intros Hok H.
  destruct (train_epoch_selection_events args inp L w w' L' Hok H)
    as (Hok' & steps & logs & q & k & evs_eval & acc_val & snap & Ht
        & (Hst & Hlogs & Hev) & _ & Hsel).
  split; [done |].
  exists acc_val,
    (epoch_events inp steps logs (target_features L') q k evs_eval acc_val
     ++ snap).
  split; [done |]. split.
  { unfold epoch_events. set_solver. }
  pose proof (count_epoch_deep_copy inp steps logs (target_features L') q k
                evs_eval acc_val Hst Hlogs Hev) as Hzero.
  destruct Hsel as [(Hcmp & -> & Hba & Hbm & Hlm & Hlo & Hfresh & Hcopy)
                   | (Hcmp & -> & Hba & Hbm & Hkeep)].
  - apply Qltb_lt in Hcmp. split.
    + intros _. repeat (split; [done |]). split; [| done].
      rewrite count_app, Hzero. done.
    + intros Hle. exfalso. by eapply Qlt_not_le.
  - apply Qltb_ge in Hcmp. split.
    + intros Hlt. exfalso. by eapply Qlt_not_le.
    + intros _. repeat (split; [done |]). split; [| done].
      rewrite count_app, Hzero. done.
Qed.

(** Across the epochs of a loop that runs to its end: either no epoch
    improved on the recorded best, and [best_model] and the object it
    names are as before, or the recorded best is strictly greater and
    [best_model] names an object made after the loop was entered, that is
    not the live model and is on the host. *)
Lemma train_while_copies args inp fuel L w w' L' :
  train_while fuel args inp L w = (w', Ok L') ->
  heap_ok inp L w ->
  heap_ok inp L' w'
  /\ next_loc w <= next_loc w'
  /\ exists evs,
       trace w' = trace w ++ evs
       /\ (count is_deep_copy evs = 0
           /\ best_acc L' = best_acc L
           /\ best_model L' = best_model L
           /\ (best_model L <> model inp ->
               heap w' !! best_model L = heap w !! best_model L)
           \/ 0 < count is_deep_copy evs
              /\ (best_acc L < best_acc L')%Q
              /\ best_model L' <> model inp
              /\ next_loc w <= best_model L'
              /\ exists o, heap w' !! best_model L' = Some o
                           /\ device o = Cpu).
Proof.
  revert fuel L w w' L'.
  apply (train_while_ind args inp
           (fun L w L' w' =>
              heap_ok inp L w ->
              heap_ok inp L' w'
              /\ next_loc w <= next_loc w'
              /\ exists evs,
                   trace w' = trace w ++ evs
                   /\ (count is_deep_copy evs = 0
                       /\ best_acc L' = best_acc L
                       /\ best_model L' = best_model L
                       /\ (best_model L <> model inp ->
                           heap w' !! best_model L = heap w !! best_model L)
                       \/ 0 < count is_deep_copy evs
                          /\ (best_acc L < best_acc L')%Q
                          /\ best_model L' <> model inp
                          /\ next_loc w <= best_model L'
                          /\ exists o, heap w' !! best_model L' = Some o
                                       /\ device o = Cpu))).
  - intros L w _ Hok. split; [done |]. split; [lia |]. exists [].
    split; [by rewrite app_nil_r |]. left. done.
  - intros L w L1 w1 L2 w2 _ He IH Hok.
    pose proof (train_epoch_next_loc _ _ _ _ _ _ He) as Hn1.
    destruct (train_epoch_copies args inp L w w1 L1 Hok He)
      as (Hok1 & acc_val & evs1 & Ht1 & _ & Himp & Hkeep).
    destruct (IH Hok1) as (Hok2 & Hn2 & evs2 & Ht2 & Hcase).
    split; [done |]. split; [lia |]. exists (evs1 ++ evs2).
    split; [by rewrite Ht2, Ht1, app_assoc |]. rewrite count_app.
    destruct (Qlt_le_dec (best_acc L) acc_val) as [Hlt | Hle].
    + destruct (Himp Hlt)
        as (Hba1 & Hbm1 & Hlm1 & Hlo1 & Hfresh1 & Hcnt1 & o & Ho & Hcopy).
      right. split; [lia |].
      destruct Hcase as [(Hc2 & Hba2 & Hbm2 & Hfr2)
                        | (Hc2 & Hba2 & Hlm2 & Hge2 & Hobj2)].
      * split; [by rewrite Hba2, Hba1 |]. rewrite Hbm2.
        split; [done |]. split; [lia |].
        exists (mkModel (params o) Cpu (training o)).
        split; [| done]. rewrite (Hfr2 Hlm1). done.
      * split; [eapply Qlt_trans; [| exact Hba2]; by rewrite Hba1 |].
        split; [done |]. split; [lia | done].
    + destruct (Hkeep Hle) as (Hba1 & Hbm1 & Hcnt1 & Hfr1).
      destruct Hcase as [(Hc2 & Hba2 & Hbm2 & Hfr2)
                        | (Hc2 & Hba2 & Hlm2 & Hge2 & Hobj2)].
      * left. split; [lia |]. split; [congruence |]. split; [congruence |].
        intros Hne. rewrite <- (Hfr1 Hne). rewrite <- Hbm1. apply Hfr2.
        by rewrite Hbm1.
      * right. split; [lia |]. split; [by rewrite <- Hba1 |].
        split; [done |]. split; [lia | done].
Qed.

End SnapshotFacts.

(** ** The claims *)

Lemma demo_shapes : BackendShapes Demo.backend.
Proof.
  split.
  - intros p imgs. cbn. apply length_map.
  - intros p q k v. reflexivity.
Qed.

Lemma demo_widths (q : Tensor2) :
  Forall (fun r => length r = 2) q ->
  forall p k,
    @widths_agree Demo.backend (@meta_adapter Demo.backend p q k k).
Proof.
  intros Hq p k p' imgs. cbn. unfold conformable.
  apply forallb_forall. intros a Ha. apply forallb_forall. intros r Hr.
  apply list_elem_of_In, list_elem_of_fmap in Ha as (i & -> & _).
  apply list_elem_of_In in Hr. rewrite Forall_forall in Hq.
  rewrite (Hq r Hr). unfold Demo.embed. by destruct (Nat.even _).
Qed.

Lemma demo_heap_ok : heap_ok Demo.inputs3 Demo.locals0 Demo.world0.
Proof.
  split.
  - vm_compute. reflexivity.
  - intros l Hl. cbn in Hl. rewrite dom_singleton_L in Hl.
    apply elem_of_singleton in Hl. subst l. cbn. lia.
Qed.

Example demo_locals0_initial :
  (init_locals (Demo.args_of true "vision" 2 4) Demo.inputs3 Demo.eye2
     Demo.world0).2 = Ok Demo.locals0.
Proof. vm_compute. reflexivity. Qed.

(** C6. When [eval_model] is given no [support_img_loader] and lacks
    [meta_query] or [meta_key], it raises the [ValueError] that names the
    two alternatives, whether or not the meta-adapter is enabled, and the
    world is left as it was: the model is not switched to inference mode,
    no batch of the loader is encoded and nothing is substituted. *)
Theorem eval_model_requires_a_source `{B : Backend}
    args model ls loader tf mq mk w :
  is_None mq = true \/ is_None mk = true ->
  eval_model args model ls loader tf PyNone mq mk w
  = (w, Raise (ValueError no_source_message)).
Proof.
  intros H. unfold eval_model.
  assert (Hg : (is_None mk || is_None mq) && is_None PyNone = true).
  { destruct H as [-> | ->]; cbn; [by rewrite orb_true_r | done]. }
  rewrite Hg. reflexivity.
Qed.

Lemma eval_model_requires_a_source_witness :
  eval_model (Demo.args_of true "vision" 2 4) 0 1%Q
    (val_loader Demo.inputs3) (PyTensor2 Demo.eye2) PyNone PyNone PyNone
    Demo.world0
  = (Demo.world0, Raise (ValueError no_source_message)).
Proof.
  apply eval_model_requires_a_source. left. reflexivity.
Defined.



(** The rows of the worked update: class 2 received two embeddings and
    keeps its two oldest entries no longer, class 0 received one. *)
Example memory54_after_three_updates :
  exists mk',
    Memory.update Demo.memory54
      [(2, [7; 7]%Q); (0, [9; 9]%Q); (2, [8; 8]%Q)] = Ok mk'
    /\ mk' !! 2 = Some [[8; 8]; [7; 7]; [2; 0]; [2; 1]]%Q
    /\ mk' !! 0 = Some [[9; 9]; [0; 0]; [0; 1]; [0; 2]]%Q
    /\ mk' !! 1 = Demo.memory54 !! 1.
Proof. eexists. split; [vm_compute; reflexivity |]. by vm_compute. Qed.

(** The prediction against a permuted row is the class of greatest
    score that comes first in the permuted order. *)
Lemma argmax_permute_first (p : list nat) (row : list Q) j :
  p ≡ₚ seq 0 (length row) ->
  argmax (permute p row) = Some j ->
  exists c x,
    p !! j = Some c /\ row !! c = Some x
    /\ (forall c' y, row !! c' = Some y -> (y <= x)%Q)
    /\ (forall j' c' y,
          j' < j -> p !! j' = Some c' -> row !! c' = Some y -> (y < x)%Q).
Proof.
  intros Hperm Hj.
  assert (Hrange : Forall (fun i => i < length row) p).
  { rewrite Forall_forall. intros i Hi. rewrite Hperm in Hi.
    apply elem_of_seq in Hi. lia. }
  apply argmax_first_max in Hj as (x & Hx & Hle & Hlt).
  assert (Hjp : is_Some (p !! j)).
  { apply lookup_lt_is_Some. apply lookup_lt_Some in Hx.
    by rewrite permute_length in Hx. }
  destruct Hjp as [c Hc]. exists c, x. split; [done |].
  split; [by rewrite <- (permute_lookup p row j c) |]. split.
  - intros c' y Hy.
    assert (Hin : c' ∈ p).
    { rewrite Hperm. apply elem_of_seq. apply lookup_lt_Some in Hy. lia. }
    apply list_elem_of_lookup in Hin as [j' Hj'].
    apply (Hle j'). by rewrite (permute_lookup p row j' c').
  - intros j' c' y Hlt' Hj' Hy. apply (Hlt j'); [done |].
    by rewrite (permute_lookup p row j' c').
Qed.

(** C9, as the specification states it, fails on ties: with two classes
    of equal score the first-max rule picks index 0 both before and after
    the two classes are swapped, so the prediction does not follow the
    permutation. *)
Lemma scorer_tie_does_not_track_permutation :
  let Qs := [[1%Q]] in
  let R := [[1%Q]; [1%Q]] in
  let p := [1; 0] in
  p ≡ₚ seq 0 (length R)
  /\ (cosine_similarity 1 Qs R !! 0) ≫= argmax = Some 0
  /\ (cosine_similarity 1 Qs (permute p R) !! 0) ≫= argmax = Some 0
  /\ p !! 0 = Some 1
  /\ ~ (exists j c,
          (cosine_similarity 1 Qs (permute p R) !! 0) ≫= argmax = Some j
          /\ (cosine_similarity 1 Qs R !! 0) ≫= argmax = Some c
          /\ p !! j = Some c).
Proof.
  cbn. split; [apply perm_swap |]. repeat (split; [reflexivity |]).
  intros (j & c & [= <-] & [= <-] & Hp). discriminate Hp.
Qed.

(** C9, amended.  For every batch of queries, every reference set of
    [K] rows and every permutation [p] of the [K] classes: the scores have
    one row per query and one entry per class, entry [(i, j)] being
    [logit_scale] times the product of query [i] with reference [j];
    [argmax] of a row that is not empty is the lowest index of a greatest
    entry; the scores against the permuted reference set are the permuted
    rows of the scores.  For every row of [K] scores, the prediction
    against the permuted set is the position of a class of greatest score,
    the one that comes first in the permuted order; when the greatest
    score is attained at one class only, that is the position the
    predicted class was moved to. *)
Theorem scorer_permutation_equivariant ls (Qs R : Tensor2) (p : list nat) :
  p ≡ₚ seq 0 (length R) ->
  (length (cosine_similarity ls Qs R) = length Qs
   /\ forall i q,
        Qs !! i = Some q ->
        exists row,
          cosine_similarity ls Qs R !! i = Some row
          /\ length row = length R
          /\ forall j r,
               R !! j = Some r ->
               exists s, row !! j = Some s /\ (s == ls * dot q r)%Q)
  /\ (forall row : list Q,
        (row <> [] -> exists c, argmax row = Some c)
        /\ forall c, argmax row = Some c -> first_max row c)
  /\ (forall i row,
        cosine_similarity ls Qs R !! i = Some row ->
        cosine_similarity ls Qs (permute p R) !! i = Some (permute p row))
  /\ forall row : list Q,
       length row = length R ->
       (forall j,
          argmax (permute p row) = Some j ->
          exists c x,
            p !! j = Some c /\ row !! c = Some x
            /\ (forall c' y, row !! c' = Some y -> (y <= x)%Q)
            /\ (forall j' c' y,
                  j' < j -> p !! j' = Some c' -> row !! c' = Some y ->
                  (y < x)%Q))
       /\ forall c x,
            row !! c = Some x ->
            (forall c' y, c' <> c -> row !! c' = Some y -> (y < x)%Q) ->
            argmax row = Some c
            /\ exists j, argmax (permute p row) = Some j /\ p !! j = Some c.
Proof.
  intros Hp. split; [| split; [| split]].
  - split; [apply cosine_similarity_length |]. intros i q Hq.
    exists (map (dot (map (Qmult ls) q)) R). split; [| split].
    + unfold cosine_similarity, matmul_t, scale.
      by rewrite !list_lookup_fmap, Hq.
    + apply length_map.
    + intros j r Hr. exists (dot (map (Qmult ls) q) r).
      split; [by rewrite list_lookup_fmap, Hr | apply dot_scale].
  - intros row. split.
    + intros Hne. destruct (argmax_is_Some row Hne) as [c Hc]. eauto.
    + apply argmax_first_max.
  - intros i row Hrow.
    by rewrite cosine_similarity_permute, list_lookup_fmap, Hrow.
  - intros row Hlen. rewrite <- Hlen in Hp. split.
    + intros j Hj. by apply argmax_permute_first.
    + intros c x Hc Hstrict. split.
      * assert (Hne : row <> []) by (intros ->; done).
        destruct (argmax_is_Some row Hne) as [c' Hc']. rewrite Hc'. f_equal.
        apply (first_max_unique row); [by apply argmax_first_max |].
        exists x. split; [done |]. split.
        -- intros j y Hj. destruct (decide (j = c)) as [-> | Hjc].
           ++ rewrite Hc in Hj. inversion Hj. apply Qle_refl.
           ++ apply Qlt_le_weak. eauto.
        -- intros j y Hlt Hj. apply (Hstrict j); [lia | done].
      * by apply (argmax_permute p row c x).
Qed.

(** The tie of the counterexample, and a row with a single greatest
    score: two classes swapped. *)
Lemma scorer_permutation_equivariant_witness :
  let p := [1; 0] in
  (cosine_similarity 1 [[1%Q]] (permute p [[1%Q]; [1%Q]]) !! 0
   = Some (permute p [1; 1]%Q))
  /\ (forall j,
        argmax (permute p [1; 1]%Q) = Some j ->
        exists c x,
          p !! j = Some c /\ [1; 1]%Q !! c = Some x
          /\ (forall c' y, [1; 1]%Q !! c' = Some y -> (y <= x)%Q)
          /\ (forall j' c' y,
                j' < j -> p !! j' = Some c' -> [1; 1]%Q !! c' = Some y ->
                (y < x)%Q))
  /\ exists j, argmax (permute p [0; 1]%Q) = Some j /\ p !! j = Some 1.
Proof.
  intros p.
  destruct (scorer_permutation_equivariant 1 [[1%Q]] [[1%Q]; [1%Q]] p
              (perm_swap 0 1 []))
    as (_ & _ & Hscores & Hrows).
  split; [by apply Hscores |]. split.
  - apply (proj1 (Hrows [1; 1]%Q eq_refl)).
  - apply (proj2 (Hrows [0; 1]%Q eq_refl) 1 1%Q); [reflexivity |].
    intros [| [| c']] y Hne Hy; cbn in Hy; try done.
    inversion Hy; subst y. reflexivity.
Defined.

(** C10. The guard of lines 129-131 holds exactly when (LoRA is enabled,
    the task is ["image2text"] and the encoder is ["text"] or ["both"]),
    or (LoRA is enabled, the task is ["image2image"] and the encoder is
    ["vision"] or ["both"]), or BitFit is enabled.  A training step,
    whatever its outcome, recomputes the label features once, before
    anything else, when the guard holds and never when it does not; a
    step that returns leaves in [target_features] the features derived
    anew from the current parameters (from the text encoder for
    ["image2text"], from the target loader otherwise) in the first case
    and the features it found in the second.  When the guard does not
    hold, the whole loop recomputes nothing, whatever its outcome, and a
    loop that returns still has the [target_features] that were passed
    in. *)
Theorem target_features_recomputed_iff `{B : Backend} args inp :
  (recompute_needed args (task_type inp) = true
   <-> (enable_lora args = true /\ task_type inp = "image2text"
        /\ (encoder args = "text" \/ encoder args = "both"))
       \/ (enable_lora args = true /\ task_type inp = "image2image"
           /\ (encoder args = "vision" \/ encoder args = "both"))
       \/ enable_BitFit args = true)
  /\ (forall L b w w' r o,
        heap w !! model inp = Some o ->
        train_step args inp L b w = (w', r) ->
        (exists rest,
           trace w' = trace w
                      ++ (if recompute_needed args (task_type inp)
                          then [EvRecomputeTargets (model inp)] else [])
                      ++ rest
           /\ Forall (fun e => is_recompute e = false) rest)
        /\ forall L',
             r = Ok L' ->
             target_features L'
             = if recompute_needed args (task_type inp)
               then (if String.eqb (task_type inp) "image2text"
                     then get_text_target_features (params o)
                     else get_vision_target_features (params o)
                            (target_loader inp))
               else target_features L)
  /\ (recompute_needed args (task_type inp) = false ->
      (forall fuel L w w' r,
         train_while fuel args inp L w = (w', r) ->
         (exists evs,
            trace w' = trace w ++ evs
            /\ Forall (fun e => is_recompute e = false) evs)
         /\ forall L', r = Ok L' -> target_features L' = target_features L)
      /\ forall tf0 w w' L',
           train_loop args inp tf0 w = (w', Ok L') ->
           target_features L' = tf0).
Proof.
  split; [| split].
  - unfold recompute_needed.
    rewrite !orb_true_iff, !andb_true_iff, !orb_true_iff, !String.eqb_eq.
    tauto.
  - intros L b w w' r o Ho Hs. split.
    + by eapply train_step_recompute.
    + intros L' ->.
      apply train_step_inv in Hs as (evs & _ & _ & _ & _ & Hok & _).
      destruct (Hok L' eq_refl) as (_ & _ & _ & _ & _ & _ & o' & Ho' & Htf).
      assert (o' = o) by congruence. subst o'. exact Htf.
  - intros Hrec. split.
    + intros fuel L w w' r Hw. split.
      * by apply (emits_train_while (fun e => is_recompute e = false)
                    args inp fuel Hrec) in Hw.
      * intros L' ->. by eapply train_while_target_features.
    + intros tf0 w w' L' Hl. unfold train_loop in Hl.
      apply bind_inv in Hl as [(w1 & L & Hi & Hl) | (e & _ & Hbad)];
        [| discriminate Hbad].
      apply init_locals_inv in Hi as (_ & _ & Hok & _).
      destruct (Hok L eq_refl) as (_ & _ & _ & Htf & _).
      rewrite <- Htf. by eapply train_while_target_features.
Qed.

(** With BitFit on, a step of the worked run replaces label features
    that were passed in by the ones the text encoder gives; with LoRA on
    the text encoder alone, the features are recomputed although the step
    then stops at the read of [image_features]. *)
Lemma target_features_recomputed_iff_witness :
  (exists w' L',
     train_step Demo.args_bitfit Demo.inputs3 Demo.locals_scaled
       (Demo.batch_of [0; 1; 2]) Demo.world0 = (w', Ok L')
     /\ target_features Demo.locals_scaled = Demo.scaled2
     /\ target_features L' = Demo.eye2
     /\ exists rest,
          trace w' = EvRecomputeTargets 0 :: rest
          /\ Forall (fun e => is_recompute e = false) rest)
  /\ exists w' rest,
       train_step Demo.args_lora_text Demo.inputs3 Demo.locals_scaled
         (Demo.batch_of [0; 1; 2]) Demo.world0
       = (w', Raise (UnboundLocalError "image_features"))
       /\ trace w' = EvRecomputeTargets 0 :: rest
       /\ Forall (fun e => is_recompute e = false) rest.
Proof.
  assert (Ho : heap Demo.world0 !! model Demo.inputs3
               = Some (@mkModel Demo.backend 0 Cuda true))
    by (vm_compute; reflexivity).
  split.
  - destruct (train_step Demo.args_bitfit Demo.inputs3 Demo.locals_scaled
                (Demo.batch_of [0; 1; 2]) Demo.world0)
      as [w' r] eqn:Hs.
    destruct (target_features_recomputed_iff (B := Demo.backend)
                Demo.args_bitfit Demo.inputs3) as (_ & Hstep & _).
    destruct (Hstep _ _ _ _ _ _ Ho Hs) as [(rest & Ht & Hrest) Htf].
    destruct r as [L' | e]; [| by vm_compute in Hs].
    exists w', L'. split; [done |]. split; [done |].
    split; [exact (Htf L' eq_refl) |]. exists rest. split; [exact Ht | done].
  - destruct (train_step Demo.args_lora_text Demo.inputs3
                Demo.locals_scaled (Demo.batch_of [0; 1; 2]) Demo.world0)
      as [w' r] eqn:Hs.
    destruct (target_features_recomputed_iff (B := Demo.backend)
                Demo.args_lora_text Demo.inputs3) as (_ & Hstep & _).
    destruct (Hstep _ _ _ _ _ _ Ho Hs) as [(rest & Ht & Hrest) _].
    exists w', rest. split; [| split; [exact Ht | done]].
    vm_compute in Hs. by inversion Hs.
Defined.

(** C3, as the specification states it, fails in the arithmetic of the
    code: for a loader of two batches of 1 and 22 samples with 0 and 15
    correct predictions, the accumulation gives
    [0.6521739130434782], the float below the one-shot mean
    [15 / 23 = 0.6521739130434783]. *)
Lemma accumulated_accuracy_misses_mean :
  let res := eval_model (B := Demo.backend) (Demo.args_of false "vision" 2 4)
               0 1%Q Demo.loader_1_22 (PyTensor2 Demo.eye2) (PyLoader [])
               PyNone PyNone Demo.world0 in
  paired (B := Demo.backend) Demo.loader_1_22
  /\ map (fun b => length (target b)) Demo.loader_1_22 = [1; 22]
  /\ exists a imgs tg pr sims,
       res.2 = Ok (a, imgs, tg, pr, sims)
       /\ length tg = 23
       /\ correct_count pr tg = 15
       /\ a = (5874260383526733 # 9007199254740992)%Q
       /\ mean_correct pr tg = (2937130191763367 # 4503599627370496)%Q
       /\ (a < mean_correct pr tg)%Q.
Proof.
  split; [repeat constructor |]. split; [reflexivity |].
  eexists _, _, _, _, _. split; [vm_compute; reflexivity |].
  vm_compute. repeat split; reflexivity.
Qed.

(** C3, amended.  When every batch of the loader pairs each image with
    one label and the model returns one embedding per image, the accuracy
    [eval_model] returns is the weighted accumulation over the batches, in
    loader order, of the share of hits of each batch times its size,
    divided by the number of samples, all in binary64; the targets and
    predictions it returns are those of the batches, concatenated.  It is
    the exact share of hits over all samples up to [length loader + 5]
    roundings, and so within [length loader + 6] roundings of the one-shot
    mean of [prediction == target] over the returned arrays, which is one
    rounding away from it.  On sizes [3, 3, 3, 1] with accuracies
    [1, 1/2, 1, 0] the accumulation is exactly [3/4]. *)
Theorem eval_accuracy_accumulates `{B : Backend}
    args model ls loader tf sil mq mk w w' a imgs tg pr sims :
  BackendShapes B ->
  paired loader ->
  eval_model args model ls loader tf sil mq mk w
  = (w', Ok (a, imgs, tg, pr, sims)) ->
  (exists per_batch : list (list nat * list nat),
     Forall2 (fun b pt => pt.2 = target b /\ length pt.1 = length pt.2)
       loader per_batch
     /\ pr = concat per_batch.*1
     /\ tg = concat per_batch.*2
     /\ (weighted_accuracy
           (map (fun pt => (mean_correct pt.1 pt.2, length pt.2)) per_batch)
           w').2 = Ok a)
  /\ tg = flat_map target loader
  /\ tg <> []
  /\ near (length loader + 5)
       (Qnat (correct_count pr tg) / Qnat (length tg)) a
  /\ near 1 (Qnat (correct_count pr tg) / Qnat (length tg))
       (mean_correct pr tg)
  /\ near (length loader + 6) (mean_correct pr tg) a
  /\ (weighted_accuracy
        [(1%Q, 3); ((1 # 2)%Q, 3); (1%Q, 3); (0%Q, 1)] w).2 = Ok (3 # 4)%Q.
Proof.
  intros HB Hp H. pose proof H as H'.
  apply eval_model_inv in H as (_ & _ & _ & Hacc).
  destruct (Hacc _ _ _ _ _ eq_refl HB Hp) as [Hnear Hne].
  apply eval_model_accumulate in H'
    as (per_batch & Hall & Hpr & Htg & Hw); [| done | done].
  assert (Hmean : near 1 (Qnat (correct_count pr tg) / Qnat (length tg))
                    (mean_correct pr tg)) by apply near_share.
  split; [by exists per_batch |].
  split; [rewrite Htg; by eapply per_batch_targets |].
  split; [done |]. split; [done |]. split; [done |]. split.
  - replace (length loader + 6) with (1 + (length loader + 5)) by lia.
    by eapply near_join.
  - by vm_compute.
Qed.

Lemma eval_accuracy_accumulates_witness :
  exists w' a imgs tg pr sims,
    eval_model (B := Demo.backend) (Demo.args_of false "vision" 2 4) 0 1%Q
      Demo.loader_1_22 (PyTensor2 Demo.eye2) (PyLoader []) PyNone PyNone
      Demo.world0
    = (w', Ok (a, imgs, tg, pr, sims))
    /\ tg = flat_map target Demo.loader_1_22
    /\ near (2 + 6) (mean_correct pr tg) a.
Proof.
  eexists _, _, _, _, _, _. split.
  - vm_compute. reflexivity.
  - match goal with
    | |- ?tg = _ /\ near _ (mean_correct ?pr _) ?a =>
        destruct (eval_accuracy_accumulates (B := Demo.backend)
                    (Demo.args_of false "vision" 2 4) 0 1%Q
                    Demo.loader_1_22 (PyTensor2 Demo.eye2) (PyLoader [])
                    PyNone PyNone Demo.world0 _ a _ tg pr _
                    demo_shapes
                    ltac:(repeat constructor)
                    ltac:(vm_compute; reflexivity))
          as (_ & Htg & _ & _ & _ & Hn & _)
    end.
    split; [exact Htg | exact Hn].
Defined.

(** C5, as the specification states it, fails for the encoder option
    ["text"]: the run stops in its first training step, where
    [image_features] is read without having been bound, before any
    optimizer step and before any validation call. *)
Lemma text_encoder_run_aborts_in_first_step :
  let res := train_model (Demo.args_of false "text" 2 4) Demo.inputs3
               Demo.eye2 Demo.world0 in
  enable_MetaAdapter (Demo.args_of false "text" 2 4) = false
  /\ res.2 = Raise (UnboundLocalError "image_features")
  /\ res.2 <> Raise (UnboundLocalError "meta_query")
  /\ trace res.1 = [EvSetMode 0 true].
Proof. vm_compute. repeat split; done. Qed.

(** C5, amended.  With [enable_MetaAdapter] off, [meta_query] and
    [meta_key] are never bound in [train_model], so no run returns and no
    run enters a call of [eval_model]: there is no validation or test
    result, no selection of a best checkpoint and no persistence.  When the
    encoder option is ["vision"] or ["both"], the train loader starts with
    a non-empty batch and every batch of it can be scored (its embeddings
    are as wide as the label features, it has one label per image and
    every label is the index of a label feature), the exception is the
    unbound-local error on [meta_query]; it is raised at the validation
    call that follows the first epoch, after [min (len loader) total_iters]
    optimizer steps, or, when [total_iters] is 0, at the test call. *)
Theorem train_without_meta_adapter_aborts `{B : Backend}
    args inp tf0 w w' r :
  enable_MetaAdapter args = false ->
  train_model args inp tf0 w = (w', r) ->
  is_ok r = false
  /\ exists evs,
       trace w' = trace w ++ evs
       /\ Forall (fun e => after_evaluation e = false) evs
       /\ (encodes_images args = true ->
           model inp ∈ dom (heap w) ->
           (exists b rest, train_loader inp = b :: rest /\ target b <> []) ->
           plain_trainable args inp tf0 (train_loader inp) ->
           r = Raise (UnboundLocalError "meta_query")
           /\ if 0 <? total_iters args
              then exists steps logs,
                     evs = EvSetMode (model inp) true :: steps ++ logs
                             ++ [EvSetMode (model inp) false]
                     /\ Forall (fun e => step_event e = true) steps
                     /\ count is_optimizer_step steps
                        = length (train_loader inp) `min` total_iters args
                     /\ Forall (fun e => is_log e = true) logs
                     /\ length logs
                        = (if length (train_loader inp) <? total_iters args
                           then 1 else 0)
              else evs = [EvMoveTo (model inp) Cuda]).
Proof.
  intros Hm H. unfold train_model, train_loop in H.
  assert (Hinit : forall L w1,
            init_locals args inp tf0 w = (w1, Ok L) ->
            w1 = w /\ meta_query L = None /\ count_iters L = 0
            /\ best_model L = model inp /\ target_features L = tf0).
  { intros L w1 Hi. apply init_locals_inv in Hi as (_ & _ & Hok & Hplain).
    destruct (Hok L eq_refl) as (Hc & _ & Hbm & Htf & _ & Hq).
    rewrite Hm in Hq. by destruct (Hplain Hm) as [-> _]. }
  apply bind_inv in H as [(w2 & L' & Hl & H) | (e & Hl & ->)].
  - (* the loop returned: [total_iters] is 0 *)
    apply bind_inv in Hl as [(w1 & L & Hi & Hl) | (e & _ & Hbad)];
      [| discriminate Hbad].
    destruct (Hinit L w1 Hi) as (-> & Hq & Hc & Hbm & Htf).
    destruct (Nat.ltb_spec 0 (total_iters args)) as [Hpos | Hzero].
    { apply train_while_unbound in Hl as [Hbad _]; [done | done | lia]. }
    assert (Ht0 : total_iters args = 0) by lia. rewrite Ht0 in Hl.
    cbn [train_while] in Hl. rewrite Hc, Ht0 in Hl. cbn in Hl.
    inversion Hl; subst w2 L'; clear Hl.
    apply finish_inv in H as (_ & Hunb & _).
    destruct (Hunb Hq) as (Hbad & evs & Hc' & Hf & Hexact).
    split; [done |]. exists evs. destruct Hc' as (_ & _ & _ & Ht).
    split; [done |]. split; [done |]. intros _ Hd _ _.
    rewrite Hbm in Hexact. destruct (Hexact Hd) as [-> ->]. done.
  - apply bind_inv in Hl as [(w1 & L & Hi & Hl) | (e' & Hi & [= ->])].
    + destruct (Hinit L w1 Hi) as (-> & Hq & Hc & Hbm & Htf).
      destruct (Nat.ltb_spec 0 (total_iters args)) as [Hpos | Hzero].
      2:{ assert (Ht0 : total_iters args = 0) by lia. rewrite Ht0 in Hl.
          cbn [train_while] in Hl. rewrite Hc, Ht0 in Hl. cbn in Hl.
          discriminate Hl. }
      apply train_while_unbound in Hl as [_ Hep]; [| done | lia].
      destruct Hep as (w1 & r1 & He & -> & Hbad1 & Hre); [lia |].
      apply train_epoch_inv in He as (_ & Hunb & _).
      destruct (Hunb Hq) as (_ & evs & Hc' & Hf & Hexact).
      split; [done |]. exists evs. destruct Hc' as (_ & _ & _ & Ht).
      split; [done |]. split; [done |]. intros Henc Hd Hfirst Hpt.
      rewrite <- Htf in Hpt.
      destruct (Hexact Hm Henc Hd ltac:(lia) Hfirst Hpt)
        as (-> & steps & logs & -> & Hst & Hcnt & Hlogs & Hlen).
      split; [specialize (Hre _ eq_refl); by inversion Hre |].
      exists steps, logs.
      rewrite Hc in Hcnt, Hlen. rewrite Nat.sub_0_r in Hcnt. done.
    + apply init_locals_inv in Hi as (_ & _ & _ & Hplain).
      destruct (Hplain Hm) as [-> Hokd]. split; [done |].
      exists []. split; [by rewrite app_nil_r |]. split; [constructor |].
      intros _ Hd _ _. by specialize (Hokd Hd).
Qed.

Lemma demo_plain_trainable :
  plain_trainable (B := Demo.backend) (Demo.args_of false "vision" 2 4)
    Demo.inputs3 Demo.eye2 (train_loader Demo.inputs3).
Proof.
  repeat constructor; intros p; unfold fits, conformable; cbn;
    unfold Demo.embed; repeat (destruct (Nat.even _)); reflexivity.
Qed.

Lemma train_without_meta_adapter_aborts_witness :
  exists w' evs steps logs,
    train_model (Demo.args_of false "vision" 2 4) Demo.inputs3 Demo.eye2
      Demo.world0
    = (w', Raise (UnboundLocalError "meta_query"))
    /\ trace w' = trace Demo.world0 ++ evs
    /\ Forall (fun e => after_evaluation e = false) evs
    /\ evs = EvSetMode 0 true :: steps ++ logs ++ [EvSetMode 0 false]
    /\ count is_optimizer_step steps = 3
    /\ length logs = 1.
Proof.
  destruct (train_model (Demo.args_of false "vision" 2 4) Demo.inputs3
              Demo.eye2 Demo.world0) as [w' r] eqn:Hrun.
  destruct (train_without_meta_adapter_aborts
              (Demo.args_of false "vision" 2 4) Demo.inputs3 Demo.eye2
              Demo.world0 w' r eq_refl Hrun)
    as (_ & evs & Ht & Hf & Hexact).
  destruct Hexact as (-> & steps & logs & Hevs & _ & Hcnt & _ & Hlen).
  - reflexivity.
  - vm_compute. set_solver.
  - eexists _, _. split; [reflexivity | discriminate].
  - apply demo_plain_trainable.
  - exists w', evs, steps, logs. split; [reflexivity |].
    split; [exact Ht |]. split; [exact Hf |]. split; [exact Hevs |].
    split; [exact Hcnt | exact Hlen].
Defined.

(** C1 at a failing input: with the meta-adapter off, [n_iters = 2],
    [shots = 4] and a train loader of three batches, [train_model] takes
    three optimizer steps, not the eight of [total_iters], and stops with
    the unbound-local error on [meta_query] at the validation call that
    follows the first epoch. *)
Theorem plain_run_takes_three_of_eight_steps :
  let args := Demo.args_of false "vision" 2 4 in
  let res := train_model args Demo.inputs3 Demo.eye2 Demo.world0 in
  total_iters args = 8
  /\ length (train_loader Demo.inputs3) = 3
  /\ res.2 = Raise (UnboundLocalError "meta_query")
  /\ count is_optimizer_step (trace res.1) = 3.
Proof. vm_compute. repeat split; reflexivity. Qed.

(** With the meta-adapter on, the same loader and budget give the eight
    steps: three epochs, the third cut after two of its batches. *)
Example meta_run_takes_eight_steps :
  let args := Demo.args_of true "vision" 2 4 in
  let res := train_model args Demo.inputs3 Demo.eye2 Demo.world0 in
  res.2 = Ok tt
  /\ count is_optimizer_step (trace res.1) = 8
  /\ count (fun e => match e with EvSetMode _ true => true | _ => false end)
       (trace res.1) = 3.
Proof. vm_compute. repeat split; reflexivity. Qed.




(** C8. Over an epoch that runs to its end the recorded best accuracy
    does not decrease; with [acc_val] the validation accuracy the epoch
    reports, a strictly greater [acc_val] becomes the recorded best and
    [best_model] is bound to a new object, while an [acc_val] that ties or
    is lower leaves the recorded best, the binding of [best_model] and the
    object it names as they were.  Hence the recorded best does not
    decrease across the epochs of a loop. *)
Theorem best_accuracy_only_improves `{B : Backend} args inp L w w' L' :
  heap_ok inp L w ->
  train_epoch args inp L w = (w', Ok L') ->
  (best_acc L <= best_acc L')%Q
  /\ (exists steps logs q k evs_eval acc_val snap,
        trace w' = trace w
                   ++ epoch_events inp steps logs (target_features L') q k
                        evs_eval acc_val
                   ++ snap
        /\ ((best_acc L < acc_val)%Q ->
            best_acc L' = acc_val
            /\ best_model L' <> best_model L
            /\ heap w !! best_model L' = None
            /\ snap = [EvDeepCopy (model inp) (best_model L');
                       EvMoveTo (best_model L') Cpu])
        /\ ((acc_val <= best_acc L)%Q ->
            best_acc L' = best_acc L
            /\ best_model L' = best_model L
            /\ snap = []
            /\ (best_model L <> model inp ->
                heap w' !! best_model L = heap w !! best_model L)))
  /\ forall fuel La wa Lb wb,
       train_while fuel args inp La wa = (wb, Ok Lb) ->
       (best_acc La <= best_acc Lb)%Q.
Proof.
  intros Hok H. split; [| split].
  - apply train_epoch_inv in H as (_ & _ & Hep).
    destruct (Hep L' eq_refl)
      as (? & ? & ? & ? & ? & acc_val & ? & _ & _ & _ & _ & _ & _ & _ & _ & _
          & _ & Hsel).
    by eapply selection_best_acc.
  - destruct (train_epoch_selection args inp L w w' L' Hok H)
      as (_ & steps & logs & q & k & evs_eval & acc_val & snap & Ht & _ & Hsel).
    exists steps, logs, q, k, evs_eval, acc_val, snap. split; [done |].
    destruct Hsel as [(Hcmp & -> & Hba & Hbm & Hlm & Hlo & Hfresh & _)
                     | (Hcmp & -> & Hba & Hbm & Hkeep)].
    + apply Qltb_lt in Hcmp. split; [done |].
      intros Hle. exfalso. by eapply Qlt_not_le.
    + apply Qltb_ge in Hcmp. split; [| done].
      intros Hlt. exfalso. by eapply Qlt_not_le.
  - intros fuel La wa Lb wb Hw. by eapply train_while_best_acc.
Qed.

Lemma best_accuracy_only_improves_witness :
  exists w' L',
    train_epoch (Demo.args_of true "vision" 2 4) Demo.inputs3 Demo.locals0
      Demo.world0 = (w', Ok L')
    /\ (best_acc Demo.locals0 <= best_acc L')%Q.
Proof.
  destruct (train_epoch (Demo.args_of true "vision" 2 4) Demo.inputs3
              Demo.locals0 Demo.world0)
    as [w' [L' | e]] eqn:He; [| by vm_compute in He].
  exists w', L'. split; [done |].
  apply (best_accuracy_only_improves _ _ _ _ _ _ demo_heap_ok He).
Defined.

(** C7, as the specification states it, fails before the first strict
    improvement: [best_model] starts as the live model itself, and when no
    validation accuracy exceeds 0 it still is the live model when the loop
    ends, so the optimizer step taken meanwhile changed the object
    [best_model] names. *)
Lemma best_model_is_live_model_until_improvement :
  let args := Demo.args_of true "vision" 1 1 in
  let res := train_loop args Demo.inputs1 Demo.eye2 Demo.world0 in
  exists L',
    res.2 = Ok L'
    /\ best_model L' = model Demo.inputs1
    /\ count is_optimizer_step (trace res.1) = 1
    /\ heap Demo.world0 !! best_model L'
       = Some (@mkModel Demo.backend 0 Cuda true)
    /\ heap res.1 !! best_model L'
       = Some (@mkModel Demo.backend 1 Cuda false).
Proof. vm_compute. eexists. repeat split; reflexivity. Qed.

(** C7, amended.  [best_model] is the live model itself (line 118)
    until the validation accuracy of an epoch is a strict improvement on
    the recorded best.  In such an epoch, and in no other, [deepcopy]
    makes one copy: [best_model] then names a new object on the host, not
    the live model, with the parameters the live model has at the end of
    that epoch.  Optimizer steps write the live object only, so an epoch
    that does not improve leaves the copy as it was.  Hence over a loop
    that runs to its end: when the recorded best has grown, [best_model]
    names an object made during the loop, on the host and not the live
    model; when it has not, no copy was made and [best_model] and its
    object are as before.  At the end of every epoch the heap holds the
    live model and the object [best_model] names and nothing else.  The
    final evaluation moves [best_model] to the compute device and runs the
    test evaluation on it, with its parameters unchanged. *)
Theorem snapshot_is_independent_copy `{B : Backend}
    args inp fuel L w w' L' :
  heap_ok inp L w ->
  train_while fuel args inp L w = (w', Ok L') ->
  heap_ok inp L' w'
  /\ (exists evs,
        trace w' = trace w ++ evs
        /\ ((best_acc L < best_acc L')%Q ->
            0 < count is_deep_copy evs
            /\ best_model L' <> model inp
            /\ best_model L' <> best_model L
            /\ heap w !! best_model L' = None
            /\ exists o, heap w' !! best_model L' = Some o
                         /\ device o = Cpu)
        /\ (~ (best_acc L < best_acc L')%Q ->
            count is_deep_copy evs = 0
            /\ best_acc L' = best_acc L
            /\ best_model L' = best_model L
            /\ (best_model L <> model inp ->
                heap w' !! best_model L = heap w !! best_model L)))
  /\ (forall La wa Lb wb,
        heap_ok inp La wa ->
        train_epoch args inp La wa = (wb, Ok Lb) ->
        heap_ok inp Lb wb
        /\ exists acc_val evs,
             trace wb = trace wa ++ evs
             /\ EvPrintAccuracy Validation acc_val ∈ evs
             /\ ((best_acc La < acc_val)%Q ->
                 best_acc Lb = acc_val
                 /\ best_model Lb = next_loc wa
                 /\ best_model Lb <> model inp
                 /\ best_model Lb <> best_model La
                 /\ heap wa !! best_model Lb = None
                 /\ count is_deep_copy evs = 1
                 /\ exists o,
                      heap wb !! model inp = Some o
                      /\ heap wb !! best_model Lb
                         = Some (mkModel (params o) Cpu (training o)))
             /\ ((acc_val <= best_acc La)%Q ->
                 best_acc Lb = best_acc La
                 /\ best_model Lb = best_model La
                 /\ count is_deep_copy evs = 0
                 /\ (best_model La <> model inp ->
                     heap wb !! best_model La = heap wa !! best_model La)))
  /\ (forall La b wa wb r l,
        train_step args inp La b wa = (wb, r) ->
        l <> model inp -> heap wb !! l = heap wa !! l)
  /\ forall Lf wf wf',
       finish args inp Lf wf = (wf', Ok tt) ->
       exists o t a_tf a_sil a_q a_k rest,
         heap wf !! best_model Lf = Some o
         /\ heap wf' !! best_model Lf = Some (mkModel (params o) Cuda t)
         /\ trace wf' = trace wf
                        ++ EvMoveTo (best_model Lf) Cuda
                        :: EvEvalCall Test (best_model Lf) (test_loader inp)
                             a_tf a_sil a_q a_k
                        :: rest.
Proof.
  intros Hok H.
  destruct (train_while_copies args inp fuel L w w' L' H Hok)
    as (Hok' & Hn & evs & Ht & Hcase).
  split; [done |]. split; [| split; [| split]].
  - exists evs. split; [done |].
    destruct Hcase as [(Hc & Hba & Hbm & Hfr) | (Hc & Hba & Hlm & Hge & Hobj)].
    + split.
      * intros Hlt. exfalso. rewrite Hba in Hlt. by apply Qlt_irrefl in Hlt.
      * done.
    + split; [| done]. intros _.
      assert (Hnew : best_model L' ∉ dom (heap w)).
      { intros Hin. destruct Hok as [_ Hb]. apply Hb in Hin. lia. }
      split; [done |]. split; [done |]. split.
      * intros Heq. apply Hnew. rewrite Heq. by eapply heap_ok_best.
      * split; [by apply not_elem_of_dom | done].
  - intros La wa Lb wb Hoka He.
    exact (train_epoch_copies args inp La wa wb Lb Hoka He).
  - intros La b wa wb r l Hs Hl.
    apply train_step_inv in Hs as (evs' & (_ & _ & Hframe & _) & _).
    by apply Hframe.
  - intros Lf wf wf' Hf. apply finish_inv in Hf as (_ & _ & Hfin).
    destruct (Hfin eq_refl)
      as (q' & k' & evs' & a & o & t & _ & _ & (_ & _ & _ & Ht') & _ & Ho & Ho').
    exists o, t. eexists _, _, _, _, _. split; [done |]. split; [done |].
    rewrite Ht'. unfold finish_events. reflexivity.
Qed.

(** In the worked run the second epoch improves on the recorded best 0:
    when the loop ends, [best_model] names a copy on the host. *)
Lemma snapshot_is_independent_copy_witness :
  exists w' L' evs,
    train_while 8 (Demo.args_of true "vision" 2 4) Demo.inputs3 Demo.locals0
      Demo.world0 = (w', Ok L')
    /\ (best_acc Demo.locals0 < best_acc L')%Q
    /\ trace w' = trace Demo.world0 ++ evs
    /\ 0 < count is_deep_copy evs
    /\ best_model L' <> model Demo.inputs3
    /\ heap Demo.world0 !! best_model L' = None
    /\ exists o, heap w' !! best_model L' = Some o /\ device o = Cpu.
Proof.
  destruct (train_while 8 (Demo.args_of true "vision" 2 4) Demo.inputs3
              Demo.locals0 Demo.world0) as [w' r] eqn:Hw.
  assert (Hr : exists L', r = Ok L' /\ (best_acc Demo.locals0 < best_acc L')%Q).
  { vm_compute in Hw. inversion Hw. eexists. split; reflexivity. }
  destruct Hr as (L' & -> & Hlt).
  destruct (snapshot_is_independent_copy _ _ _ _ _ _ _ demo_heap_ok Hw)
    as (_ & (evs & Ht & Himp & _) & _).
  destruct (Himp Hlt) as (Hcnt & Hlm & _ & Hfresh & Hobj).
  exists w', L', evs. split; [reflexivity |]. split; [exact Hlt |].
  split; [exact Ht |]. split; [exact Hcnt |]. split; [exact Hlm |].
  split; [exact Hfresh | exact Hobj].
Defined.
